(** * TimeChart: change-tracking buffer, scale model and segmented GPU series

    A shallow embedding of these pieces of the TimeChart sources:

    - [src/core/dataPointsBuffer.ts]: the [DataPointsBuffer] array subclass
      with its four mutation counters;
    - [src/core/renderModel.ts]: [calcMinMaxY], [unionMinMax],
      [RenderModel.updateModel] and the scheduling of updates by
      [requestRedraw] and [dispose];
    - the line-chart plugin: [SeriesSegmentVertexArray.syncPoints], the
      segment chain of [SeriesVertexArray], and the two [draw] methods with
      the texel fetches of the vertex shaders;
    - the volume-bar plugin: the ring of bars of [VolumeBarRenderer].

    Conventions.  JavaScript numbers that index or count are integers, so
    they are [Z] (counters may go below zero in the source, nothing clamps
    them).  Coordinates of data points are finite numbers, abstracted by [Z];
    only comparisons and [min]/[max] are applied to them as such.  The two
    operations that round are kept abstract: the subtraction of two
    coordinates, in [updateModel], is the section variable [minus], and the
    rounding to single precision of a coordinate stored in a
    [Float32Array], in [syncPoints], is [fround] of the class [Float32]; the
    examples run with the subtraction and the rounding of integers.  The
    values [Infinity] and [-Infinity] that [calcMinMaxY] starts from are kept
    (type [number]).  The elements of a buffer are data points: arrays with
    holes or with [undefined] elements are outside the model, so that [pop]
    and [shift] return [undefined] on the empty array only.  A thrown
    exception is a completion [Throws e]; for the buffer the state reached
    when the exception is thrown is part of the result, as the mutation of
    [this] made before a [throw] stays visible to the caller.  The WebGL
    context is the log of the texture calls made on it; a failing context
    (no texture left) is outside the model.  Code that is not among the
    sources ([nice] of d3-scale, [domainSearch] of the utilities) is a
    section variable; the numbers of the volume bars, which are rounded to
    single precision when stored, are kept abstract in the same way. *)

From Stdlib Require Import ZArith List Bool Lia.
From Equations Require Import Equations.
Import ListNotations.
Open Scope Z_scope.

Set Implicit Arguments.

(** ** Completions *)

Inductive exn : Type :=
| RangeError_delete   (* "DataPoints that already synced to GPU cannot be delete in the middle" *)
| RangeError_insert   (* "DataPoints cannot be inserted in the middle of the range ..." *)
| Error_BUG           (* throw new Error('BUG') *)
| Error_BUG_length    (* "BUG! length after splice not expected." *)
| TypeError           (* property access on undefined *)
| RangeError_length.  (* new Float32Array of a negative length *)

Inductive completion (A : Type) : Type :=
| Returns (a : A)
| Throws (e : exn).
Arguments Returns {A} a.
Arguments Throws {A} e.

(** The two errors the specification calls "invalid mutation". *)
Definition invalid_mutation (e : exn) : bool :=
  match e with
  | RangeError_delete | RangeError_insert => true
  | _ => false
  end.

(** ** Data points and plain arrays *)

Record DataPoint : Type := mkDataPoint { x : Z; y : Z }.

Definition len {A : Type} (l : list A) : Z := Z.of_nat (List.length l).
Arguments len : simpl never.

(** [arr[i]]: [None] stands for [undefined] (index out of range). *)
Definition at_index {A : Type} (arr : list A) (i : Z) : option A :=
  if i <? 0 then None else nth_error arr (Z.to_nat i).

(** [Array.prototype.splice(start, deleteCount, ...items)] on a plain array:
    the removed elements and the new contents. *)
Definition array_splice {A : Type} (start deleteCount : Z) (its arr : list A)
  : list A * list A :=
  let actualStart :=
    if start <? 0 then Z.max (len arr + start) 0 else Z.min start (len arr) in
  let actualDeleteCount := Z.min (Z.max deleteCount 0) (len arr - actualStart) in
  (firstn (Z.to_nat actualDeleteCount) (skipn (Z.to_nat actualStart) arr),
   firstn (Z.to_nat actualStart) arr ++ its
     ++ skipn (Z.to_nat (actualStart + actualDeleteCount)) arr).

(** The values of a list of reads, when none of them is [undefined]. *)
Fixpoint all_some {A : Type} (l : list (option A)) : option (list A) :=
  match l with
  | [] => Some []
  | None :: _ => None
  | Some a :: l' =>
      match all_some l' with None => None | Some r => Some (a :: r) end
  end.

(** ** DataPointsBuffer (src/core/dataPointsBuffer.ts) *)

Module Buffer.

Record DataPointsBuffer : Type := mkBuffer {
  items : list DataPoint;      (* the elements of the array itself *)
  pushed_back : Z;
  pushed_front : Z;
  poped_back : Z;
  poped_front : Z
}.

Definition length (b : DataPointsBuffer) : Z := len (items b).

Definition set_items (b : DataPointsBuffer) (l : list DataPoint) :=
  mkBuffer l (pushed_back b) (pushed_front b) (poped_back b) (poped_front b).
Definition set_pushed_back (b : DataPointsBuffer) (v : Z) :=
  mkBuffer (items b) v (pushed_front b) (poped_back b) (poped_front b).
Definition set_pushed_front (b : DataPointsBuffer) (v : Z) :=
  mkBuffer (items b) (pushed_back b) v (poped_back b) (poped_front b).
Definition set_poped_back (b : DataPointsBuffer) (v : Z) :=
  mkBuffer (items b) (pushed_back b) (pushed_front b) v (poped_front b).
Definition set_poped_front (b : DataPointsBuffer) (v : Z) :=
  mkBuffer (items b) (pushed_back b) (pushed_front b) (poped_back b) v.

(** A method of the buffer: runs on [this] and completes, leaving a buffer. *)
Definition M (A : Type) : Type := DataPointsBuffer -> completion A * DataPointsBuffer.

Definition ret {A : Type} (a : A) : M A := fun b => (Returns a, b).
Definition throw {A : Type} (e : exn) : M A := fun b => (Throws e, b).
Definition bind {A B : Type} (m : M A) (k : A -> M B) : M B :=
  fun b => match m b with
           | (Returns a, b1) => k a b1
           | (Throws e, b1) => (Throws e, b1)
           end.
Definition this : M DataPointsBuffer := fun b => (Returns b, b).
Definition assign (f : DataPointsBuffer -> DataPointsBuffer) : M unit :=
  fun b => (Returns tt, f b).

Declare Scope buffer_scope.
Delimit Scope buffer_scope with buffer.
Notation "'do' a <- m ; k" := (bind m (fun a => k))
  (at level 10, a name, m at level 100, k at level 200) : buffer_scope.
Notation "m ;; k" := (bind m (fun _ => k))
  (at level 100, k at level 200, right associativity) : buffer_scope.
Local Open Scope buffer_scope.

(** [constructor(...items)]: every element counts as pushed to the back. *)
Definition new (l : list DataPoint) : DataPointsBuffer :=
  mkBuffer l (len l) 0 0 0.

Definition _synced : M unit :=
  assign (fun b => mkBuffer (items b) 0 0 0 0).

Definition push (its : list DataPoint) : M Z :=
  assign (fun b => set_pushed_back b (pushed_back b + len its)) ;;
  assign (fun b => set_items b (items b ++ its)) ;;
  do b <- this ; ret (length b).

Definition pop : M (option DataPoint) :=
  do b <- this ;
  let len := length b in
  match rev (items b) with
  | [] => ret None                                   (* r === undefined *)
  | r :: front =>
      assign (fun b => set_items b (rev front)) ;;
      (if 0 <? pushed_back b then
         assign (fun b => set_pushed_back b (pushed_back b - 1))
       else if 0 <? len - pushed_front b then
         assign (fun b => set_poped_back b (poped_back b + 1))
       else
         assign (fun b => set_pushed_front b (pushed_front b - 1))) ;;
      ret (Some r)
  end.

Definition unshift (its : list DataPoint) : M Z :=
  assign (fun b => set_pushed_front b (pushed_front b + len its)) ;;
  assign (fun b => set_items b (its ++ items b)) ;;
  do b <- this ; ret (length b).

Definition shift : M (option DataPoint) :=
  do b <- this ;
  let len := length b in
  match items b with
  | [] => ret None                                   (* r === undefined *)
  | r :: rest =>
      assign (fun b => set_items b rest) ;;
      (if 0 <? pushed_front b then
         assign (fun b => set_pushed_front b (pushed_front b - 1))
       else if 0 <? len - pushed_back b then
         assign (fun b => set_poped_front b (poped_front b + 1))
       else
         assign (fun b => set_pushed_back b (pushed_back b - 1))) ;;
      ret (Some r)
  end.

(** [updateDelete].  The locals [deleteCount] and [len], which the helper
    [d] decreases, are threaded through the four cases; [d c] answers
    whether nothing is left to delete. *)
Definition updateDelete (start deleteCount len : Z) : M unit :=
  if deleteCount =? 0 then ret tt else
  (* Case 1: deleting from the pushed_front region *)
  do s1 <- (do b <- this ;
            if start <? pushed_front b then
              let c := Z.min deleteCount (pushed_front b - start) in
              assign (fun b => set_pushed_front b (pushed_front b - c)) ;;
              ret (deleteCount - c, len - c, deleteCount - c =? 0)
            else ret (deleteCount, len, false)) ;
  let '(deleteCount, len, done) := s1 in
  if done then ret tt else
  (* Case 2: deleting from the start of the synced region *)
  do s2 <- (do b <- this ;
            if start =? pushed_front b then
              let c := Z.min deleteCount (len - pushed_front b - pushed_back b) in
              assign (fun b => set_poped_front b (poped_front b + c)) ;;
              ret (deleteCount - c, len - c, deleteCount - c =? 0)
            else ret (deleteCount, len, false)) ;
  let '(deleteCount, len, done) := s2 in
  if done then ret tt else
  (* Case 3: deleting from the middle of the synced region *)
  do s3 <- (do b <- this ;
            if (pushed_front b <? start) && (start <? len - pushed_back b) then
              if start + deleteCount <? len - pushed_back b then
                throw RangeError_delete
              else
                let c := Z.min deleteCount (len - start - pushed_back b) in
                assign (fun b => set_poped_back b (poped_back b + c)) ;;
                ret (deleteCount - c, len - c, deleteCount - c =? 0)
            else ret (deleteCount, len, false)) ;
  let '(deleteCount, len, done) := s3 in
  if done then ret tt else
  (* Case 4: deleting from the pushed_back region *)
  let c := Z.min deleteCount (len - start) in
  assign (fun b => set_pushed_back b (pushed_back b - c)) ;;
  if deleteCount - c =? 0 then ret tt else
  throw Error_BUG.

Definition updateInsert (start insertCount len : Z) : M unit :=
  do b <- this ;
  if start <=? pushed_front b then
    assign (fun b => set_pushed_front b (pushed_front b + insertCount))
  else if len - pushed_back b <=? start then
    assign (fun b => set_pushed_back b (pushed_back b + insertCount))
  else
    throw RangeError_insert.

(** [splice(start, deleteCount?, ...items)].  An integer [start]; the
    source's special case [start === -Infinity] gives 0, as does every
    [start <= -length].  [deleteCount = None] is [undefined]. *)
Definition splice (start : Z) (deleteCount : option Z) (its : list DataPoint)
  : M (list DataPoint) :=
  do b <- this ;
  let start := if start <? 0 then Z.max (length b + start) 0 else start in
  let deleteCount :=
    match deleteCount with
    | None => length b - start
    | Some dc => Z.min (Z.max dc 0) (length b - start)
    end in
  updateDelete start deleteCount (length b) ;;
  updateInsert start (len its) (length b - deleteCount) ;;
  let expectedLen := length b - deleteCount + len its in
  let '(r, arr) := array_splice start deleteCount its (items b) in
  assign (fun b => set_items b arr) ;;
  do b' <- this ;
  if length b' =? expectedLen then ret r else throw Error_BUG_length.

(** The counters as a tuple, and the well-formedness the class comment
    describes: a front region, a synced middle and a back region that do not
    overlap. *)
Definition counters (b : DataPointsBuffer) : Z * Z * Z * Z :=
  (pushed_front b, pushed_back b, poped_front b, poped_back b).

Definition wf (b : DataPointsBuffer) : Prop :=
  0 <= pushed_front b /\ 0 <= pushed_back b /\
  0 <= poped_front b /\ 0 <= poped_back b /\
  pushed_front b + pushed_back b <= length b.

(** The public mutators, as data, for statements about "every operation". *)
Inductive operation : Type :=
| Push (its : list DataPoint)
| Pop
| Unshift (its : list DataPoint)
| Shift
| Splice (start : Z) (deleteCount : option Z) (its : list DataPoint).

Definition run (op : operation) : M unit :=
  match op with
  | Push its => push its ;; ret tt
  | Pop => pop ;; ret tt
  | Unshift its => unshift its ;; ret tt
  | Shift => shift ;; ret tt
  | Splice start dc its => splice start dc its ;; ret tt
  end.

(** [k] successive calls of a method. *)
Fixpoint times {A : Type} (k : nat) (m : M A) : M unit :=
  match k with
  | O => ret tt
  | S k' => m ;; times k' m
  end.

(** Successive calls [f(...its)], one for each argument list of [calls]. *)
Fixpoint each {A : Type} (f : list DataPoint -> M A)
    (calls : list (list DataPoint)) : M unit :=
  match calls with
  | [] => ret tt
  | its :: rest => f its ;; each f rest
  end.

(** What successive [unshift] calls put in front of the array. *)
Fixpoint prepended (calls : list (list DataPoint)) : list DataPoint :=
  match calls with
  | [] => []
  | its :: rest => prepended rest ++ its
  end.

(** The buffer one [pop()] leaves when the array is not empty, read off the
    three branches of the method. *)
Definition popped (b : DataPointsBuffer) : DataPointsBuffer :=
  let b' := set_items b (firstn (Z.to_nat (length b - 1)) (items b)) in
  if 0 <? pushed_back b then set_pushed_back b' (pushed_back b - 1)
  else if 0 <? length b - pushed_front b then set_poped_back b' (poped_back b + 1)
  else set_pushed_front b' (pushed_front b - 1).

(** The buffer one [shift()] leaves when the array is not empty. *)
Definition shifted (b : DataPointsBuffer) : DataPointsBuffer :=
  let b' := set_items b (skipn 1 (items b)) in
  if 0 <? pushed_front b then set_pushed_front b' (pushed_front b - 1)
  else if 0 <? length b - pushed_back b then set_poped_front b' (poped_front b + 1)
  else set_pushed_back b' (pushed_back b - 1).

(** The specification's "pop-back of [k] elements from the synced region":
    the last [k] synced elements go, the unsynced back region stays, and
    [poped_back] grows by [k].  This definition follows the specification's
    words; it is compared with [splice] and with [pop] below. *)
Definition pop_back_synced (k : Z) (b : DataPointsBuffer) : DataPointsBuffer :=
  mkBuffer (firstn (Z.to_nat (length b - pushed_back b - k)) (items b)
              ++ skipn (Z.to_nat (length b - pushed_back b)) (items b))
           (pushed_back b) (pushed_front b) (poped_back b + k) (poped_front b).

(** [static _from_array(arr)]: a buffer is returned as it is; a plain array
    gets the prototype of the class, its three other counters are set to
    zero and every element counts as pushed to the back. *)
Definition _from_array (arr : list DataPoint + DataPointsBuffer)
  : DataPointsBuffer :=
  match arr with
  | inr b => b
  | inl l =>
      let b := mkBuffer l 0 0 0 0 in
      set_pushed_back b (length b)
  end.

(** The synced region of the class comment: the elements between the front
    region and the back region. *)
Definition synced (b : DataPointsBuffer) : list DataPoint :=
  firstn (Z.to_nat (length b - pushed_front b - pushed_back b))
         (skipn (Z.to_nat (pushed_front b)) (items b)).

(** The number of elements that were synced when the counters were last
    cleared: those still in the synced region and those popped from it at
    either end since. *)
Definition synced_before (b : DataPointsBuffer) : Z :=
  length b - pushed_front b - pushed_back b + poped_front b + poped_back b.

(** The element that was at position [k] of the array when the counters were
    last cleared, as long as it is still in the synced region. *)
Definition synced_at (b : DataPointsBuffer) (k : Z) : option DataPoint :=
  at_index (items b) (pushed_front b + k - poped_front b).

(** A sequence of calls of the public mutators; it stops at the first one
    that throws. *)
Fixpoint runs (ops : list operation) : M unit :=
  match ops with
  | [] => ret tt
  | op :: rest => run op ;; runs rest
  end.

(** *** Example buffers *)

(** A synced buffer of five points, for the examples. *)
Definition five : DataPointsBuffer :=
  mkBuffer [mkDataPoint 0 0; mkDataPoint 1 10; mkDataPoint 2 5;
            mkDataPoint 3 10; mkDataPoint 4 0] 0 0 0 0.

(** A series whose synced points were all popped but one. *)
Definition after_pops : DataPointsBuffer :=
  mkBuffer [mkDataPoint 9 3] 0 0 0 4.

End Buffer.

(** ** RenderModel (src/core/renderModel.ts) *)

Module Model.

Import Buffer.

(** A JavaScript number as [calcMinMaxY] and [unionMinMax] see it: a finite
    value or one of the two infinities the loops start from. *)
Inductive number : Type :=
| NegInfinity
| Fin (z : Z)
| Infinity.

(** [a < b] on numbers. *)
Definition ltb (a b : number) : bool :=
  match a, b with
  | NegInfinity, NegInfinity => false
  | NegInfinity, _ => true
  | Fin _, NegInfinity => false
  | Fin u, Fin v => u <? v
  | Fin _, Infinity => true
  | Infinity, _ => false
  end.

Definition le (a b : number) : Prop := ltb b a = false.

(** [Math.min(a, b)] and [Math.max(a, b)]. *)
Definition nmin (a b : number) : number := if ltb b a then b else a.
Definition nmax (a b : number) : number := if ltb a b then b else a.

Record MinMax : Type := mkMinMax { min : number; max : number }.

(** [calcMinMaxY(arr, start, end)]: the loop body for index [i] and the
    [count] indexes from [i] on.  Reading [arr[i].y] past the array throws a
    TypeError, here [None]. *)
Fixpoint calcMinMaxY_loop (arr : list DataPoint) (i : Z) (count : nat)
    (acc : MinMax) : option MinMax :=
  match count with
  | O => Some acc
  | S count' =>
      match at_index arr i with
      | None => None
      | Some dp =>
          let v := Fin (y dp) in
          let max' := if ltb (max acc) v then v else max acc in
          let min' := if ltb v (min acc) then v else min acc in
          calcMinMaxY_loop arr (i + 1) count' (mkMinMax min' max')
      end
  end.

Definition calcMinMaxY (arr : list DataPoint) (start end_ : Z) : option MinMax :=
  calcMinMaxY_loop arr start (Z.to_nat (end_ - start)) (mkMinMax Infinity NegInfinity).

(** [unionMinMax(...items)]: [Math.min] and [Math.max] of no argument are
    [Infinity] and [-Infinity]. *)
Definition unionMinMax (l : list MinMax) : MinMax :=
  mkMinMax (fold_right nmin Infinity (map min l))
           (fold_right nmax NegInfinity (map max l)).

(** The options [updateModel] reads.  The declaration of
    [ResolvedCoreOptions] is not among the sources: a range option is the
    string ['auto'], a [{min, max}] object or a falsy value, as the tests
    [o.xRange === 'auto'] and [else if (o.xRange)] distinguish them. *)
Inductive rangeOption (A : Type) : Type :=
| Auto
| Fixed (lo hi : A)
| Unset.
Arguments Auto {A}.
Arguments Fixed {A} lo hi.
Arguments Unset {A}.

Record Options : Type := mkOptions {
  realTime : bool;
  xRangeOpt : rangeOption Z;
  yRangeOpt : rangeOption Z
}.

(** The fields of [RenderModel] that [updateModel] reads or writes; of the
    d3 scales only the domains. *)
Record RenderModel : Type := mkModel {
  xDomain : Z * Z;
  yDomain : number * number;
  xRange : option (Z * Z);      (* {min, max} of the data, or null *)
  yRange : option MinMax
}.

(** [Math.max(...)] and [Math.min(...)] over the x of non-empty series. *)
Definition maximum (l : list Z) (d : Z) : Z :=
  match l with [] => d | a :: l' => fold_left Z.max l' a end.
Definition minimum (l : list Z) (d : Z) : Z :=
  match l with [] => d | a :: l' => fold_left Z.min l' a end.

Section UpdateModel.

(** [.nice()] of d3-scale rounds a domain outwards; the library is not part
    of the repository. *)
Variable nice : number * number -> number * number.

(** [a - b] on two coordinates: a subtraction of doubles, which rounds its
    result, so that it is not the subtraction of [Z]. *)
Variable minus : Z -> Z -> Z.

Variable o : Options.

(** The constructor: d3's default domain is [0, 1]. *)
Definition new : RenderModel :=
  mkModel (match xRangeOpt o with Fixed lo hi => (lo, hi) | _ => (0, 1) end)
          (match yRangeOpt o with
           | Fixed lo hi => (Fin lo, Fin hi)
           | _ => (Fin 0, Fin 1)
           end)
          None None.

Definition first_x (s : DataPointsBuffer) : Z :=
  match items s with dp :: _ => x dp | [] => 0 end.
Definition last_x (s : DataPointsBuffer) : Z :=
  match rev (items s) with dp :: _ => x dp | [] => 0 end.

(** [updateModel()], given the series data of [options.series] at the time
    of the call.  A TypeError raised by [calcMinMaxY] leaves the x part
    already updated. *)
Definition updateModel (allSeries : list DataPointsBuffer) (m : RenderModel)
  : completion unit * RenderModel :=
  let series := filter (fun s => 0 <? length s) allSeries in
  if len series =? 0 then (Returns tt, m) else
  (* Update X-axis scaling *)
  let maxDomain := maximum (map last_x series) 0 in
  let minDomain := minimum (map first_x series) 0 in
  let m := mkModel (xDomain m) (yDomain m) (Some (minDomain, maxDomain)) (yRange m) in
  let m :=
    if realTime o || (match xRangeOpt o with Auto => true | _ => false end) then
      if realTime o then
        let currentDomain := xDomain m in
        let range := minus (snd currentDomain) (fst currentDomain) in
        mkModel (minus maxDomain range, maxDomain) (yDomain m) (xRange m) (yRange m)
      else
        mkModel (minDomain, maxDomain) (yDomain m) (xRange m) (yRange m)
    else
      match xRangeOpt o with
      | Fixed lo hi => mkModel (lo, hi) (yDomain m) (xRange m) (yRange m)
      | _ => m
      end in
  (* Update Y-axis scaling *)
  let minMaxY :=
    all_some (flat_map (fun s =>
      [ calcMinMaxY (items s) 0 (pushed_front s);
        calcMinMaxY (items s) (length s - pushed_back s) (length s) ]) series) in
  match minMaxY with
  | None => (Throws TypeError, m)
  | Some minMaxY =>
      let minMaxY :=
        match yRange m with Some r => minMaxY ++ [r] | None => minMaxY end in
      let r := unionMinMax minMaxY in
      let m := mkModel (xDomain m) (yDomain m) (xRange m) (Some r) in
      let m :=
        match yRangeOpt o with
        | Auto => mkModel (xDomain m) (nice (min r, max r)) (xRange m) (yRange m)
        | Fixed lo hi => mkModel (xDomain m) (Fin lo, Fin hi) (xRange m) (yRange m)
        | Unset => m
        end in
      (Returns tt, m)
  end.

(** Successive update cycles, each seeing the series as they are then; a
    cycle that throws leaves the model as it was at the throw. *)
Fixpoint updates (cycles : list (list DataPointsBuffer)) (m : RenderModel)
  : RenderModel :=
  match cycles with
  | [] => m
  | s :: rest => updates rest (snd (updateModel s m))
  end.

End UpdateModel.

End Model.

(** ** Segments and the segment chain (line-chart plugin) *)

Module LineChart.

Import Buffer.

Definition BUFFER_TEXTURE_WIDTH : Z := 256.
Definition BUFFER_TEXTURE_HEIGHT : Z := 2048.
Definition BUFFER_POINT_CAPACITY : Z := BUFFER_TEXTURE_WIDTH * BUFFER_TEXTURE_HEIGHT.
Definition BUFFER_INTERVAL_CAPACITY : Z := BUFFER_POINT_CAPACITY - 2.

(* The capacities are unfolded on demand only. *)
Opaque BUFFER_TEXTURE_WIDTH BUFFER_TEXTURE_HEIGHT
       BUFFER_POINT_CAPACITY BUFFER_INTERVAL_CAPACITY.

Ltac capacities :=
  with_strategy transparent
    [BUFFER_TEXTURE_WIDTH BUFFER_TEXTURE_HEIGHT
     BUFFER_POINT_CAPACITY BUFFER_INTERVAL_CAPACITY]
    (unfold BUFFER_INTERVAL_CAPACITY, BUFFER_POINT_CAPACITY,
       BUFFER_TEXTURE_WIDTH, BUFFER_TEXTURE_HEIGHT in * ).

(** [Math.floor(a / b)] and [Math.ceil(a / b)] for integers and [b > 0]. *)
Definition floor_div (a b : Z) : Z := a / b.
Definition ceil_div (a b : Z) : Z := - ((- a) / b).

(** [syncPoints] stores the coordinates of the points in a [Float32Array]:
    a number stored there is rounded to single precision, which is
    [Math.fround].  The rounding is kept abstract. *)
Class Float32 : Type := { fround : Z -> Z }.

(** The two floats that a [Float32Array] holds for a data point. *)
Definition float32 {F : Float32} (dp : DataPoint) : DataPoint :=
  mkDataPoint (fround (x dp)) (fround (y dp)).

(** [Math.fround] on the integers that a single-precision float can stand
    for (those below 2^128): the nearest integer with a significand of 24
    bits, the even one of two nearest. *)
Definition fround_integer (z : Z) : Z :=
  let a := Z.abs z in
  let e := Z.log2 a - 23 in
  if e <=? 0 then z else
  let q := Z.shiftr a e in
  let r := a - Z.shiftl q e in
  let half := Z.shiftl 1 (e - 1) in
  let q := if (half <? r) || ((r =? half) && Z.odd q) then q + 1 else q in
  Z.sgn z * Z.shiftl q e.

Definition integers : Float32 := {| fround := fround_integer |}.

(** The WebGL context is the log of the calls made on it, oldest first.  A
    texture is named by the position of its [createTexture] call, so that no
    two textures share a name.  [createTexture t] stands for the whole
    constructor of a segment: creation, [texStorage2D] and the upload of an
    all-zero image. *)
Definition texture : Type := nat.

Inductive glCall : Type :=
| createTexture (t : texture)
| deleteTexture (t : texture)
| texSubImage2D (t : texture) (yoffset height : Z) (pixels : list DataPoint).

Definition WebGL : Type := list glCall.

(** What the vertex shader's [dataPoint(index)] fetches from texture [t]:
    the cell written by the latest upload covering it. *)
Fixpoint texel_latest (newestFirst : list glCall) (t : texture) (p : Z)
  : option DataPoint :=
  match newestFirst with
  | [] => None
  | createTexture t' :: older =>
      if Nat.eqb t' t then Some (mkDataPoint 0 0) else texel_latest older t p
  | deleteTexture t' :: older =>
      if Nat.eqb t' t then None else texel_latest older t p
  | texSubImage2D t' yoffset height pixels :: older =>
      if Nat.eqb t' t && (yoffset * BUFFER_TEXTURE_WIDTH <=? p)
         && (p <? (yoffset + height) * BUFFER_TEXTURE_WIDTH)
      then nth_error pixels (Z.to_nat (p - yoffset * BUFFER_TEXTURE_WIDTH))
      else texel_latest older t p
  end.

Definition texel (gl : WebGL) (t : texture) (p : Z) : option DataPoint :=
  texel_latest (rev gl) t p.

(** [lo, lo+1, ..., lo+count-1]: the values of a counting [for] loop. *)
Definition Zrange (lo : Z) (count : nat) : list Z :=
  map (fun k => lo + Z.of_nat k) (seq 0 count).

Section Chain.

Context {F : Float32}.

(** *** SeriesSegmentVertexArray.syncPoints *)

(** The rows [rowStart, rowEnd) that [syncPoints] uploads. *)
Definition syncPoints_rows (start n bufferPos length : Z) : Z * Z :=
  let rowStart := floor_div bufferPos BUFFER_TEXTURE_WIDTH in
  let rowEnd := ceil_div (bufferPos + n) BUFFER_TEXTURE_WIDTH in
  let rowStart :=
    if (0 <? rowStart) && (start =? 0)
       && (bufferPos =? rowStart * BUFFER_TEXTURE_WIDTH)
    then rowStart - 1 else rowStart in
  let rowEnd :=
    if (rowEnd <? BUFFER_TEXTURE_HEIGHT) && (start + n =? length)
       && (bufferPos + n =? rowEnd * BUFFER_TEXTURE_WIDTH)
    then rowEnd + 1 else rowEnd in
  (rowStart, rowEnd).

(** The clamped source index read for cell [p] of the texture. *)
Definition sourceIndex (start bufferPos length p : Z) : Z :=
  Z.max (Z.min (start + p - bufferPos) (length - 1)) 0.

(** The fill loops: for each row and column the data point read, [None]
    when [dataPoints[i]] is undefined.  Cell [(r, c)] lands at position
    [(r - rowStart) * W + c] of the temporary buffer, so the cells are
    listed in buffer order. *)
Definition syncPoints_reads (dataPoints : list DataPoint)
    (start bufferPos rowStart rowEnd : Z) : list (option DataPoint) :=
  flat_map (fun r =>
    map (fun c =>
      let p := r * BUFFER_TEXTURE_WIDTH + c in
      let i := sourceIndex start bufferPos (len dataPoints) p in
      at_index dataPoints i)
      (Zrange 0 (Z.to_nat BUFFER_TEXTURE_WIDTH)))
    (Zrange rowStart (Z.to_nat (rowEnd - rowStart))).

(** [syncPoints(start, n, bufferPos)] on the segment with texture [t], whose
    [dataPoints] field is the series' buffer.  The temporary buffer is a
    [Float32Array]: a cell of it is the pair of floats that the x and the y
    of the point read are rounded to. *)
Definition syncPoints (t : texture) (dataPoints : list DataPoint)
    (start n bufferPos : Z) (gl : WebGL) : completion WebGL :=
  let '(rowStart, rowEnd) := syncPoints_rows start n bufferPos (len dataPoints) in
  if rowEnd - rowStart <? 0 then Throws RangeError_length else
  match all_some (syncPoints_reads dataPoints start bufferPos rowStart rowEnd) with
  | None => Throws TypeError
  | Some points =>
      let buffer := map float32 points in
      Returns (gl ++ [texSubImage2D t rowStart (rowEnd - rowStart) buffer])
  end.

(** The points that [syncPoints] reads when every read is defined, in
    buffer order. *)
Definition syncPoints_points (dataPoints : list DataPoint)
    (start bufferPos rowStart rowEnd : Z) : list DataPoint :=
  flat_map (fun r =>
    map (fun c =>
      let p := r * BUFFER_TEXTURE_WIDTH + c in
      let i := sourceIndex start bufferPos (len dataPoints) p in
      nth (Z.to_nat i) dataPoints (mkDataPoint 0 0))
      (Zrange 0 (Z.to_nat BUFFER_TEXTURE_WIDTH)))
    (Zrange rowStart (Z.to_nat (rowEnd - rowStart))).

(** The temporary buffer of [syncPoints] when every read is defined: cell
    [(r, c)] holds the rounded coordinates of the data point at the clamped
    source index. *)
Definition syncPoints_cells (dataPoints : list DataPoint)
    (start bufferPos rowStart rowEnd : Z) : list DataPoint :=
  map float32 (syncPoints_points dataPoints start bufferPos rowStart rowEnd).

(** The upload [syncPoints] makes when every read is defined. *)
Definition syncPoints_upload (t : texture) (dataPoints : list DataPoint)
    (start n bufferPos : Z) : glCall :=
  let '(rowStart, rowEnd) := syncPoints_rows start n bufferPos (len dataPoints) in
  texSubImage2D t rowStart (rowEnd - rowStart)
    (syncPoints_cells dataPoints start bufferPos rowStart rowEnd).

(** The rows the specification gives for [syncPoints], in its words: rows
    floor(bufferPos/W) through ceil((bufferPos+n)/W), and one more row when
    the touched region abuts the segment's very first (very last) row, the
    touched edge is row-aligned and the affected range touches the start
    (the end) of the sequence.  "Abuts" is read generously: the region
    begins in the first row or in the row after it, and ends in the last row
    or in the row before it. *)
Definition claimed_rows (start n bufferPos length : Z) : Z * Z :=
  let rowStart := floor_div bufferPos BUFFER_TEXTURE_WIDTH in
  let rowEnd := ceil_div (bufferPos + n) BUFFER_TEXTURE_WIDTH in
  let rowStart :=
    if (rowStart <=? 1) && (start =? 0)
       && (bufferPos =? rowStart * BUFFER_TEXTURE_WIDTH)
    then rowStart - 1 else rowStart in
  let rowEnd :=
    if (BUFFER_TEXTURE_HEIGHT - 1 <=? rowEnd) && (start + n =? length)
       && (bufferPos + n =? rowEnd * BUFFER_TEXTURE_WIDTH)
    then rowEnd + 1 else rowEnd in
  (rowStart, rowEnd).

(** *** SeriesVertexArray *)

Record SeriesVertexArray : Type := mkSeries {
  gl : WebGL;
  data : DataPointsBuffer;        (* this.series.data, shared with the model *)
  segments : list texture;
  validStart : Z;
  validEnd : Z
}.

Definition new (g : WebGL) (d : DataPointsBuffer) : SeriesVertexArray :=
  mkSeries g d [] 0 0.

(** A loop body either leaves the loop or goes round again. *)
Inductive step (S : Type) : Type :=
| Break (s : S)
| Continue (s : S).
Arguments Break {S} s.
Arguments Continue {S} s.

Definition inspect {A : Type} (a : A) : {b : A | a = b} := exist _ a eq_refl.

(** The [while] loop of [popFront], given [segments] and [validStart]. *)
Fixpoint popFront_loop (segs : list texture) (vStart : Z) (g : WebGL)
  : completion (list texture * Z * WebGL) :=
  if BUFFER_INTERVAL_CAPACITY <? vStart then
    match segs with
    | [] => Throws TypeError                       (* activeArray.delete() *)
    | activeArray :: rest =>
        popFront_loop rest (vStart - BUFFER_INTERVAL_CAPACITY)
                      (g ++ [deleteTexture activeArray])
    end
  else Returns (segs, vStart, g).

Definition popFront (a : SeriesVertexArray) : completion SeriesVertexArray :=
  if poped_front (data a) =? 0 then Returns a else
  match popFront_loop (segments a) (validStart a + poped_front (data a)) (gl a) with
  | Throws e => Throws e
  | Returns (segs, vStart, g) =>
      match segs with
      | [] => Throws TypeError
      | first :: _ =>
          match syncPoints first (items (data a)) 0 0 vStart g with
          | Throws e => Throws e
          | Returns g' => Returns (mkSeries g' (data a) segs vStart (validEnd a))
          end
      end
  end.

(** The [while] loop of [popBack]; the chain is given last segment first. *)
Fixpoint popBack_loop (lastFirst : list texture) (vEnd : Z) (g : WebGL)
  : completion (list texture * Z * WebGL) :=
  if vEnd <? BUFFER_POINT_CAPACITY - BUFFER_INTERVAL_CAPACITY then
    match lastFirst with
    | [] => Throws TypeError
    | activeArray :: rest =>
        popBack_loop rest (vEnd + BUFFER_INTERVAL_CAPACITY)
                     (g ++ [deleteTexture activeArray])
    end
  else Returns (lastFirst, vEnd, g).

Definition popBack (a : SeriesVertexArray) : completion SeriesVertexArray :=
  if poped_back (data a) =? 0 then Returns a else
  match popBack_loop (rev (segments a)) (validEnd a - poped_back (data a)) (gl a) with
  | Throws e => Throws e
  | Returns (lastFirst, vEnd, g) =>
      match lastFirst with
      | [] => Throws TypeError
      | last :: _ =>
          match syncPoints last (items (data a)) (length (data a)) 0 vEnd g with
          | Throws e => Throws e
          | Returns g' =>
              Returns (mkSeries g' (data a) (rev lastFirst) (validStart a) vEnd)
          end
      end
  end.

(** [this.newArray()]: a new segment on a fresh texture. *)
Definition newArray (g : WebGL) : texture * WebGL :=
  let t := List.length g in (t, g ++ [createTexture t]).

(** One round of the [while (true)] loop of [pushFront]. *)
Definition pushFront_body (st : SeriesVertexArray * Z)
  : completion (step (SeriesVertexArray * Z)) :=
  let '(a, numDPtoAdd) := st in
  match segments a with
  | [] => Throws TypeError
  | activeArray :: _ =>
      let n := Z.min (validStart a) numDPtoAdd in
      match syncPoints activeArray (items (data a)) (numDPtoAdd - n) n
                       (validStart a - n) (gl a) with
      | Throws e => Throws e
      | Returns g =>
          let numDPtoAdd :=
            numDPtoAdd - (validStart a
                          - (BUFFER_POINT_CAPACITY - BUFFER_INTERVAL_CAPACITY)) in
          let vStart := validStart a - n in
          if 0 <? vStart then
            Returns (Break (mkSeries g (data a) (segments a) vStart (validEnd a),
                            numDPtoAdd))
          else
            let '(t, g) := newArray g in
            Returns (Continue (mkSeries g (data a) (t :: segments a)
                                        BUFFER_POINT_CAPACITY (validEnd a),
                               numDPtoAdd))
      end
  end.

Definition pushFront_measure (st : SeriesVertexArray * Z) : nat :=
  Z.to_nat (snd st - validStart (fst st) + 1).

Equations? pushFront_loop (st : SeriesVertexArray * Z)
  : completion SeriesVertexArray by wf (pushFront_measure st) lt :=
  pushFront_loop st with inspect (pushFront_body st) => {
    | exist _ (Throws e) _ => Throws e
    | exist _ (Returns (Break st')) _ => Returns (fst st')
    | exist _ (Returns (Continue st')) E => pushFront_loop st' }.
Proof.
  unfold pushFront_measure.
  destruct (segments _); [discriminate|].
  destruct (syncPoints _ _ _ _ _ _); [|discriminate].
  match type of E with context [0 <? ?v] => destruct (Z.ltb_spec 0 v) end;
    [discriminate|].
  injection E as <- <-. cbn [fst snd validStart]. capacities. lia.
Qed.

Definition pushFront (a : SeriesVertexArray) : completion SeriesVertexArray :=
  let numDPtoAdd := pushed_front (data a) in
  if numDPtoAdd =? 0 then Returns a else
  let a :=
    match segments a with
    | [] =>
        let '(t, g) := newArray (gl a) in
        mkSeries g (data a) [t] (BUFFER_POINT_CAPACITY - 1) (BUFFER_POINT_CAPACITY - 1)
    | _ => a
    end in
  pushFront_loop (a, numDPtoAdd).

(** One round of the [while (true)] loop of [pushBack]. *)
Definition pushBack_body (st : SeriesVertexArray * Z)
  : completion (step (SeriesVertexArray * Z)) :=
  let '(a, numDPtoAdd) := st in
  match rev (segments a) with
  | [] => Throws TypeError
  | activeArray :: _ =>
      let n := Z.min (BUFFER_POINT_CAPACITY - validEnd a) numDPtoAdd in
      match syncPoints activeArray (items (data a))
                       (length (data a) - numDPtoAdd) n (validEnd a) (gl a) with
      | Throws e => Throws e
      | Returns g =>
          let numDPtoAdd := numDPtoAdd - (BUFFER_INTERVAL_CAPACITY - validEnd a) in
          let vEnd := validEnd a + n in
          if vEnd <? BUFFER_POINT_CAPACITY then
            Returns (Break (mkSeries g (data a) (segments a) (validStart a) vEnd,
                            numDPtoAdd))
          else
            let '(t, g) := newArray g in
            Returns (Continue (mkSeries g (data a) (segments a ++ [t])
                                        (validStart a) 0,
                               numDPtoAdd))
      end
  end.

Definition pushBack_measure (st : SeriesVertexArray * Z) : nat :=
  Z.to_nat (snd st + validEnd (fst st)).

Equations? pushBack_loop (st : SeriesVertexArray * Z)
  : completion SeriesVertexArray by wf (pushBack_measure st) lt :=
  pushBack_loop st with inspect (pushBack_body st) => {
    | exist _ (Throws e) _ => Throws e
    | exist _ (Returns (Break st')) _ => Returns (fst st')
    | exist _ (Returns (Continue st')) E => pushBack_loop st' }.
Proof.
  unfold pushBack_measure.
  destruct (rev (segments _)); [discriminate|].
  destruct (syncPoints _ _ _ _ _ _); [|discriminate].
  match type of E with context [?v <? BUFFER_POINT_CAPACITY] =>
    destruct (Z.ltb_spec v BUFFER_POINT_CAPACITY) end; [discriminate|].
  injection E as <- <-. cbn [fst snd validEnd]. capacities. lia.
Qed.

Definition pushBack (a : SeriesVertexArray) : completion SeriesVertexArray :=
  let numDPtoAdd := pushed_back (data a) in
  if numDPtoAdd =? 0 then Returns a else
  let a :=
    match segments a with
    | [] =>
        let '(t, g) := newArray (gl a) in
        mkSeries g (data a) [t] 1 1
    | _ => a
    end in
  pushBack_loop (a, numDPtoAdd).

Definition deinit (a : SeriesVertexArray) : SeriesVertexArray :=
  mkSeries (gl a ++ map deleteTexture (segments a)) (data a) []
           (validStart a) (validEnd a).

Definition set_data (a : SeriesVertexArray) (d : DataPointsBuffer) :=
  mkSeries (gl a) d (segments a) (validStart a) (validEnd a).

(** Sequencing of the four steps of [syncBuffer]. *)
Definition andThen (r : completion SeriesVertexArray)
    (k : SeriesVertexArray -> completion SeriesVertexArray) :=
  match r with
  | Returns a => k a
  | Throws e => Throws e
  end.

Definition syncBuffer (a : SeriesVertexArray) : completion SeriesVertexArray :=
  let a :=
    if length (data a) - pushed_back (data a) - pushed_front (data a) <? 2 then
      let a := deinit a in
      set_data a (set_poped_back (set_poped_front (data a) 0) 0)
    else a in
  if len (segments a) =? 0 then
    if 2 <=? length (data a) then
      if pushed_front (data a) <? pushed_back (data a) then
        pushBack (set_data a (set_pushed_back (data a) (length (data a))))
      else
        pushFront (set_data a (set_pushed_front (data a) (length (data a))))
    else Returns a
  else
    andThen (andThen (andThen (popFront a) popBack) pushFront) pushBack.

(** The four counters of the series' buffer, as the chain sees them. *)
Definition counters (a : SeriesVertexArray) : Z * Z * Z * Z :=
  Buffer.counters (data a).

(** The interval index that [draw] computes for the last data point
    ([endInterval] for [lastDP = data.length - 1]) and the number of
    segments it then spans ([endArray]); a segment draws the intervals below
    [BUFFER_INTERVAL_CAPACITY] only. *)
Definition lastInterval (a : SeriesVertexArray) : Z :=
  (length (data a) - 1) + validStart a.
Definition segmentsSpanned (a : SeriesVertexArray) : Z :=
  ceil_div (lastInterval a) BUFFER_INTERVAL_CAPACITY.

(** [a'] comes from [a] by uploads and new segments only: the series'
    buffer is the same, no texture was deleted, and every segment of the
    chain that was not there before was created on the way. *)
Definition only_adds (a a' : SeriesVertexArray) : Prop :=
  data a' = data a /\
  exists calls,
    gl a' = gl a ++ calls /\
    (forall t, ~ In (deleteTexture t) calls) /\
    (forall t, In t (segments a') ->
               In t (segments a) \/ In (createTexture t) calls).

(** Whether texture [t] exists after the calls of a log: it was created and
    not deleted since. *)
Fixpoint live_latest (newestFirst : list glCall) (t : texture) : bool :=
  match newestFirst with
  | [] => false
  | createTexture t' :: older => Nat.eqb t' t || live_latest older t
  | deleteTexture t' :: older => negb (Nat.eqb t' t) && live_latest older t
  | texSubImage2D _ _ _ _ :: older => live_latest older t
  end.

Definition live (g : WebGL) (t : texture) : bool := live_latest (rev g) t.

(** A log that the context accepts without raising an error: a texture is
    created under the name of its position in the log, only an existing
    texture is deleted or written to, and an upload stays inside the
    [BUFFER_TEXTURE_WIDTH] x [BUFFER_TEXTURE_HEIGHT] image and brings as many
    cells as its rows hold. *)
Fixpoint accepted_latest (newestFirst : list glCall) : Prop :=
  match newestFirst with
  | [] => True
  | call :: older =>
      accepted_latest older /\
      match call with
      | createTexture t => t = List.length older
      | deleteTexture t => live_latest older t = true
      | texSubImage2D t yoffset height pixels =>
          live_latest older t = true /\
          0 <= yoffset /\ 0 <= height /\
          yoffset + height <= BUFFER_TEXTURE_HEIGHT /\
          len pixels = height * BUFFER_TEXTURE_WIDTH
      end
  end.

Definition accepted (g : WebGL) : Prop := accepted_latest (rev g).

(** The textures of a context that are not segments of the chain: those of
    the other series and of the other renderers. *)
Definition foreign (g : WebGL) (segs : list texture) (t : texture) : Prop :=
  live g t = true /\ ~ In t segs.

(** The context accepted the calls so far and the segments are distinct
    existing textures. *)
Definition owned (g : WebGL) (segs : list texture) : Prop :=
  accepted g /\ NoDup segs /\ forall t, In t segs -> live g t = true.

(** The number of points a chain of segments holds between [validStart] of
    its first segment and [validEnd] of its last one: consecutive segments
    overlap by two cells, so each segment before the last adds
    [BUFFER_INTERVAL_CAPACITY] positions. *)
Definition chain_len (a : SeriesVertexArray) : Z :=
  (len (segments a) - 1) * BUFFER_INTERVAL_CAPACITY + validEnd a - validStart a.

(** The segment that holds position [P] of the chain (counted in cells from
    cell 0 of the first segment) in its cell [c]; a position on a seam is
    held by two segments. *)
Definition holds (a : SeriesVertexArray) (P : Z) (t : texture) (c : Z) : Prop :=
  exists j, nth_error (segments a) j = Some t /\
            c = P - Z.of_nat j * BUFFER_INTERVAL_CAPACITY /\
            0 <= c < BUFFER_POINT_CAPACITY.

(** The state between two syncs that [syncBuffer] relies on: the buffer's
    counters are well-formed, the context accepted the calls so far, the
    segments are distinct existing textures, and a non-empty chain has its
    two ends in the ranges the comments of the class give and holds as many
    points as were synced when the counters were last cleared. *)
Definition chain_ok (a : SeriesVertexArray) : Prop :=
  wf (data a) /\
  owned (gl a) (segments a) /\
  (segments a <> [] ->
   0 < validStart a <= BUFFER_INTERVAL_CAPACITY /\
   2 <= validEnd a < BUFFER_POINT_CAPACITY /\
   chain_len a = synced_before (data a)).

(** Cell [c] of the [j]-th segment of a chain holds the data point of index
    [j * BUFFER_INTERVAL_CAPACITY + c - off], rounded, for the cells at the positions
    from [loP] up to [hiP] of the chain, leaving out the cells before [d1] of
    the first segment and the cells from [d2] on of the last one. *)
Definition filled (g : WebGL) (segs : list texture) (pts : list DataPoint)
    (off loP hiP d1 d2 : Z) : Prop :=
  forall j t c,
    nth_error segs j = Some t ->
    0 <= c < BUFFER_POINT_CAPACITY ->
    loP <= Z.of_nat j * BUFFER_INTERVAL_CAPACITY + c < hiP ->
    (j = 0%nat -> d1 <= c) ->
    (S j = List.length segs -> c < d2) ->
    texel g t c
    = option_map float32
        (at_index pts (Z.of_nat j * BUFFER_INTERVAL_CAPACITY + c - off)).

(** The chain mirrors the synced region of the buffer: the synced element
    of position [k] (counted from the start of the array at the last sync)
    that is still in the buffer is, rounded, in the cell of position
    [validStart + k], in every segment that holds that position. *)
Definition mirrors (a : SeriesVertexArray) : Prop :=
  forall k t c,
    poped_front (data a) <= k < synced_before (data a) - poped_back (data a) ->
    holds a (validStart a + k) t c ->
    texel (gl a) t c = option_map float32 (synced_at (data a) k).

(** The producer or the render model runs a method on the series' buffer,
    which the chain shares. *)
Definition mutate {A : Type} (m : Buffer.M A) (a : SeriesVertexArray)
  : SeriesVertexArray :=
  set_data a (snd (m (data a))).

(** One frame of the chart for one series: the producer has run
    operations on the series' buffer, then [RenderModel.update] has its
    listeners draw, which syncs the chain, and marks the buffer as synced.
    An operation that throws ends the run. *)
Definition frame (ops : list operation) (a : SeriesVertexArray)
  : completion SeriesVertexArray :=
  match runs ops (data a) with
  | (Throws e, _) => Throws e
  | (Returns _, d) =>
      andThen (syncBuffer (set_data a d))
              (fun a' => Returns (mutate _synced a'))
  end.

Fixpoint frames (cycles : list (list operation)) (a : SeriesVertexArray)
  : completion SeriesVertexArray :=
  match cycles with
  | [] => Returns a
  | ops :: rest => andThen (frame ops a) (frames rest)
  end.

(** The state in which a frame leaves the chain: the counters are zero and
    the chain holds exactly the points of the array. *)
Definition in_sync (a : SeriesVertexArray) : Prop :=
  chain_ok a /\ counters a = (0, 0, 0, 0) /\
  (length (data a) < 2 -> segments a = []) /\
  (2 <= length (data a) ->
   segments a <> [] /\ chain_len a = length (data a)).

(** The exceptions that [splice] throws on a well-formed buffer. *)
Definition thrown_by_splice (e : exn) : bool :=
  match e with
  | RangeError_delete | RangeError_insert | Error_BUG_length => true
  | _ => false
  end.

End Chain.

Arguments syncPoints : simpl never.
Opaque syncPoints.

(** *** Drawing *)

(** [LineType] of the options: the four values that [draw] tells apart. *)
Inductive LineType : Type := Line | Step | NativeLine | NativePoint.

Inductive drawMode : Type := TRIANGLE_STRIP | LINE_STRIP | POINTS.

(** [gl.drawArrays(mode, first, count)], with the texture that is bound to
    [TEXTURE0] at the time of the call. *)
Record drawArrays : Type := mkDrawArrays {
  bound : texture;
  mode : drawMode;
  firstVertex : Z;
  vertexCount : Z
}.

Module Segment.

(** [SeriesSegmentVertexArray.draw(renderInterval, type)]: the call it
    makes on the context. *)
Definition draw (t : texture) (start end_ : Z) (type : LineType) : drawArrays :=
  let first := Z.max 0 start in
  let last := Z.min BUFFER_INTERVAL_CAPACITY end_ in
  let count := last - first in
  match type with
  | Line =>
      mkDrawArrays t TRIANGLE_STRIP (first * 4)
                   (count * 4 + (if last =? end_ then 0 else 2))
  | Step =>
      let firstP := first * 4 in
      let countP := count * 4 + 2 in
      if first =? start
      then mkDrawArrays t TRIANGLE_STRIP (firstP - 2) (countP + 2)
      else mkDrawArrays t TRIANGLE_STRIP firstP countP
  | NativeLine => mkDrawArrays t LINE_STRIP first (count + 1)
  | NativePoint => mkDrawArrays t POINTS first (count + 1)
  end.

End Segment.

(** [dataPoint(index)] of the vertex shaders ([VS_HEADER]): the texel in
    column [index % TEX_WIDTH] of row [index / TEX_WIDTH]. *)
Definition dataPoint (g : WebGL) (t : texture) (index : Z) : option DataPoint :=
  let x := Z.rem index BUFFER_TEXTURE_WIDTH in
  let y := Z.quot index BUFFER_TEXTURE_WIDTH in
  texel g t (y * BUFFER_TEXTURE_WIDTH + x).

(** The indexes that the vertex shader passes to [dataPoint] for one
    vertex.  [drawFrame] runs NativeLineProgram for the two native line
    types, which fetches the point of the vertex, and LineProgram for the
    other two, which fetches the two ends of interval [gl_VertexID >> 2]. *)
Definition fetched (type : LineType) (gl_VertexID : Z) : list Z :=
  match type with
  | NativeLine | NativePoint => [gl_VertexID]
  | Line | Step => let index := Z.shiftr gl_VertexID 2 in [index; index + 1]
  end.

Section Draw.

(** [domainSearch(data, start, end, value, key)] of [../utils], which is
    not among the sources at hand. *)
Variable domainSearch : list DataPoint -> Z -> Z -> Z -> (DataPoint -> Z) -> Z.

(** The [for] loop of [SeriesVertexArray.draw] over the segment indexes
    [indexes]; [calls] are the calls made so far. *)
Fixpoint draw_loop (segs : list texture) (type : LineType)
    (startInterval endInterval : Z) (indexes : list Z)
    (calls : list drawArrays)
  : completion unit * list drawArrays :=
  match indexes with
  | [] => (Returns tt, calls)
  | i :: rest =>
      let arrOffset := i * BUFFER_INTERVAL_CAPACITY in
      match at_index segs i with
      | None => (Throws TypeError, calls)
      | Some s =>
          draw_loop segs type startInterval endInterval rest
                    (calls ++ [Segment.draw s (startInterval - arrOffset)
                                            (endInterval - arrOffset) type])
      end
  end.

(** [SeriesVertexArray.draw(renderDomain)] for a series of line type
    [type]: the outcome and the [drawArrays] calls made. *)
Definition draw (a : SeriesVertexArray) (type : LineType)
    (renderDomain_min renderDomain_max : Z)
  : completion unit * list drawArrays :=
  let d := items (data a) in
  if len (segments a) =? 0 then (Returns tt, []) else
  match at_index d 0 with
  | None => (Throws TypeError, [])
  | Some d0 =>
      if renderDomain_max <? x d0 then (Returns tt, []) else
      match at_index d (len d - 1) with
      | None => (Throws TypeError, [])
      | Some dl =>
          if x dl <? renderDomain_min then (Returns tt, []) else
          let firstDP := domainSearch d 1 (len d) renderDomain_min x - 1 in
          let lastDP := domainSearch d firstDP (len d - 1) renderDomain_max x in
          let startInterval := firstDP + validStart a in
          let endInterval := lastDP + validStart a in
          let startArray := floor_div startInterval BUFFER_INTERVAL_CAPACITY in
          let endArray := ceil_div endInterval BUFFER_INTERVAL_CAPACITY in
          draw_loop (segments a) type startInterval endInterval
                    (Zrange startArray (Z.to_nat (endArray - startArray))) []
      end
  end.

End Draw.

(** *** Example data *)

(** Ten distinct points. *)
Definition ten : list DataPoint :=
  map (fun k => mkDataPoint k (k * k)) (Zrange 0 10).

(** Three points with coordinates above 2^24, which single precision
    does not hold exactly. *)
Definition wide : list DataPoint :=
  [mkDataPoint 16777217 0; mkDataPoint 16777218 33554433; mkDataPoint 16777219 1].

(** [CAP - 2] copies of one point. *)
Definition full_segment : list DataPoint :=
  repeat (mkDataPoint 0 0) (Z.to_nat BUFFER_INTERVAL_CAPACITY).

(** A chain synced with three points whose owner then cleared the counters
    and shifted two points away: one synced point is left and
    [poped_front] is 2. *)
Definition drained : SeriesVertexArray :=
  match syncBuffer (F := integers)
          (mutate (push [mkDataPoint 0 0; mkDataPoint 1 10; mkDataPoint 2 5])
                  (new [] (Buffer.new []))) with
  | Returns a => mutate (times 2 shift) (mutate _synced a)
  | Throws _ => new [] (Buffer.new [])
  end.

End LineChart.

(** ** VolumeBarRenderer *)

Module VolumeBar.

Definition BUFFER_TEXTURE_WIDTH : Z := 256.
Definition BUFFER_TEXTURE_HEIGHT : Z := 2048.

Section Numbers.

(** The JavaScript numbers with the operations that the class applies to
    them, and the rounding of a number that is stored in a [Float32Array]. *)
Variable number : Type.
Variable of_int : Z -> number.                      (* the literals 0, 1000 *)
Variable strict_equal : number -> number -> bool.   (* a === b *)
Variable greater : number -> number -> bool.        (* a > b *)
Variable minus plus : number -> number -> number.
Variable fround : number -> number.

(** [volumeData] is a [Float32Array] of a fixed length, given by its
    elements; [dataBuffer] stands for the floats of the texture, as last
    uploaded. *)
Record VolumeBarRenderer : Type := mkVolumeBar {
  volumeData : Z -> number;
  dataBuffer : Z -> number;
  lastUpdateTime : number;
  aggregationPeriod : number;
  numberOfBars : Z;
  currentBarIndex : Z
}.

(** The number of elements of [volumeData]. *)
Definition elements : Z := BUFFER_TEXTURE_WIDTH * BUFFER_TEXTURE_HEIGHT * 2.

(** [array[i]]: [undefined] outside the array. *)
Definition element (array : Z -> number) (i : Z) : option number :=
  if (0 <=? i) && (i <? elements) then Some (array i) else None.

(** [array[i] = value]: the value is rounded; outside the array nothing is
    stored. *)
Definition store (array : Z -> number) (i : Z) (value : number) : Z -> number :=
  fun k => if (k =? i) && (0 <=? i) && (i <? elements) then fround value
           else array k.

(** The constructor: the array is zero-filled and uploaded. *)
Definition new : VolumeBarRenderer :=
  mkVolumeBar (fun _ => of_int 0) (fun _ => of_int 0) (of_int 0) (of_int 1000) 0 0.

Definition addNewBar (timestamp volume : number) (r : VolumeBarRenderer)
  : VolumeBarRenderer :=
  let index := currentBarIndex r * 2 in
  let data := store (store (volumeData r) index timestamp) (index + 1) volume in
  mkVolumeBar data data timestamp (aggregationPeriod r)
    (Z.min (numberOfBars r + 1) (BUFFER_TEXTURE_WIDTH * BUFFER_TEXTURE_HEIGHT))
    (Z.rem (currentBarIndex r + 1) (BUFFER_TEXTURE_WIDTH * BUFFER_TEXTURE_HEIGHT)).

Definition updateCurrentBar (volume : number) (r : VolumeBarRenderer)
  : VolumeBarRenderer :=
  let index :=
    Z.rem (currentBarIndex r - 1 + BUFFER_TEXTURE_WIDTH * BUFFER_TEXTURE_HEIGHT)
          (BUFFER_TEXTURE_WIDTH * BUFFER_TEXTURE_HEIGHT) * 2 in
  let data :=
    match element (volumeData r) (index + 1) with
    | Some old => store (volumeData r) (index + 1) (plus old volume)
    | None => volumeData r       (* [undefined + volume] is stored nowhere *)
    end in
  mkVolumeBar data data (lastUpdateTime r) (aggregationPeriod r)
              (numberOfBars r) (currentBarIndex r).

Definition addVolumeData (timestamp volume : number) (r : VolumeBarRenderer)
  : VolumeBarRenderer :=
  if strict_equal (lastUpdateTime r) (of_int 0)
     || greater (minus timestamp (lastUpdateTime r)) (aggregationPeriod r)
  then addNewBar timestamp volume r
  else updateCurrentBar volume r.

(** [draw()]: the [first] and [count] of its [drawArrays] call. *)
Definition draw (r : VolumeBarRenderer) : Z * Z := (0, numberOfBars r * 6).

(** [dataPoint(index)] of the vertex shader, on the texture as uploaded:
    the two floats of the texel in column [index % TEX_WIDTH] of row
    [index / TEX_WIDTH], when the texture has such a texel. *)
Definition dataPoint (r : VolumeBarRenderer) (index : Z) : option (number * number) :=
  let x := Z.rem index BUFFER_TEXTURE_WIDTH in
  let y := Z.quot index BUFFER_TEXTURE_WIDTH in
  if (0 <=? x) && (0 <=? y) && (y <? BUFFER_TEXTURE_HEIGHT) then
    let texel := y * BUFFER_TEXTURE_WIDTH + x in
    Some (dataBuffer r (texel * 2), dataBuffer r (texel * 2 + 1))
  else None.

(** [barIndex] of the vertex shader. *)
Definition barIndex (gl_VertexID : Z) : Z := Z.quot gl_VertexID 6.

(** A sequence of [addVolumeData(timestamp, volume)] calls. *)
Definition feed (calls : list (number * number)) (r : VolumeBarRenderer)
  : VolumeBarRenderer :=
  fold_left (fun r call => addVolumeData (fst call) (snd call) r) calls r.

(** The state of the ring of bars between two calls: [currentBarIndex] is
    an index of the ring, [numberOfBars] counts the bars up to the capacity
    of the ring and equals [currentBarIndex] until the ring is full, the
    texture holds what the array holds, and [lastUpdateTime] is still the
    initial 0 when there is no bar. *)
Definition ring_ok (r : VolumeBarRenderer) : Prop :=
  0 <= currentBarIndex r < BUFFER_TEXTURE_WIDTH * BUFFER_TEXTURE_HEIGHT /\
  0 <= numberOfBars r <= BUFFER_TEXTURE_WIDTH * BUFFER_TEXTURE_HEIGHT /\
  (numberOfBars r < BUFFER_TEXTURE_WIDTH * BUFFER_TEXTURE_HEIGHT ->
   currentBarIndex r = numberOfBars r) /\
  dataBuffer r = volumeData r /\
  (numberOfBars r = 0 -> lastUpdateTime r = of_int 0).

End Numbers.

End VolumeBar.

(** ** RenderModel: scheduling of updates *)

Module Redraw.

(** The fields of a [RenderModel] that [requestRedraw] and [dispose] use,
    with the browser's list of animation-frame callbacks: every callback
    that the model registers is the same closure, so that their number is
    kept.  [updates] counts the calls of [update()] and [disposals] the
    dispatches of [disposing]. *)
Record RenderModel : Type := mkScheduling {
  redrawRequested : bool;
  aborted : bool;                 (* abortController.signal.aborted *)
  animationFrameCallbacks : nat;
  updates : nat;
  disposals : nat
}.

Definition new : RenderModel := mkScheduling false false 0 0 0.

Definition requestRedraw (m : RenderModel) : RenderModel :=
  if redrawRequested m then m else
  mkScheduling true (aborted m) (S (animationFrameCallbacks m)) (updates m)
               (disposals m).

(** [update()], as far as scheduling goes: a listener of [updated] may
    request a redraw. *)
Definition update (listener_redraws : bool) (m : RenderModel) : RenderModel :=
  let m := mkScheduling (redrawRequested m) (aborted m)
                        (animationFrameCallbacks m) (S (updates m)) (disposals m) in
  if listener_redraws then requestRedraw m else m.

(** The callback that [requestRedraw] passes to [requestAnimationFrame]. *)
Definition callback (listener_redraws : bool) (m : RenderModel) : RenderModel :=
  let m := mkScheduling false (aborted m) (animationFrameCallbacks m)
                        (updates m) (disposals m) in
  if negb (aborted m) then update listener_redraws m else m.

Definition dispose (m : RenderModel) : RenderModel :=
  if negb (aborted m)
  then mkScheduling (redrawRequested m) true (animationFrameCallbacks m)
                    (updates m) (S (disposals m))
  else m.

(** [resize(width, height)], as far as scheduling goes. *)
Definition resize (m : RenderModel) : RenderModel := requestRedraw m.

(** The browser runs the callbacks that were registered before the frame;
    one registered by a callback waits for the next frame. *)
Fixpoint run_callbacks (n : nat) (listener_redraws : bool) (m : RenderModel)
  : RenderModel :=
  match n with
  | O => m
  | S n' => run_callbacks n' listener_redraws (callback listener_redraws m)
  end.

Definition animationFrame (listener_redraws : bool) (m : RenderModel)
  : RenderModel :=
  run_callbacks (animationFrameCallbacks m) listener_redraws
    (mkScheduling (redrawRequested m) (aborted m) 0 (updates m) (disposals m)).

Inductive event : Type :=
| RequestRedraw
| Resize
| Dispose
| AnimationFrame (listener_redraws : bool).

Definition step (m : RenderModel) (ev : event) : RenderModel :=
  match ev with
  | RequestRedraw => requestRedraw m
  | Resize => resize m
  | Dispose => dispose m
  | AnimationFrame b => animationFrame b m
  end.

Definition run (evs : list event) (m : RenderModel) : RenderModel :=
  fold_left step evs m.

Definition frames_in (evs : list event) : nat :=
  List.length (filter (fun ev => match ev with AnimationFrame _ => true
                                           | _ => false end) evs).

End Redraw.

(** * Properties *)

(** ** Lists and lengths *)

Lemma len_nonneg {A : Type} (l : list A) : 0 <= len l.
Proof. unfold len. lia. Qed.

Lemma len_nil (A : Type) : len (@nil A) = 0.
Proof. reflexivity. Qed.

Lemma len_app {A : Type} (l1 l2 : list A) : len (l1 ++ l2) = len l1 + len l2.
Proof. unfold len. rewrite length_app. lia. Qed.

Lemma len_cons {A : Type} (a : A) (l : list A) : len (a :: l) = 1 + len l.
Proof. unfold len. cbn [List.length]. lia. Qed.

Lemma len_rev {A : Type} (l : list A) : len (rev l) = len l.
Proof. unfold len. now rewrite length_rev. Qed.

Lemma len_firstn {A : Type} (l : list A) (k : Z) :
  0 <= k <= len l -> len (firstn (Z.to_nat k) l) = k.
Proof. unfold len. intros. rewrite firstn_length_le; lia. Qed.

Lemma len_skipn {A : Type} (l : list A) (k : Z) :
  0 <= k <= len l -> len (skipn (Z.to_nat k) l) = len l - k.
Proof. unfold len. intros. rewrite length_skipn. lia. Qed.

Lemma firstn_all_but_last {A : Type} (l front : list A) (a : A)
    (H : rev l = a :: front) :
  firstn (Z.to_nat (len l - 1)) l = rev front.
Proof.
  apply (f_equal (@rev A)) in H. rewrite rev_involutive in H. subst l.
  cbn [rev]. rewrite len_app, len_cons, len_nil.
  replace (len (rev front) + (1 + 0) - 1) with (len (rev front)) by lia.
  unfold len. rewrite Nat2Z.id, firstn_app, Nat.sub_diag, firstn_all.
  cbn. now rewrite app_nil_r.
Qed.

Lemma array_splice_delete {A : Type} (arr : list A) (start dc : Z) :
  0 <= start -> 0 <= dc -> start + dc <= len arr ->
  array_splice start dc [] arr =
  (firstn (Z.to_nat dc) (skipn (Z.to_nat start) arr),
   firstn (Z.to_nat start) arr ++ skipn (Z.to_nat (start + dc)) arr).
Proof.
  intros. unfold array_splice.
  destruct (Z.ltb_spec start 0); [lia|].
  rewrite (Z.min_l start) by lia. rewrite (Z.max_l dc) by lia.
  rewrite (Z.min_l dc) by lia. reflexivity.
Qed.

(** *** Reading an array by index *)

Lemma at_index_negative {A : Type} (l : list A) (i : Z) :
  i < 0 -> at_index l i = None.
Proof. intros H. unfold at_index. destruct (Z.ltb_spec i 0); [reflexivity | lia]. Qed.

Lemma at_index_beyond {A : Type} (l : list A) (i : Z) :
  len l <= i -> at_index l i = None.
Proof.
  intros H. unfold at_index. pose proof (len_nonneg l).
  destruct (Z.ltb_spec i 0); [lia|].
  apply nth_error_None. unfold len in H. lia.
Qed.

Lemma at_index_inside {A : Type} (l : list A) (i : Z) :
  0 <= i < len l -> exists a, at_index l i = Some a.
Proof.
  intros H. unfold at_index. destruct (Z.ltb_spec i 0); [lia|].
  destruct (nth_error l (Z.to_nat i)) as [a|] eqn:E; [now exists a|].
  apply nth_error_None in E. unfold len in H. lia.
Qed.

Lemma at_index_app {A : Type} (l1 l2 : list A) (i : Z) :
  at_index (l1 ++ l2) i =
  if i <? len l1 then at_index l1 i else at_index l2 (i - len l1).
Proof.
  pose proof (len_nonneg l1) as H1. unfold at_index.
  destruct (Z.ltb_spec i 0).
  - destruct (Z.ltb_spec i (len l1)); [reflexivity | lia].
  - destruct (Z.ltb_spec i (len l1)).
    + apply nth_error_app1. unfold len in *. lia.
    + destruct (Z.ltb_spec (i - len l1) 0); [lia|].
      rewrite nth_error_app2 by (unfold len in *; lia).
      f_equal. unfold len. lia.
Qed.

Lemma at_index_cons {A : Type} (a : A) (l : list A) (i : Z) :
  at_index (a :: l) i = if i =? 0 then Some a else at_index l (i - 1).
Proof.
  unfold at_index. destruct (Z.eqb_spec i 0) as [->|Hi]; [reflexivity|].
  destruct (Z.ltb_spec i 0), (Z.ltb_spec (i - 1) 0); try lia; [reflexivity|].
  replace (Z.to_nat i) with (S (Z.to_nat (i - 1))) by lia. reflexivity.
Qed.

Lemma at_index_firstn {A : Type} (l : list A) (k i : Z) :
  at_index (firstn (Z.to_nat k) l) i = if i <? k then at_index l i else None.
Proof.
  unfold at_index. destruct (Z.ltb_spec i 0).
  - destruct (i <? k); reflexivity.
  - rewrite nth_error_firstn.
    destruct (Nat.ltb_spec (Z.to_nat i) (Z.to_nat k)), (Z.ltb_spec i k);
      try reflexivity; lia.
Qed.

Lemma at_index_skipn {A : Type} (l : list A) (k i : Z) :
  0 <= k -> 0 <= i -> at_index (skipn (Z.to_nat k) l) i = at_index l (k + i).
Proof.
  intros Hk Hi. unfold at_index.
  destruct (Z.ltb_spec i 0), (Z.ltb_spec (k + i) 0); try lia.
  rewrite nth_error_skipn. f_equal. lia.
Qed.

(** [Array.prototype.splice] with a start inside the array, and with a
    start past its end: there nothing is deleted and the items go to the
    end. *)
Lemma array_splice_spec {A : Type} (arr its : list A) (s dc : Z) :
  0 <= s -> dc <= len arr - s -> (s <= len arr -> 0 <= dc) ->
  (s <= len arr ->
   fst (array_splice s dc its arr) = firstn (Z.to_nat dc) (skipn (Z.to_nat s) arr) /\
   len (snd (array_splice s dc its arr)) = len arr - dc + len its /\
   forall i, at_index (snd (array_splice s dc its arr)) i =
             if i <? s then at_index arr i
             else if i <? s + len its then at_index its (i - s)
             else at_index arr (i - len its + dc)) /\
  (len arr < s ->
   fst (array_splice s dc its arr) = [] /\
   snd (array_splice s dc its arr) = arr ++ its).
Proof.
  intros Hs Hdc Hpos. pose proof (len_nonneg arr) as Harr.
  pose proof (len_nonneg its) as Hits. unfold array_splice.
  destruct (Z.ltb_spec s 0); [lia|]. cbn [fst snd]. split.
  - intros Hin. specialize (Hpos Hin).
    rewrite (Z.min_l s) by lia. rewrite (Z.max_l dc) by lia.
    rewrite (Z.min_l dc) by lia.
    split; [reflexivity|]. split.
    + rewrite !len_app, len_firstn, len_skipn by lia. lia.
    + intros i. rewrite at_index_app, len_firstn, at_index_firstn by lia.
      destruct (Z.ltb_spec i s); [reflexivity|].
      rewrite at_index_app.
      destruct (Z.ltb_spec (i - s) (len its)), (Z.ltb_spec i (s + len its));
        try lia; [reflexivity|].
      rewrite at_index_skipn by lia. f_equal. lia.
  - intros Hout.
    rewrite (Z.min_r s) by lia. rewrite (Z.min_r (Z.max dc 0)) by lia.
    replace (Z.to_nat (len arr - len arr)) with 0%nat by lia.
    replace (Z.to_nat (len arr + (len arr - len arr))) with (List.length arr)
      by (unfold len; lia).
    replace (Z.to_nat (len arr)) with (List.length arr) by (unfold len; lia).
    rewrite firstn_all, skipn_all, app_nil_r. split; reflexivity.
Qed.

Lemma array_splice_inside {A : Type} (arr its : list A) (s dc : Z) :
  0 <= s <= len arr -> 0 <= dc <= len arr - s ->
  array_splice s dc its arr =
  (firstn (Z.to_nat dc) (skipn (Z.to_nat s) arr),
   firstn (Z.to_nat s) arr ++ its ++ skipn (Z.to_nat (s + dc)) arr).
Proof.
  intros Hs Hdc. unfold array_splice.
  destruct (Z.ltb_spec s 0); [lia|].
  rewrite (Z.min_l s) by lia. rewrite (Z.max_l dc) by lia.
  rewrite (Z.min_l dc) by lia. reflexivity.
Qed.

Lemma array_splice_last {A : Type} (arr front : list A) (a : A) :
  rev arr = a :: front ->
  array_splice (len arr - 1) 1 [] arr = ([a], rev front).
Proof.
  intros Hrev.
  assert (Harr : arr = rev front ++ [a]).
  { rewrite <- (rev_involutive arr), Hrev. reflexivity. }
  pose proof (len_nonneg (rev front)) as Hf.
  assert (Hlen : len arr = len (rev front) + 1).
  { rewrite Harr, len_app, len_cons, len_nil. lia. }
  rewrite array_splice_inside by lia.
  rewrite (firstn_all_but_last arr Hrev).
  replace (Z.to_nat (len arr - 1)) with (List.length (rev front) + 0)%nat
    by (unfold len in *; lia).
  replace (Z.to_nat (len arr - 1 + 1)) with (List.length arr)
    by (unfold len in *; lia).
  rewrite skipn_all, app_nil_r. rewrite Harr at 1.
  rewrite skipn_app, Nat.add_0_r, skipn_all. 
  replace (List.length (rev front) - List.length (rev front))%nat with 0%nat by lia.
  reflexivity.
Qed.

Lemma array_splice_insert {A : Type} (arr its : list A) (s : Z) :
  0 <= s <= len arr ->
  array_splice s 0 its arr =
  ([], firstn (Z.to_nat s) arr ++ its ++ skipn (Z.to_nat s) arr).
Proof.
  intros Hs. unfold array_splice.
  destruct (Z.ltb_spec s 0); [lia|].
  rewrite (Z.min_l s) by lia.
  replace (Z.min (Z.max 0 0) (len arr - s)) with 0 by lia.
  rewrite Z.add_0_r. reflexivity.
Qed.

(** Case analysis on the integer tests of a method body; the branches the
    hypotheses exclude are closed on the way. *)
Ltac prune := try (exfalso; lia).

Ltac reduce :=
  cbn [fst snd andb orb negb Buffer.items Buffer.pushed_back
       Buffer.pushed_front Buffer.poped_back Buffer.poped_front
       Buffer.set_items Buffer.set_pushed_back Buffer.set_pushed_front
       Buffer.set_poped_back Buffer.set_poped_front] in *.

Ltac run_tests :=
  repeat (reduce;
    match goal with
    | |- context [?a <? ?b] => destruct (Z.ltb_spec a b); prune
    | |- context [?a <=? ?b] => destruct (Z.leb_spec a b); prune
    | |- context [?a =? ?b] => destruct (Z.eqb_spec a b); prune
    | H : context [?a <? ?b] |- _ => destruct (Z.ltb_spec a b); prune
    | H : context [?a <=? ?b] |- _ => destruct (Z.leb_spec a b); prune
    | H : context [?a =? ?b] |- _ => destruct (Z.eqb_spec a b); prune
    end); reduce.

(** ** The change-tracking buffer *)

Section BufferProperties.

Import Buffer.
Local Open Scope buffer_scope.

Ltac buffer_fields :=
  unfold set_items, set_pushed_back, set_pushed_front, set_poped_back,
    set_poped_front in *;
  cbn [items pushed_back pushed_front poped_back poped_front] in *.

Ltac buffer_eq :=
  repeat match goal with
  | |- (_, _) = (_, _) => f_equal
  | |- mkBuffer _ _ _ _ _ = mkBuffer _ _ _ _ _ => f_equal
  end; rewrite ?len_nil; try reflexivity; try lia.

Ltac open_methods :=
  unfold splice, updateDelete, updateInsert, push, unshift, pop, shift,
    bind, this, assign, ret, throw, length in *;
  buffer_fields; rewrite ?len_nil in *.

Lemma length_nonneg b : 0 <= length b.
Proof. apply len_nonneg. Qed.

Lemma times_S {A : Type} (k : nat) (m : M A) (b : DataPointsBuffer) :
  times (S k) m b =
  match m b with
  | (Returns _, b1) => times k m b1
  | (Throws e, b1) => (Throws e, b1)
  end.
Proof. reflexivity. Qed.

(** *** One pop, one shift *)

Lemma pop_nonempty b :
  0 < length b -> exists r, pop b = (Returns (Some r), popped b).
Proof.
  destruct b as [arr pb pf qb qf]. unfold popped. open_methods. intros Hlen.
  destruct (rev arr) as [|r front] eqn:Hrev.
  - apply (f_equal (@len _)) in Hrev. rewrite len_rev, len_nil in Hrev. lia.
  - exists r. rewrite (firstn_all_but_last arr Hrev).
    run_tests; reflexivity.
Qed.

Lemma shift_nonempty b :
  0 < length b -> exists r, shift b = (Returns (Some r), shifted b).
Proof.
  destruct b as [arr pb pf qb qf]. unfold shifted. open_methods. intros Hlen.
  destruct arr as [|r rest]; [rewrite len_nil in Hlen; lia|].
  exists r. cbn [skipn]. run_tests; reflexivity.
Qed.

Lemma popped_items b :
  items (popped b) = firstn (Z.to_nat (length b - 1)) (items b).
Proof. unfold popped. run_tests; reflexivity. Qed.

Lemma shifted_items b : items (shifted b) = skipn 1 (items b).
Proof. unfold shifted. run_tests; reflexivity. Qed.

Lemma popped_length b : 0 < length b -> length (popped b) = length b - 1.
Proof.
  intros. unfold length at 1. rewrite popped_items.
  apply len_firstn. unfold length in *. lia.
Qed.

Lemma shifted_length b : 0 < length b -> length (shifted b) = length b - 1.
Proof.
  intros. unfold length at 1. rewrite shifted_items.
  unfold len. rewrite length_skipn. unfold length, len in *. lia.
Qed.

(** *** Runs of pops and shifts *)

(** [k] pops that stay clear of the front region: first the unsynced back
    elements go, then synced ones. *)
Lemma pops_back k : forall b,
  0 <= pushed_front b ->
  Z.of_nat k <= length b - pushed_front b ->
  0 <= pushed_back b <= length b ->
  times k pop b =
  (Returns tt,
   mkBuffer (firstn (Z.to_nat (length b - Z.of_nat k)) (items b))
            (Z.max 0 (pushed_back b - Z.of_nat k)) (pushed_front b)
            (poped_back b + Z.max 0 (Z.of_nat k - pushed_back b))
            (poped_front b)).
Proof.
  induction k as [|k IH]; intros b Hf Hk Hpb.
  - cbn [times]. unfold ret. destruct b as [arr pb pf qb qf].
    unfold length in *. buffer_fields.
    replace (len arr - Z.of_nat 0) with (len arr) by lia.
    unfold len. rewrite Nat2Z.id, firstn_all. buffer_eq.
  - destruct (pop_nonempty b) as [r Hr]; [lia|].
    rewrite times_S, Hr.
    pose proof (popped_length b ltac:(lia)) as Hlen.
    assert (Hpf : pushed_front (popped b) = pushed_front b).
    { unfold popped. run_tests; reflexivity. }
    rewrite IH; [| lia | lia |].
    + rewrite Hlen, Hpf, popped_items, firstn_firstn.
      replace (Init.Nat.min (Z.to_nat (length b - 1 - Z.of_nat k))
                            (Z.to_nat (length b - 1)))
        with (Z.to_nat (length b - Z.of_nat (S k))) by lia.
      unfold popped.
      destruct (Z.ltb_spec 0 (pushed_back b));
        [|destruct (Z.ltb_spec 0 (length b - pushed_front b))];
        buffer_fields; buffer_eq.
    + rewrite Hlen. unfold popped. run_tests; lia.
Qed.

Lemma shifts_front k : forall b,
  0 <= pushed_back b ->
  Z.of_nat k <= length b - pushed_back b ->
  0 <= pushed_front b <= length b ->
  times k shift b =
  (Returns tt,
   mkBuffer (skipn k (items b)) (pushed_back b)
            (Z.max 0 (pushed_front b - Z.of_nat k)) (poped_back b)
            (poped_front b + Z.max 0 (Z.of_nat k - pushed_front b))).
Proof.
  induction k as [|k IH]; intros b Hb Hk Hpf.
  - cbn [times skipn]. unfold ret. destruct b as [arr pb pf qb qf].
    buffer_fields. buffer_eq.
  - destruct (shift_nonempty b) as [r Hr]; [lia|].
    rewrite times_S, Hr.
    pose proof (shifted_length b ltac:(lia)) as Hlen.
    assert (Hpb : pushed_back (shifted b) = pushed_back b).
    { unfold shifted. run_tests; reflexivity. }
    rewrite IH; [| lia | lia |].
    + rewrite Hpb, shifted_items, skipn_skipn.
      replace (k + 1)%nat with (S k) by lia.
      unfold shifted.
      destruct (Z.ltb_spec 0 (pushed_front b));
        [|destruct (Z.ltb_spec 0 (length b - pushed_back b))];
        buffer_fields; buffer_eq.
    + rewrite Hlen. unfold shifted. run_tests; lia.
Qed.

Lemma each_push calls : forall b,
  each push calls b =
  (Returns tt,
   mkBuffer (items b ++ concat calls) (pushed_back b + len (concat calls))
            (pushed_front b) (poped_back b) (poped_front b)).
Proof.
  induction calls as [|its rest IH]; intros [arr pb pf qb qf].
  - cbn. unfold ret. rewrite app_nil_r. buffer_eq.
  - cbn [each concat]. unfold bind at 1. open_methods.
    rewrite IH. buffer_fields. rewrite len_app, <- app_assoc. buffer_eq.
Qed.

Lemma len_prepended calls : len (prepended calls) = len (concat calls).
Proof.
  induction calls as [|its rest IH]; [reflexivity|].
  cbn [prepended concat]. rewrite !len_app, IH. lia.
Qed.

Lemma each_unshift calls : forall b,
  each unshift calls b =
  (Returns tt,
   mkBuffer (prepended calls ++ items b) (pushed_back b)
            (pushed_front b + len (concat calls)) (poped_back b)
            (poped_front b)).
Proof.
  induction calls as [|its rest IH]; intros [arr pb pf qb qf].
  - cbn. unfold ret. buffer_eq.
  - cbn [each concat prepended]. unfold bind at 1. open_methods.
    rewrite IH. buffer_fields. rewrite len_app, <- app_assoc. buffer_eq.
Qed.

(** *** Splice *)

(** A deletion that starts strictly inside the synced middle and reaches
    the tail boundary of the synced region or runs past it: the range is
    removed, [poped_back] grows by the number of synced elements deleted and
    [pushed_back] shrinks by the number of unsynced ones. *)
Lemma splice_delete_reaching_tail b start deleteCount :
  wf b ->
  pushed_front b < start < length b - pushed_back b ->
  length b - pushed_back b <= start + deleteCount <= length b ->
  let synced := length b - pushed_back b - start in
  splice start (Some deleteCount) [] b =
    (Returns (firstn (Z.to_nat deleteCount) (skipn (Z.to_nat start) (items b))),
     mkBuffer (firstn (Z.to_nat start) (items b)
                 ++ skipn (Z.to_nat (start + deleteCount)) (items b))
              (pushed_back b - (deleteCount - synced)) (pushed_front b)
              (poped_back b + synced) (poped_front b)).
Proof.
  intros (Hpf & Hpb & Hqf & Hqb & Hsum) Hstart Hend synced. subst synced.
  destruct b as [arr pb pf qb qf]. open_methods.
  destruct (Z.ltb_spec start 0); [lia|].
  rewrite (Z.max_l deleteCount 0), (Z.min_l deleteCount (len arr - start)) by lia.
  rewrite array_splice_delete by lia.
  assert (Hl : len (firstn (Z.to_nat start) arr
                      ++ skipn (Z.to_nat (start + deleteCount)) arr)
               = len arr - deleteCount).
  { rewrite len_app, len_firstn, len_skipn by lia. lia. }
  remember (firstn (Z.to_nat start) arr
              ++ skipn (Z.to_nat (start + deleteCount)) arr) as arr' eqn:Harr'.
  clear Harr'.
  run_tests; buffer_fields; buffer_eq.
Qed.

(** C1, as the code has it.  On a buffer whose counters split it into a
    front region, a synced middle and a back region, take a splice that
    deletes [deleteCount > 0] elements from a [start] strictly inside the
    synced middle.  If the deleted range ends before the tail boundary of the
    synced region, the call throws the invalid-mutation RangeError and the
    buffer is as before.  If it reaches the boundary or runs past it (the
    source's "extends to the end"), the call returns the deleted elements;
    [poped_back] grows by the number of synced elements deleted and
    [pushed_back] shrinks by the number of unsynced ones.  When the range
    ends exactly at the boundary, this is popping [deleteCount] elements
    from the back of the synced region: [poped_back] grows by the deleted
    size and nothing else changes.  When the range ends at the end of the
    array, it is what [deleteCount] calls of [pop()] do. *)
Theorem splice_mid_region_delete b start deleteCount :
  wf b ->
  pushed_front b < start < length b - pushed_back b ->
  0 < deleteCount ->
  start + deleteCount <= length b ->
  let boundary := length b - pushed_back b in
  (start + deleteCount < boundary ->
   splice start (Some deleteCount) [] b = (Throws RangeError_delete, b)) /\
  (boundary <= start + deleteCount ->
   exists b',
     splice start (Some deleteCount) [] b =
       (Returns (firstn (Z.to_nat deleteCount) (skipn (Z.to_nat start) (items b))),
        b') /\
     items b' = firstn (Z.to_nat start) (items b)
                  ++ skipn (Z.to_nat (start + deleteCount)) (items b) /\
     counters b' =
       (pushed_front b, pushed_back b - (start + deleteCount - boundary),
        poped_front b, poped_back b + (boundary - start)) /\
     (start + deleteCount = boundary ->
      b' = pop_back_synced deleteCount b /\
      counters b' =
        (pushed_front b, pushed_back b, poped_front b,
         poped_back b + deleteCount)) /\
     (start + deleteCount = length b ->
      times (Z.to_nat deleteCount) pop b = (Returns tt, b'))).
Proof.
  intros Hwf Hstart Hdc Hin boundary. subst boundary.
  pose proof Hwf as (Hpf & Hpb & Hqf & Hqb & Hsum).
  split.
  - intros Hend. destruct b as [arr pb pf qb qf]. open_methods.
    destruct (array_splice _ _ _ _) as [d arr'].
    run_tests; reflexivity.
  - intros Hend. eexists.
    split; [apply splice_delete_reaching_tail; [assumption | assumption | lia]|].
    split; [reflexivity|]. split; [unfold counters; buffer_fields; buffer_eq|].
    split.
    + intros Hex. split.
      * unfold pop_back_synced.
        replace (length b - pushed_back b - deleteCount) with start by lia.
        replace (Z.to_nat (length b - pushed_back b))
          with (Z.to_nat (start + deleteCount)) by lia.
        buffer_eq.
      * unfold counters; buffer_fields. buffer_eq.
    + intros Hex. rewrite pops_back by lia.
      replace (length b - Z.of_nat (Z.to_nat deleteCount)) with start by lia.
      replace (Z.to_nat (start + deleteCount)) with (List.length (items b))
        by (unfold length, len in *; lia).
      rewrite skipn_all, app_nil_r. buffer_eq.
Qed.

Ltac ground := unfold wf, length, len; cbn; lia.

Lemma five_wf : wf five.
Proof. ground. Defined.

Lemma splice_mid_region_delete_witness :
  splice 2 (Some 2) [] five = (Throws RangeError_delete, five) /\
  exists b',
    splice 2 (Some 3) [] five =
      (Returns [mkDataPoint 2 5; mkDataPoint 3 10; mkDataPoint 4 0], b') /\
    counters b' = (0, 0, 0, 3).
Proof.
  split.
  - apply (@splice_mid_region_delete five 2 2);
      [exact five_wf | ground | lia | ground | ground].
  - destruct (@splice_mid_region_delete five 2 3 five_wf) as [_ H];
      [ground | lia | ground |].
    destruct H as (b' & E & _ & C & _); [ground|].
    exists b'. split; [exact E | exact C].
Defined.

(** C1 as stated fails for a deletion that runs past the synced tail into
    the unsynced back region: of five points the last two are unsynced, and
    [splice(1, 4)] succeeds, but [poped_back] grows by 2, the number of
    synced points deleted, not by the deleted size 4 (and [pushed_back]
    drops to 0). *)
Lemma splice_past_tail_counterexample :
  ~ (forall b start deleteCount r b',
       wf b ->
       pushed_front b < start < length b - pushed_back b ->
       0 < deleteCount ->
       length b - pushed_back b <= start + deleteCount <= length b ->
       splice start (Some deleteCount) [] b = (Returns r, b') ->
       poped_back b' = poped_back b + deleteCount).
Proof.
  intros H.
  specialize (H (mkBuffer (items five) 2 0 0 0) 1 4
                [mkDataPoint 1 10; mkDataPoint 2 5; mkDataPoint 3 10; mkDataPoint 4 0]
                (mkBuffer [mkDataPoint 0 0] 0 0 2 0)).
  assert (C : 2 = 0 + 4); [|discriminate C].
  apply H; [ground | ground | lia | ground | reflexivity].
Qed.

(** C2.  A splice that throws an invalid-mutation RangeError, for a deletion
    or for an insertion in the synced middle, leaves the element sequence and
    the four counters exactly as they were; this holds in every state of the
    buffer. *)
Theorem splice_invalid_mutation_no_effect b start deleteCount its e b' :
  splice start deleteCount its b = (Throws e, b') ->
  invalid_mutation e = true ->
  b' = b.
Proof.
  pose proof (length_nonneg b) as Hlen.
  destruct b as [arr pb pf qb qf]. open_methods.
  destruct (array_splice _ _ _ _) as [r arr'].
  intros H He.
  destruct deleteCount as [dc|]; run_tests;
    inversion H; subst; cbn in He; try discriminate; buffer_eq.
Qed.

Lemma splice_invalid_mutation_no_effect_witness :
  snd (splice 2 (Some 1) [] five) = five /\
  snd (splice 2 (Some 0) [mkDataPoint 9 9] five) = five.
Proof.
  split.
  - apply (@splice_invalid_mutation_no_effect five 2 (Some 1) []
             RangeError_delete);
      reflexivity.
  - apply (@splice_invalid_mutation_no_effect five 2 (Some 0) [mkDataPoint 9 9]
             RangeError_insert);
      reflexivity.
Defined.

(** *** Push and pop cancel *)

(** C7.  On a buffer whose four counters are zero, pushing any number of
    items to the back (in one or several [push] calls) and then popping as
    many leaves the four counters at zero, and so does unshifting them to the
    front and then shifting as many; the buffer is in fact the one before. *)
Theorem push_pop_cancel b calls :
  counters b = (0, 0, 0, 0) ->
  let k := List.length (concat calls) in
  (exists b', (each push calls ;; times k pop) b = (Returns tt, b') /\
              counters b' = (0, 0, 0, 0) /\ b' = b) /\
  (exists b', (each unshift calls ;; times k shift) b = (Returns tt, b') /\
              counters b' = (0, 0, 0, 0) /\ b' = b).
Proof.
  intros Hc k. destruct b as [arr pb pf qb qf]. unfold counters in Hc.
  buffer_fields. injection Hc as -> -> -> ->.
  pose proof (len_nonneg arr) as Harr.
  split; eexists; (split; [|split; [|reflexivity]]); try reflexivity.
  - unfold bind. rewrite each_push. buffer_fields.
    rewrite pops_back; unfold length; buffer_fields; rewrite ?len_app;
      unfold k; try (unfold len in *; lia).
    replace (Z.to_nat (len arr + len (concat calls)
                       - Z.of_nat (List.length (concat calls))))
      with (List.length arr + 0)%nat by (unfold len; lia).
    rewrite firstn_app_2. cbn [firstn]. rewrite app_nil_r.
    buffer_eq; unfold len; lia.
  - unfold bind. rewrite each_unshift. buffer_fields.
    rewrite shifts_front; unfold length; buffer_fields;
      rewrite ?len_app, ?len_prepended; unfold k; try (unfold len in *; lia).
    rewrite skipn_app.
    assert (Hk : List.length (prepended calls) = List.length (concat calls)).
    { pose proof (len_prepended calls). unfold len in *. lia. }
    rewrite <- Hk, skipn_all, Nat.sub_diag. cbn [skipn app].
    buffer_eq; unfold len; lia.
Qed.

Lemma push_pop_cancel_witness :
  counters (snd ((each push [[mkDataPoint 5 1]; [mkDataPoint 6 2; mkDataPoint 7 3]] ;;
                 times 3 pop) five)) = (0, 0, 0, 0) /\
  counters (snd ((each unshift [[mkDataPoint 5 1]; [mkDataPoint 6 2; mkDataPoint 7 3]] ;;
                 times 3 shift) five)) = (0, 0, 0, 0).
Proof.
  destruct (@push_pop_cancel five
              [[mkDataPoint 5 1]; [mkDataPoint 6 2; mkDataPoint 7 3]] eq_refl)
    as [[b1 [E1 [C1 _]]] [b2 [E2 [C2 _]]]].
  cbv zeta in E1, E2. cbn [concat app List.length] in E1, E2.
  rewrite E1, E2. split; assumption.
Defined.

(** *** The counters stay well-formed *)

Lemma push_wf its b b' r : wf b -> push its b = (Returns r, b') -> wf b'.
Proof.
  unfold wf. destruct b as [arr pb pf qb qf]. open_methods.
  intros H E. inversion E; subst; clear E. buffer_fields.
  rewrite len_app. pose proof (len_nonneg its). lia.
Qed.

Lemma unshift_wf its b b' r : wf b -> unshift its b = (Returns r, b') -> wf b'.
Proof.
  unfold wf. destruct b as [arr pb pf qb qf]. open_methods.
  intros H E. inversion E; subst; clear E. buffer_fields.
  rewrite len_app. pose proof (len_nonneg its). lia.
Qed.

Lemma pop_wf b b' r : wf b -> pop b = (Returns r, b') -> wf b'.
Proof.
  unfold wf. destruct b as [arr pb pf qb qf]. open_methods. intros H E.
  destruct (rev arr) as [|last front] eqn:Hrev.
  - inversion E; subst. buffer_fields. exact H.
  - assert (Hl : len arr = 1 + len (rev front)).
    { rewrite <- (len_rev arr), Hrev, len_cons, len_rev. reflexivity. }
    pose proof (len_nonneg (rev front)).
    run_tests; inversion E; subst; clear E; buffer_fields; lia.
Qed.

Lemma shift_wf b b' r : wf b -> shift b = (Returns r, b') -> wf b'.
Proof.
  unfold wf. destruct b as [arr pb pf qb qf]. open_methods. intros H E.
  destruct arr as [|first rest].
  - inversion E; subst. buffer_fields. exact H.
  - rewrite len_cons in *. pose proof (len_nonneg rest).
    run_tests; inversion E; subst; clear E; buffer_fields; lia.
Qed.

Lemma splice_wf start deleteCount its b b' r :
  wf b -> splice start deleteCount its b = (Returns r, b') -> wf b'.
Proof.
  pose proof (length_nonneg b) as Hlen. pose proof (len_nonneg its) as Hits.
  unfold wf. destruct b as [arr pb pf qb qf]. open_methods.
  destruct (array_splice _ _ _ _) as [d arr'].
  intros H E.
  destruct deleteCount as [dc|]; run_tests;
    try discriminate; inversion E; subst; clear E; buffer_fields; lia.
Qed.

(** C9.  Each of push, pop, unshift, shift and splice, when it returns,
    keeps the four counters non-negative and keeps
    [pushed_front + pushed_back <= length]: the unsynced front and back
    regions never overlap and never exceed the buffer. *)
Theorem operations_preserve_wf op b b' :
  wf b -> run op b = (Returns tt, b') -> wf b'.
Proof.
  intros H. destruct op; unfold run, bind, ret; intros E.
  - destruct (push its b) as [[r|e] b1] eqn:E1; inversion E; subst.
    eauto using push_wf.
  - destruct (pop b) as [[r|e] b1] eqn:E1; inversion E; subst.
    eauto using pop_wf.
  - destruct (unshift its b) as [[r|e] b1] eqn:E1; inversion E; subst.
    eauto using unshift_wf.
  - destruct (shift b) as [[r|e] b1] eqn:E1; inversion E; subst.
    eauto using shift_wf.
  - destruct (splice start deleteCount its b) as [[r|e] b1] eqn:E1;
      inversion E; subst. eauto using splice_wf.
Qed.

Lemma operations_preserve_wf_witness :
  wf (snd (run (Splice 2 (Some 3) []) five)) /\
  wf (snd (run Pop five)) /\
  wf (snd (run (Unshift [mkDataPoint 7 7]) five)).
Proof.
  split; [|split].
  - apply (@operations_preserve_wf (Splice 2 (Some 3) []) five);
      [exact five_wf | reflexivity].
  - apply (@operations_preserve_wf Pop five); [exact five_wf | reflexivity].
  - apply (@operations_preserve_wf (Unshift [mkDataPoint 7 7]) five);
      [exact five_wf | reflexivity].
Defined.

(** *** What the counters account for *)

Lemma run_wf op b b' : wf b -> run op b = (Returns tt, b') -> wf b'.
Proof.
  intros H. destruct op; unfold run, bind, ret; intros E.
  - destruct (push its b) as [[r|e] b1] eqn:E1; inversion E; subst.
    eauto using push_wf.
  - destruct (pop b) as [[r|e] b1] eqn:E1; inversion E; subst.
    eauto using pop_wf.
  - destruct (unshift its b) as [[r|e] b1] eqn:E1; inversion E; subst.
    eauto using unshift_wf.
  - destruct (shift b) as [[r|e] b1] eqn:E1; inversion E; subst.
    eauto using shift_wf.
  - destruct (splice start deleteCount its b) as [[r|e] b1] eqn:E1;
      inversion E; subst. eauto using splice_wf.
Qed.

(** The normalised [start] and [deleteCount] of a splice, as two numbers
    about which only their bounds are known. *)
Ltac normalise_splice arr start deleteCount s dc :=
  pose proof (len_nonneg arr);
  assert (exists s, 0 <= s /\
            (if start <? 0 then Z.max (len arr + start) 0 else start) = s /\
            (0 <= start -> s = start) /\ (start < 0 -> s <= len arr))
    as (s & ? & -> & ? & ?)
    by (eexists; split; [|split; [reflexivity|]];
        destruct (Z.ltb_spec start 0); lia);
  assert (exists dc, (s <= len arr -> 0 <= dc <= len arr - s) /\
            (len arr < s -> dc = len arr - s) /\
            match deleteCount with
            | None => len arr - s
            | Some d => Z.min (Z.max d 0) (len arr - s)
            end = dc)
    as (dc & ? & ? & ->)
    by (eexists; split; [|split; [|reflexivity]];
        destruct deleteCount; lia).

(** X1.  Every operation that returns leaves
    [length - pushed_front - pushed_back + poped_front + poped_back] as it
    was, in every state of the buffer: the four counters always account for
    the difference between the array and what was synced. *)
Theorem operations_conserve_synced_length op b b' :
  run op b = (Returns tt, b') -> synced_before b' = synced_before b.
Proof.
  unfold synced_before. destruct b as [arr pb pf qb qf].
  destruct op as [its | | its | | start deleteCount its];
    unfold run, bind at 1.
  - open_methods. intros E. inversion E; subst; clear E. buffer_fields.
    rewrite len_app. lia.
  - open_methods. destruct (rev arr) as [|last front] eqn:Hrev.
    + intros E. inversion E; subst. reflexivity.
    + assert (Hl : len arr = 1 + len (rev front)).
      { rewrite <- (len_rev arr), Hrev, len_cons, len_rev. reflexivity. }
      run_tests; intros E; inversion E; subst; clear E; buffer_fields; lia.
  - open_methods. intros E. inversion E; subst; clear E. buffer_fields.
    rewrite len_app. lia.
  - open_methods. destruct arr as [|first rest].
    + intros E. inversion E; subst. reflexivity.
    + rewrite len_cons in *.
      run_tests; intros E; inversion E; subst; clear E; buffer_fields; lia.
  - pose proof (len_nonneg its). open_methods.
    normalise_splice arr start deleteCount s dc.
    destruct (array_splice s dc its arr) as [d arr'].
    intros E.
    run_tests; try discriminate; inversion E; subst; clear E; buffer_fields; lia.
Qed.

Lemma operations_conserve_synced_length_witness :
  synced_before (snd (run (Splice 2 (Some 3) [mkDataPoint 7 7]) five)) = 5.
Proof.
  apply (@operations_conserve_synced_length (Splice 2 (Some 3) [mkDataPoint 7 7]) five).
  reflexivity.
Defined.

(** One operation on a well-formed buffer: the two [poped] counters do not
    decrease, and a synced element that is still in the synced region
    afterwards is the element it was. *)
Lemma run_keeps_synced op b b' :
  wf b -> run op b = (Returns tt, b') ->
  synced_before b' = synced_before b /\
  poped_front b <= poped_front b' /\ poped_back b <= poped_back b' /\
  forall k, poped_front b' <= k < synced_before b' - poped_back b' ->
            synced_at b' k = synced_at b k.
Proof.
  unfold wf, synced_before, synced_at. destruct b as [arr pb pf qb qf].
  intros Hwf.
  destruct op as [its | | its | | start deleteCount its];
    unfold run, bind at 1.
  - open_methods. intros E. inversion E; subst; clear E. buffer_fields.
    rewrite len_app. split; [lia|]. split; [lia|]. split; [lia|]. intros k Hk.
    rewrite at_index_app. run_tests. reflexivity.
  - open_methods. destruct (rev arr) as [|last front] eqn:Hrev.
    + intros E. inversion E; subst. buffer_fields. auto with zarith.
    + assert (Harr : arr = rev front ++ [last]).
      { rewrite <- (rev_involutive arr), Hrev. reflexivity. }
      subst arr. rewrite len_app, len_cons, len_nil in *.
      run_tests; intros E; inversion E; subst; clear E; buffer_fields;
        (split; [lia|]); (split; [lia|]); (split; [lia|]); intros k Hk;
        rewrite at_index_app; run_tests; reflexivity.
  - open_methods. intros E. inversion E; subst; clear E. buffer_fields.
    rewrite len_app. split; [lia|]. split; [lia|]. split; [lia|]. intros k Hk.
    pose proof (len_nonneg its).
    rewrite at_index_app. run_tests. f_equal. lia.
  - open_methods. destruct arr as [|first rest].
    + intros E. inversion E; subst. buffer_fields. auto with zarith.
    + rewrite len_cons in *.
      run_tests; intros E; inversion E; subst; clear E; buffer_fields;
        (split; [lia|]); (split; [lia|]); (split; [lia|]); intros k Hk;
        rewrite (at_index_cons first rest); run_tests; f_equal; lia.
  - pose proof (len_nonneg its). open_methods.
    normalise_splice arr start deleteCount s dc.
    destruct (@array_splice_spec _ arr its s dc) as [Hin Hout]; [lia | lia | lia |].
    destruct (array_splice s dc its arr) as [d arr']. cbn [fst snd] in Hin, Hout.
    destruct (Z.le_gt_cases s (len arr)) as [Hs|Hs].
    + destruct (Hin Hs) as (_ & Hlen' & Hat). clear Hin Hout.
      intros E.
      run_tests; try discriminate; inversion E; subst; clear E; buffer_fields;
        (split; [lia|]); (split; [lia|]); (split; [lia|]); intros k Hk;
        rewrite Hat; run_tests; try reflexivity; f_equal; lia.
    + destruct Hout as [_ ->]; [lia|]. rewrite len_app. intros E.
      run_tests; discriminate.
Qed.

(** X2.  The guarantee the class is there for.  Across any sequence of
    operations that return, on a well-formed buffer, the two [poped]
    counters only grow, and every element of the synced region that is left
    is the element that was there before, in the same order: counting
    positions from the start of the array at the last sync, position [k] is
    still present when [poped_front <= k < synced_before - poped_back], and
    holds the same data point. *)
Theorem synced_elements_preserved ops : forall b0 b,
  wf b0 -> runs ops b0 = (Returns tt, b) ->
  wf b /\ synced_before b = synced_before b0 /\
  poped_front b0 <= poped_front b /\ poped_back b0 <= poped_back b /\
  forall k, poped_front b <= k < synced_before b0 - poped_back b ->
            exists dp, synced_at b k = Some dp /\ synced_at b0 k = Some dp.
Proof.
  induction ops as [|op rest IH]; intros b0 b Hwf E.
  - cbn [runs] in E. unfold ret in E. inversion E; subst; clear E.
    split; [assumption|]. split; [reflexivity|].
    split; [lia|]. split; [lia|]. intros k Hk.
    destruct (@at_index_inside _ (items b) (pushed_front b + k - poped_front b))
      as [dp Hdp].
    { unfold wf, synced_before, length in *. lia. }
    exists dp. split; exact Hdp.
  - cbn [runs] in E. unfold bind in E.
    destruct (run op b0) as [[[]|e] b1] eqn:E1; [|discriminate].
    pose proof (run_wf _ Hwf E1) as Hwf1.
    destruct (run_keeps_synced _ Hwf E1) as (Hc1 & Hqf1 & Hqb1 & Hk1).
    destruct (IH _ _ Hwf1 E) as (Hwfb & Hc & Hqf & Hqb & Hk).
    split; [assumption|]. split; [congruence|].
    split; [lia|]. split; [lia|]. intros k Hk'.
    destruct (Hk k) as (dp & H1 & H2); [lia|].
    exists dp. split; [exact H1|]. rewrite <- Hk1; [exact H2 | lia].
Qed.

Lemma synced_elements_preserved_witness :
  let b := snd (runs [Shift; Pop; Unshift [mkDataPoint 7 7]] five) in
  counters b = (1, 0, 1, 1) /\
  exists dp, synced_at b 2 = Some dp /\ synced_at five 2 = Some dp.
Proof.
  intros b. split; [reflexivity|].
  destruct (@synced_elements_preserved [Shift; Pop; Unshift [mkDataPoint 7 7]]
              five b five_wf eq_refl) as (_ & _ & _ & _ & H).
  apply (H 2). subst b. vm_compute. split; [discriminate | reflexivity].
Defined.

(** *** Splice at the two ends *)

(** X3.  Inserting with [splice(0, 0, ...items)] is [unshift(...items)]:
    the same elements and the same counters afterwards, whatever the state
    (as long as [pushed_front] is not negative). *)
Theorem splice_at_front_is_unshift b its :
  0 <= pushed_front b ->
  splice 0 (Some 0) its b = (Returns [], snd (unshift its b)).
Proof.
  intros Hpf. pose proof (len_nonneg its). pose proof (length_nonneg b).
  destruct b as [arr pb pf qb qf]. open_methods.
  replace (if 0 <? 0 then Z.max (len arr + 0) 0 else 0) with 0 by reflexivity.
  replace (Z.min (Z.max 0 0) (len arr - 0)) with 0 by lia.
  rewrite array_splice_insert by lia.
  cbn [Z.to_nat firstn skipn app]. rewrite len_app.
  run_tests; buffer_fields; buffer_eq.
Qed.

Lemma splice_at_front_is_unshift_witness :
  splice 0 (Some 0) [mkDataPoint 7 7] five
  = (Returns [], snd (unshift [mkDataPoint 7 7] five)).
Proof. apply (@splice_at_front_is_unshift five [mkDataPoint 7 7]). ground. Defined.

(** X4.  Inserting at the end with [splice(length, 0, ...items)] is
    [push(...items)] as long as some element lies behind the front region.
    When the whole array is front region (so also when it is empty), the
    items are appended all the same but counted in [pushed_front], not in
    [pushed_back]. *)
Theorem splice_at_end_is_push b its :
  wf b ->
  (pushed_front b < length b ->
   splice (length b) (Some 0) its b = (Returns [], snd (push its b))) /\
  (pushed_front b = length b ->
   splice (length b) (Some 0) its b =
   (Returns [],
    mkBuffer (items b ++ its) (pushed_back b) (pushed_front b + len its)
             (poped_back b) (poped_front b))).
Proof.
  intros Hwf. pose proof (len_nonneg its). pose proof (length_nonneg b).
  unfold wf in Hwf. destruct b as [arr pb pf qb qf]. open_methods.
  destruct (Z.ltb_spec (len arr) 0); [lia|].
  replace (Z.min (Z.max 0 0) (len arr - len arr)) with 0 by lia.
  rewrite array_splice_insert by lia.
  replace (Z.to_nat (len arr)) with (List.length arr) by (unfold len; lia).
  rewrite firstn_all, skipn_all, app_nil_r, len_app.
  split; intros Hfront; run_tests; buffer_fields; buffer_eq.
Qed.

Lemma splice_at_end_is_push_witness :
  splice 5 (Some 0) [mkDataPoint 7 7] five
    = (Returns [], snd (push [mkDataPoint 7 7] five)) /\
  counters (snd (splice 0 (Some 0) [mkDataPoint 7 7] (Buffer.new []))) = (1, 0, 0, 0) /\
  counters (snd (push [mkDataPoint 7 7] (Buffer.new []))) = (0, 1, 0, 0).
Proof.
  split; [|split].
  - apply (@splice_at_end_is_push five [mkDataPoint 7 7] five_wf). ground.
  - destruct (@splice_at_end_is_push (Buffer.new []) [mkDataPoint 7 7]) as [_ H];
      [unfold Buffer.new; ground|].
    change (length (Buffer.new [])) with 0 in H. rewrite H; reflexivity.
  - reflexivity.
Defined.

(** X5.  On a non-empty well-formed buffer, [splice(0, 1)] is [shift()]:
    it returns the first element (in an array) and leaves the same elements
    and the same counters. *)
Theorem splice_first_is_shift b :
  wf b -> 0 < length b ->
  exists r b',
    shift b = (Returns (Some r), b') /\
    splice 0 (Some 1) [] b = (Returns [r], b').
Proof.
  intros Hwf Hlen. unfold wf in Hwf. destruct b as [arr pb pf qb qf].
  destruct arr as [|r rest];
    [unfold length in Hlen; buffer_fields; rewrite len_nil in Hlen; lia|].
  pose proof (len_nonneg rest) as Hrest.
  exists r, (snd (shift (mkBuffer (r :: rest) pb pf qb qf))).
  open_methods. rewrite len_cons in *.
  replace (if 0 <? 0 then Z.max (1 + len rest + 0) 0 else 0) with 0 by reflexivity.
  replace (Z.min (Z.max 1 0) (1 + len rest - 0)) with 1 by lia.
  rewrite array_splice_delete by (rewrite ?len_cons; lia).
  change (Z.to_nat 0) with 0%nat. change (Z.to_nat 1) with 1%nat.
  change (Z.to_nat (0 + 1)) with 1%nat. cbn [firstn skipn app].
  split; run_tests; buffer_fields; buffer_eq.
Qed.

Lemma splice_first_is_shift_witness :
  exists r b',
    shift five = (Returns (Some r), b') /\
    splice 0 (Some 1) [] five = (Returns [r], b').
Proof. apply (@splice_first_is_shift five five_wf). ground. Defined.

(** X6.  On a non-empty well-formed buffer, [splice(length - 1, 1)] removes
    the same element as [pop()], and leaves the same counters except in one
    state: when the last element is the only synced element left and nothing
    unsynced lies behind it, [pop] counts it in [poped_back] and [splice]
    counts it in [poped_front]. *)
Theorem splice_last_is_pop b :
  wf b -> 0 < length b ->
  exists r b',
    pop b = (Returns (Some r), b') /\
    (pushed_front b <> length b - 1 \/ 0 < pushed_back b ->
     splice (length b - 1) (Some 1) [] b = (Returns [r], b')) /\
    (pushed_front b = length b - 1 -> pushed_back b = 0 ->
     counters b' = (pushed_front b, 0, poped_front b, poped_back b + 1) /\
     splice (length b - 1) (Some 1) [] b =
     (Returns [r],
      mkBuffer (items b') 0 (pushed_front b) (poped_back b) (poped_front b + 1))).
Proof.
  intros Hwf Hlen. unfold wf in Hwf. destruct b as [arr pb pf qb qf].
  unfold length in Hlen. buffer_fields.
  destruct (rev arr) as [|r front] eqn:Hrev.
  { apply (f_equal (@len _)) in Hrev. rewrite len_rev, len_nil in Hrev. lia. }
  exists r, (snd (pop (mkBuffer arr pb pf qb qf))).
  unfold counters. open_methods. rewrite Hrev.
  destruct (Z.ltb_spec (len arr - 1) 0); [lia|].
  replace (Z.min (Z.max 1 0) (len arr - (len arr - 1))) with 1 by lia.
  rewrite (array_splice_last arr Hrev).
  assert (Hl : len (rev front) = len arr - 1).
  { rewrite <- (len_rev arr), Hrev, len_cons, len_rev. lia. }
  split; [|split]; [ | intros Hcase | intros Hcase1 Hcase2; split ];
    run_tests; buffer_fields; buffer_eq.
Qed.

Lemma splice_last_is_pop_witness :
  exists r b',
    pop five = (Returns (Some r), b') /\
    splice 4 (Some 1) [] five = (Returns [r], b').
Proof.
  destruct (@splice_last_is_pop five five_wf) as (r & b' & Hpop & H & _);
    [ground|].
  exists r, b'. split; [exact Hpop|]. apply H. left. ground.
Defined.

(** X7.  On a well-formed buffer, a splice whose [start] is not past the
    end of the array either returns or throws one of the two
    invalid-mutation RangeErrors: the two internal [BUG] errors are never
    thrown.  When it returns, the result holds the elements from the
    normalised [start] on that were removed, the items stand in their place,
    and the length changed accordingly. *)
Theorem splice_in_range_outcome b start deleteCount its :
  wf b -> start <= length b ->
  let s := if start <? 0 then Z.max (length b + start) 0 else start in
  (forall e b', splice start deleteCount its b = (Throws e, b') ->
                invalid_mutation e = true) /\
  (forall r b', splice start deleteCount its b = (Returns r, b') ->
     r = firstn (Z.to_nat (len r)) (skipn (Z.to_nat s) (items b)) /\
     0 <= s /\ s + len r <= length b /\
     items b' = firstn (Z.to_nat s) (items b) ++ its
                  ++ skipn (Z.to_nat (s + len r)) (items b) /\
     length b' = length b - len r + len its).
Proof.
  intros Hwf Hstart. unfold wf in Hwf. pose proof (len_nonneg its).
  destruct b as [arr pb pf qb qf]. open_methods.
  normalise_splice arr start deleteCount s dc.
  assert (Hs : s <= len arr) by lia.
  rewrite array_splice_inside by lia.
  assert (Hd : len (firstn (Z.to_nat dc) (skipn (Z.to_nat s) arr)) = dc).
  { apply len_firstn. rewrite len_skipn by lia. lia. }
  assert (Hl : len (firstn (Z.to_nat s) arr ++ its
                      ++ skipn (Z.to_nat (s + dc)) arr)
               = len arr - dc + len its).
  { rewrite !len_app, len_firstn, len_skipn by lia. lia. }
  cbv zeta. split.
  - intros e b' E.
    run_tests; try discriminate; inversion E; subst; reflexivity.
  - intros r b' E.
    run_tests; try discriminate; inversion E; subst; clear E; buffer_fields;
      rewrite Hd;
      (split; [reflexivity|]); (split; [lia|]); (split; [lia|]);
      (split; [reflexivity|]); exact Hl.
Qed.

Lemma splice_in_range_outcome_witness :
  exists b',
    splice (-2) None [mkDataPoint 7 7] five
      = (Returns [mkDataPoint 3 10; mkDataPoint 4 0], b') /\
    length b' = 4.
Proof.
  destruct (@splice_in_range_outcome five (-2) None [mkDataPoint 7 7] five_wf)
    as [_ H]; [ground|].
  exists (snd (splice (-2) None [mkDataPoint 7 7] five)).
  split; [reflexivity|].
  destruct (H [mkDataPoint 3 10; mkDataPoint 4 0]
              (snd (splice (-2) None [mkDataPoint 7 7] five)) eq_refl)
    as (_ & _ & _ & _ & L).
  exact L.
Defined.

(** X8.  A [start] past the end of the array is not handled: on a
    well-formed buffer the call always ends in the internal error
    "BUG! length after splice not expected", after the items were appended to
    the array and [pushed_back] was raised by [start - length] and by the
    number of items. *)
Theorem splice_start_past_end b start deleteCount its :
  wf b -> length b < start ->
  splice start deleteCount its b =
  (Throws Error_BUG_length,
   mkBuffer (items b ++ its)
            (pushed_back b + (start - length b) + len its)
            (pushed_front b) (poped_back b) (poped_front b)).
Proof.
  intros Hwf Hstart. unfold wf in Hwf. pose proof (len_nonneg its).
  destruct b as [arr pb pf qb qf]. open_methods.
  normalise_splice arr start deleteCount s dc.
  destruct (@array_splice_spec _ arr its s dc) as [_ Hout]; [lia | lia | lia |].
  destruct Hout as [Hd Harr]; [lia|].
  destruct (array_splice s dc its arr) as [d arr']. cbn [fst snd] in Hd, Harr.
  subst d arr'. rewrite len_app.
  run_tests; buffer_fields; buffer_eq.
Qed.

Lemma splice_start_past_end_witness :
  splice 7 (Some 1) [] five
  = (Throws Error_BUG_length,
     mkBuffer (items five) 2 0 0 0).
Proof.
  rewrite (@splice_start_past_end five 7 (Some 1) [] five_wf); [|ground].
  reflexivity.
Defined.

(** On a well-formed buffer only [splice] throws, and only a RangeError
    for an invalid mutation or, for a start past the end, the error of its
    final length check. *)
Lemma run_throws op b e b' :
  wf b -> run op b = (Throws e, b') ->
  e = RangeError_delete \/ e = RangeError_insert \/ e = Error_BUG_length.
Proof.
  unfold wf. destruct b as [arr pb pf qb qf]. intros Hwf.
  destruct op as [its | | its | | start deleteCount its];
    unfold run, bind at 1.
  - open_methods. discriminate.
  - open_methods. destruct (rev arr) as [|last front]; [discriminate|].
    run_tests; discriminate.
  - open_methods. discriminate.
  - open_methods. destruct arr as [|first rest]; [discriminate|].
    run_tests; discriminate.
  - pose proof (len_nonneg its). open_methods.
    normalise_splice arr start deleteCount s dc.
    destruct (@array_splice_spec _ arr its s dc) as [Hin Hout]; [lia | lia | lia |].
    destruct (array_splice s dc its arr) as [d arr']. cbn [fst snd] in Hin, Hout.
    destruct (Z.le_gt_cases s (len arr)) as [Hs|Hs].
    + destruct (Hin Hs) as (_ & Hlen' & _). clear Hin Hout.
      intros E.
      run_tests; try discriminate; inversion E; subst; auto.
    + destruct Hout as [_ ->]; [lia|]. rewrite len_app. intros E.
      run_tests; try discriminate; inversion E; subst; auto.
Qed.

Lemma runs_spec ops : forall b,
  wf b ->
  match runs ops b with
  | (Returns _, b') => wf b' /\ synced_before b' = synced_before b
  | (Throws e, _) =>
      e = RangeError_delete \/ e = RangeError_insert \/ e = Error_BUG_length
  end.
Proof.
  induction ops as [|op rest IH]; intros b Hwf.
  - cbn [runs]. unfold ret. auto.
  - cbn [runs]. unfold bind.
    destruct (run op b) as [[[]|e] b1] eqn:E1.
    + pose proof (run_wf _ Hwf E1) as Hwf1.
      destruct (run_keeps_synced _ Hwf E1) as (Hc1 & _).
      specialize (IH b1 Hwf1).
      destruct (runs rest b1) as [[r|e] b2]; [|exact IH].
      destruct IH as [H1 H2]. split; [exact H1 | congruence].
    + eapply run_throws; eassumption.
Qed.

(** A run of operations: what was said of one operation holds of all. *)
Lemma runs_keep_synced ops : forall b b',
  wf b -> runs ops b = (Returns tt, b') ->
  synced_before b' = synced_before b /\
  poped_front b <= poped_front b' /\ poped_back b <= poped_back b' /\
  forall k, poped_front b' <= k < synced_before b' - poped_back b' ->
            synced_at b' k = synced_at b k.
Proof.
  induction ops as [|op rest IH]; intros b b' Hwf E.
  - cbn [runs] in E. unfold ret in E. inversion E; subst; clear E.
    split; [reflexivity|]. split; [lia|]. split; [lia|]. reflexivity.
  - cbn [runs] in E. unfold bind in E.
    destruct (run op b) as [[[]|e] b1] eqn:E1; [|discriminate].
    pose proof (run_wf _ Hwf E1) as Hwf1.
    destruct (run_keeps_synced _ Hwf E1) as (Hc1 & Hqf1 & Hqb1 & Hk1).
    destruct (IH _ _ Hwf1 E) as (Hc & Hqf & Hqb & Hk).
    split; [congruence|]. split; [lia|]. split; [lia|].
    intros k Hk'. rewrite Hk by exact Hk'. apply Hk1. lia.
Qed.

End BufferProperties.

(** ** The scale model *)

Section ModelProperties.

Import Buffer.
Import Model.

(** *** The order on numbers *)

Ltac number_cases :=
  repeat match goal with
  | a : number |- _ => destruct a
  end;
  unfold le, nmin, nmax in *; cbn [ltb] in *;
  repeat match goal with
  | |- context [?a <? ?b] => destruct (Z.ltb_spec a b); cbn [ltb] in *
  | H : context [?a <? ?b] |- _ => destruct (Z.ltb_spec a b); cbn [ltb] in *
  end;
  try reflexivity; try discriminate; try lia.

Lemma le_refl a : le a a.
Proof. number_cases. Qed.

Lemma le_trans a b c : le a b -> le b c -> le a c.
Proof. intros H1 H2. number_cases. Qed.

Lemma nmin_le_l a b : le (nmin a b) a.
Proof. number_cases. Qed.

Lemma nmin_le_r a b : le (nmin a b) b.
Proof. number_cases. Qed.

Lemma nmax_ge_l a b : le a (nmax a b).
Proof. number_cases. Qed.

Lemma nmax_ge_r a b : le b (nmax a b).
Proof. number_cases. Qed.

Lemma fold_nmin_le l a : In a l -> le (fold_right nmin Infinity l) a.
Proof.
  induction l as [|b l IH]; intros H; [contradiction|].
  cbn [fold_right]. destruct H as [->|H].
  - apply nmin_le_l.
  - eapply le_trans; [apply nmin_le_r | auto].
Qed.

Lemma fold_nmax_ge l a : In a l -> le a (fold_right nmax NegInfinity l).
Proof.
  induction l as [|b l IH]; intros H; [contradiction|].
  cbn [fold_right]. destruct H as [->|H].
  - apply nmax_ge_l.
  - eapply le_trans; [auto | apply nmax_ge_r].
Qed.

(** The union contains each of its arguments. *)
Lemma unionMinMax_covers l r :
  In r l ->
  le (min (unionMinMax l)) (min r) /\ le (max r) (max (unionMinMax l)).
Proof.
  intros H. unfold unionMinMax. cbn [min max]. split.
  - apply fold_nmin_le. now apply in_map.
  - apply fold_nmax_ge. now apply in_map.
Qed.

Variable nice : number * number -> number * number.
Variable minus : Z -> Z -> Z.
Variable o : Options.

(** *** One update *)

Lemma updateModel_yRange series m r :
  yRange m = Some r ->
  exists r', yRange (snd (updateModel nice minus o series m)) = Some r' /\
             le (min r') (min r) /\ le (max r) (max r').
Proof.
  intros Hr. unfold updateModel.
  destruct (len (filter _ series) =? 0).
  { exists r. cbn [snd]. auto using le_refl. }
  match goal with
  | |- context [all_some ?l] => destruct (all_some l) as [mm|]
  end.
  - exists (unionMinMax (mm ++ [r])).
    split.
    + destruct (realTime o), (xRangeOpt o), (yRangeOpt o);
        cbn [orb snd yRange xDomain yDomain xRange]; rewrite Hr; reflexivity.
    + apply unionMinMax_covers. apply in_or_app. right. now left.
  - exists r. split; [|auto using le_refl].
    destruct (realTime o), (xRangeOpt o); cbn [orb snd yRange]; exact Hr.
Qed.

Lemma updateModel_fixed_xRange lo hi series m :
  realTime o = false ->
  xRangeOpt o = Fixed lo hi ->
  xDomain m = (lo, hi) ->
  xDomain (snd (updateModel nice minus o series m)) = (lo, hi).
Proof.
  intros Hrt Hx Hm. unfold updateModel. rewrite Hrt, Hx.
  destruct (len (filter _ series) =? 0); [exact Hm|].
  cbn [orb]. 
  match goal with
  | |- context [all_some ?l] => destruct (all_some l) as [mm|]
  end; [|reflexivity].
  destruct (yRange m), (yRangeOpt o); reflexivity.
Qed.

(** In real-time mode the right edge of the domain goes to the largest last
    x and the left edge to that x minus the width the domain had, whatever
    range was configured; both differences are differences of doubles. *)
Lemma updateModel_realTime_slides series m :
  realTime o = true ->
  filter (fun s => 0 <? length s) series <> [] ->
  let maxDomain :=
    maximum (map last_x (filter (fun s => 0 <? length s) series)) 0 in
  xDomain (snd (updateModel nice minus o series m)) =
    (minus maxDomain (minus (snd (xDomain m)) (fst (xDomain m))), maxDomain).
Proof.
  intros Hrt Hne maxDomain. unfold updateModel. rewrite Hrt.
  destruct (Z.eqb_spec (len (filter (fun s => 0 <? length s) series)) 0) as [E|_].
  { destruct (filter _ series); [contradiction|]. rewrite len_cons in E.
    pose proof (len_nonneg l). lia. }
  cbn [orb].
  match goal with
  | |- context [all_some ?l] => destruct (all_some l) as [mm|]
  end; [|reflexivity].
  destruct (yRange m), (yRangeOpt o); reflexivity.
Qed.

(** *** Sequences of updates *)

(** C6.  Across any sequence of [updateModel] calls, whatever the series
    hold at each call, once the recorded y-range is non-null it stays
    non-null, its [min] never increases and its [max] never decreases: popping
    points never shrinks it. *)
Theorem yRange_monotone cycles : forall m r,
  yRange m = Some r ->
  exists r', yRange (updates nice minus o cycles m) = Some r' /\
             le (min r') (min r) /\ le (max r) (max r').
Proof.
  induction cycles as [|series rest IH]; intros m r Hr.
  - exists r. cbn [updates]. auto using le_refl.
  - cbn [updates].
    destruct (updateModel_yRange series m Hr) as (r1 & H1 & Hmin1 & Hmax1).
    destruct (IH _ _ H1) as (r2 & H2 & Hmin2 & Hmax2).
    exists r2. eauto using le_trans.
Qed.

(** C5, as the code has it.  Let a fixed x-range be configured.  When the
    chart is not in real-time mode, the x-domain equals the configured
    [min, max] after the constructor and after every [updateModel] call,
    whatever the series hold.  When it is in real-time mode the fixed range
    does not count: an [updateModel] call that finds a non-empty series
    slides the domain, from whatever it was, so that it ends at the largest
    last x of the series and starts at that x minus the width the domain had
    (two subtractions of doubles); a call that finds no point leaves the
    domain as it is. *)
Theorem fixed_xRange_kept lo hi :
  xRangeOpt o = Fixed lo hi ->
  (realTime o = false ->
   forall cycles, xDomain (updates nice minus o cycles (new o)) = (lo, hi)) /\
  (realTime o = true ->
   forall series m,
     let nonEmpty := filter (fun s => 0 <? length s) series in
     let maxDomain := maximum (map last_x nonEmpty) 0 in
     (nonEmpty <> [] ->
      xDomain (snd (updateModel nice minus o series m)) =
        (minus maxDomain (minus (snd (xDomain m)) (fst (xDomain m))),
         maxDomain)) /\
     (nonEmpty = [] ->
      xDomain (snd (updateModel nice minus o series m)) = xDomain m)).
Proof.
  intros Hx. split.
  - intros Hrt cycles.
    assert (H0 : xDomain (new o) = (lo, hi)) by (unfold new; now rewrite Hx).
    revert H0. generalize (new o).
    induction cycles as [|series rest IH]; intros m Hm; [exact Hm|].
    cbn [updates]. apply IH. now apply updateModel_fixed_xRange.
  - intros Hrt series m nonEmpty maxDomain. split.
    + intros Hne. now apply updateModel_realTime_slides.
    + intros Hnone. subst nonEmpty. unfold updateModel. rewrite Hnone.
      reflexivity.
Qed.

(** *** The range of a run of points *)

Lemma number_le_Fin u v : le (Fin u) (Fin v) <-> u <= v.
Proof. unfold le. cbn [ltb]. destruct (Z.ltb_spec v u); split; intros; try lia; try discriminate; reflexivity. Qed.

(** The loop of [calcMinMaxY], when it does not run past the array: the
    result bounds the accumulator and every point visited, and each of its
    two ends is the accumulator's or the y of a point visited. *)
Lemma calcMinMaxY_loop_spec arr count : forall i acc r,
  calcMinMaxY_loop arr i count acc = Some r ->
  le (min r) (min acc) /\ le (max acc) (max r) /\
  (forall k dp, i <= k < i + Z.of_nat count -> at_index arr k = Some dp ->
     le (min r) (Fin (y dp)) /\ le (Fin (y dp)) (max r)) /\
  (min r = min acc \/
   exists k dp, i <= k < i + Z.of_nat count /\ at_index arr k = Some dp
                /\ min r = Fin (y dp)) /\
  (max r = max acc \/
   exists k dp, i <= k < i + Z.of_nat count /\ at_index arr k = Some dp
                /\ max r = Fin (y dp)).
Proof.
  induction count as [|count IH]; intros i acc r E.
  - cbn [calcMinMaxY_loop] in E. injection E as <-.
    split; [apply le_refl|]. split; [apply le_refl|].
    split; [intros k dp Hk; lia|]. split; now left.
  - cbn [calcMinMaxY_loop] in E.
    destruct (at_index arr i) as [dp0|] eqn:E0; [|discriminate].
    apply IH in E. cbn [min max] in E.
    destruct E as (Hmin & Hmax & Hall & Hamin & Hamax).
    assert (Hmin0 : le (min r) (min acc) /\ le (min r) (Fin (y dp0))).
    { destruct (ltb (Fin (y dp0)) (min acc)) eqn:Et.
      - split; [|exact Hmin]. eapply le_trans; [exact Hmin|].
        unfold le. destruct (min acc); cbn [ltb] in *;
          try reflexivity; try discriminate.
        destruct (Z.ltb_spec (y dp0) z), (Z.ltb_spec z (y dp0));
          try reflexivity; try discriminate; lia.
      - split; [exact Hmin|]. eapply le_trans; [exact Hmin | exact Et]. }
    assert (Hmax0 : le (max acc) (max r) /\ le (Fin (y dp0)) (max r)).
    { destruct (ltb (max acc) (Fin (y dp0))) eqn:Et.
      - split; [|exact Hmax]. eapply le_trans; [|exact Hmax].
        unfold le. destruct (max acc); cbn [ltb] in *;
          try reflexivity; try discriminate.
        destruct (Z.ltb_spec z (y dp0)), (Z.ltb_spec (y dp0) z);
          try reflexivity; try discriminate; lia.
      - split; [exact Hmax|]. eapply le_trans; [exact Et | exact Hmax]. }
    split; [apply Hmin0|]. split; [apply Hmax0|]. split; [|split].
    + intros k dp Hk Hdp. destruct (Z.eq_dec k i) as [->|Hne].
      * rewrite E0 in Hdp. injection Hdp as <-. split; [apply Hmin0 | apply Hmax0].
      * apply (Hall k dp); [lia | exact Hdp].
    + destruct Hamin as [Ha|(k & dp & Hk & Hdp & Ha)].
      * destruct (ltb (Fin (y dp0)) (min acc)).
        -- right. exists i, dp0. split; [lia|]. split; assumption.
        -- now left.
      * right. exists k, dp. split; [lia|]. split; assumption.
    + destruct Hamax as [Ha|(k & dp & Hk & Hdp & Ha)].
      * destruct (ltb (max acc) (Fin (y dp0))).
        -- right. exists i, dp0. split; [lia|]. split; assumption.
        -- now left.
      * right. exists k, dp. split; [lia|]. split; assumption.
Qed.

Lemma calcMinMaxY_loop_returns arr count : forall i acc,
  0 <= i -> (count <> 0%nat -> i + Z.of_nat count <= len arr) ->
  exists r, calcMinMaxY_loop arr i count acc = Some r.
Proof.
  induction count as [|count IH]; intros i acc Hi Hend.
  - eexists. reflexivity.
  - cbn [calcMinMaxY_loop]. specialize (Hend ltac:(discriminate)).
    destruct (@at_index_inside _ arr i) as [dp ->]; [lia|].
    apply IH; lia.
Qed.

(** [calcMinMaxY] on a range inside the array returns. *)
Lemma calcMinMaxY_returns arr start end_ :
  0 <= start -> end_ <= len arr ->
  exists r, calcMinMaxY arr start end_ = Some r.
Proof.
  intros Hstart Hend. unfold calcMinMaxY.
  apply calcMinMaxY_loop_returns; lia.
Qed.

(** X9.  [calcMinMaxY(arr, start, end)] on a range inside the array
    returns a range that contains the y of every point from [start] up to,
    not including, [end]; for a non-empty range its [min] and its [max] are
    the y of points of the range, and for an empty one it is
    [{min: Infinity, max: -Infinity}]. *)
Theorem calcMinMaxY_bounds arr start end_ :
  0 <= start -> end_ <= len arr ->
  exists r,
    calcMinMaxY arr start end_ = Some r /\
    (forall i dp, start <= i < end_ -> at_index arr i = Some dp ->
       le (min r) (Fin (y dp)) /\ le (Fin (y dp)) (max r)) /\
    (start < end_ ->
     exists i j dpi dpj,
       start <= i < end_ /\ start <= j < end_ /\
       at_index arr i = Some dpi /\ at_index arr j = Some dpj /\
       min r = Fin (y dpi) /\ max r = Fin (y dpj)) /\
    (end_ <= start -> r = mkMinMax Infinity NegInfinity).
Proof.
  intros Hstart Hend. unfold calcMinMaxY.
  destruct (@calcMinMaxY_loop_returns arr (Z.to_nat (end_ - start)) start
              (mkMinMax Infinity NegInfinity)) as [r E]; [lia | lia |].
  exists r. split; [exact E|].
  pose proof E as E'.
  apply calcMinMaxY_loop_spec in E. cbn [min max] in E.
  destruct E as (_ & _ & Hall & Hamin & Hamax).
  split; [|split].
  - intros i dp Hi Hdp. apply (Hall i dp); [lia | exact Hdp].
  - intros Hlt.
    destruct (@at_index_inside _ arr start) as [dp0 Hdp0]; [lia|].
    destruct (Hall start dp0 ltac:(lia) Hdp0) as [Hlo Hhi].
    destruct Hamin as [Ha|(i & dpi & Hi & Hdpi & Ha)].
    { rewrite Ha in Hlo. discriminate Hlo. }
    destruct Hamax as [Hb|(j & dpj & Hj & Hdpj & Hb)].
    { rewrite Hb in Hhi. discriminate Hhi. }
    exists i, j, dpi, dpj. repeat split; try assumption; lia.
  - intros Hle. replace (Z.to_nat (end_ - start)) with 0%nat in E' by lia.
    cbn [calcMinMaxY_loop] in E'. now injection E' as <-.
Qed.

(** *** One update, more closely *)

Lemma all_some_In {A : Type} (l : list (option A)) (r : list A) (a : A) :
  all_some l = Some r -> In (Some a) l -> In a r.
Proof.
  revert r. induction l as [|[b|] l IH]; intros r E H; [contradiction | | discriminate].
  cbn [all_some] in E. destruct (all_some l) as [r'|]; [|discriminate].
  injection E as <-. destruct H as [H|H].
  - injection H as ->. now left.
  - right. now apply IH.
Qed.

Lemma all_some_None {A : Type} (l : list (option A)) (r : list A) :
  all_some l = Some r -> ~ In None l.
Proof.
  revert r. induction l as [|[b|] l IH]; intros r E H; [contradiction | | discriminate].
  cbn [all_some] in E. destruct (all_some l) as [r'|]; [|discriminate].
  destruct H as [H|H]; [discriminate|]. eapply IH; eauto.
Qed.

Lemma all_some_defined {A : Type} (l : list (option A)) :
  (forall a, In a l -> a <> None) -> exists r, all_some l = Some r.
Proof.
  induction l as [|[b|] l IH]; intros H.
  - now exists [].
  - destruct IH as [r E]; [intros a Ha; apply H; now right|].
    exists (b :: r). cbn [all_some]. now rewrite E.
  - exfalso. apply (H None); [now left | reflexivity].
Qed.

Lemma nonempty_filter series s :
  In s series -> 0 < length s ->
  In s (filter (fun s => 0 <? length s) series) /\
  (len (filter (fun s => 0 <? length s) series) =? 0) = false.
Proof.
  intros Hin Hlen.
  assert (H : In s (filter (fun s => 0 <? length s) series)).
  { apply filter_In. split; [exact Hin|]. now apply Z.ltb_lt. }
  split; [exact H|].
  destruct (filter _ series) as [|s0 l]; [contradiction|].
  rewrite len_cons. pose proof (len_nonneg l). apply Z.eqb_neq. lia.
Qed.

(** The model after the y part of [updateModel], given the ranges of the
    pushed points. *)
Lemma updateModel_y series m m' :
  updateModel nice minus o series m = (Returns tt, m') ->
  filter (fun s => 0 <? length s) series <> [] ->
  exists mm,
    all_some (flat_map (fun s =>
      [ calcMinMaxY (items s) 0 (pushed_front s);
        calcMinMaxY (items s) (length s - pushed_back s) (length s) ])
      (filter (fun s => 0 <? length s) series)) = Some mm /\
    yRange m' = Some (unionMinMax
                        match yRange m with Some r => mm ++ [r] | None => mm end).
Proof.
  unfold updateModel. intros E Hne.
  destruct (Z.eqb_spec (len (filter (fun s => 0 <? length s) series)) 0) as [E0|_].
  { destruct (filter _ series) as [|s0 l]; [contradiction|].
    rewrite len_cons in E0. pose proof (len_nonneg l). lia. }
  match type of E with
  | context [all_some ?l] => destruct (all_some l) as [mm|]
  end.
  - exists mm. split; [reflexivity|].
    destruct (realTime o), (xRangeOpt o), (yRangeOpt o), (yRange m);
      cbn [orb] in E; inversion E; reflexivity.
  - destruct (realTime o), (xRangeOpt o); cbn [orb] in E; discriminate E.
Qed.

(** X10.  After an [updateModel] that returns, the recorded y-range
    contains the y of every point that the counters of its series mark as
    pushed: the first [pushed_front] points and the last [pushed_back]
    points of each series. *)
Theorem yRange_covers_pushed series m m' s i dp :
  updateModel nice minus o series m = (Returns tt, m') ->
  In s series ->
  0 <= i < pushed_front s \/ length s - pushed_back s <= i < length s ->
  at_index (items s) i = Some dp ->
  exists r, yRange m' = Some r /\
            le (min r) (Fin (y dp)) /\ le (Fin (y dp)) (max r).
Proof.
  intros E Hin Hi Hdp.
  assert (Hlen : 0 < length s).
  { unfold length. destruct (Z.le_gt_cases (len (items s)) i) as [H|H].
    - rewrite at_index_beyond in Hdp by exact H. discriminate.
    - destruct (Z.lt_ge_cases i 0) as [H0|H0]; [|lia].
      rewrite at_index_negative in Hdp by exact H0. discriminate. }
  destruct (@nonempty_filter series s Hin Hlen) as [Hf Hne].
  destruct (@updateModel_y series m m' E) as (mm & Hmm & Hy).
  { intros H0. rewrite H0 in Hf. contradiction. }
  assert (Hcov : exists r0, In r0 mm /\
            le (min r0) (Fin (y dp)) /\ le (Fin (y dp)) (max r0)).
  { destruct Hi as [Hi|Hi].
    - destruct (calcMinMaxY (items s) 0 (pushed_front s)) as [r0|] eqn:Ec.
      + exists r0. split.
        * eapply all_some_In; [exact Hmm|]. apply in_flat_map. exists s.
          split; [exact Hf|]. rewrite Ec. now left.
        * unfold calcMinMaxY in Ec. apply calcMinMaxY_loop_spec in Ec.
          destruct Ec as (_ & _ & Hall & _). apply (Hall i dp); [lia | exact Hdp].
      + exfalso. eapply all_some_None; [exact Hmm|]. apply in_flat_map. exists s.
        split; [exact Hf|]. rewrite Ec. now left.
    - destruct (calcMinMaxY (items s) (length s - pushed_back s) (length s))
        as [r0|] eqn:Ec.
      + exists r0. split.
        * eapply all_some_In; [exact Hmm|]. apply in_flat_map. exists s.
          split; [exact Hf|]. rewrite Ec. right. now left.
        * unfold calcMinMaxY in Ec. apply calcMinMaxY_loop_spec in Ec.
          destruct Ec as (_ & _ & Hall & _). apply (Hall i dp); [lia | exact Hdp].
      + exfalso. eapply all_some_None; [exact Hmm|]. apply in_flat_map. exists s.
        split; [exact Hf|]. rewrite Ec. right. now left. }
  destruct Hcov as (r0 & Hr0 & Hlo & Hhi).
  eexists. split; [exact Hy|].
  assert (Hin' : In r0 match yRange m with Some r => mm ++ [r] | None => mm end).
  { destruct (yRange m); [apply in_or_app; now left | exact Hr0]. }
  destruct (@unionMinMax_covers _ _ Hin') as [H1 H2].
  split; eapply le_trans; eauto.
Qed.

(** [updateModel] returns when no [calcMinMaxY] call reads past an array. *)
Lemma updateModel_defined series m :
  (forall s, In s (filter (fun s => 0 <? length s) series) ->
     calcMinMaxY (items s) 0 (pushed_front s) <> None /\
     calcMinMaxY (items s) (length s - pushed_back s) (length s) <> None) ->
  exists m', updateModel nice minus o series m = (Returns tt, m').
Proof.
  intros H. unfold updateModel.
  destruct (len (filter _ series) =? 0); [now exists m|].
  match goal with
  | |- context [all_some ?l] => destruct (@all_some_defined _ l) as [mm ->]
  end.
  - intros a Ha. apply in_flat_map in Ha. destruct Ha as (s & Hs & Ha).
    destruct (H s Hs) as [H1 H2].
    destruct Ha as [<-|[<-|[]]]; assumption.
  - destruct (yRangeOpt o); eexists; reflexivity.
Qed.

(** X11.  [updateModel] never throws when the counters of every series
    are well-formed: both [calcMinMaxY] calls stay inside the array. *)
Theorem updateModel_returns series m :
  (forall s, In s series -> wf s) ->
  exists m', updateModel nice minus o series m = (Returns tt, m').
Proof.
  intros Hwf. apply updateModel_defined. intros s Hs.
  apply filter_In in Hs. destruct Hs as [Hs _].
  destruct (Hwf s Hs) as (Hpf & Hpb & _ & _ & Hsum).
  pose proof (length_nonneg s) as Hlen. unfold length in *.
  split.
  - destruct (@calcMinMaxY_returns (items s) 0 (pushed_front s)) as (r & ->);
      [lia | lia | discriminate].
  - destruct (@calcMinMaxY_returns (items s) (len (items s) - pushed_back s)
                (len (items s))) as (r & ->);
      [lia | lia | discriminate].
Qed.

Lemma unionMinMax_neutral mm r :
  (forall e, In e mm -> e = mkMinMax Infinity NegInfinity) ->
  unionMinMax (mm ++ [r]) = r.
Proof.
  intros H. unfold unionMinMax. destruct r as [lo hi].
  induction mm as [|e mm IH].
  - cbn [app map fold_right min max]. destruct lo, hi; reflexivity.
  - rewrite (H e) by now left.
    assert (IH' := IH (fun e' He' => H e' (or_intror He'))).
    injection IH' as Hlo Hhi.
    cbn [app map fold_right min max]. rewrite Hlo, Hhi.
    destruct lo, hi; reflexivity.
Qed.

(** X12.  An [updateModel] call that finds no pushed point (every series
    has [pushed_front] and [pushed_back] at zero, as after [_synced])
    returns and leaves the recorded y-range as it was. *)
Theorem updateModel_without_pushes series m r :
  (forall s, In s series -> pushed_front s = 0 /\ pushed_back s = 0) ->
  yRange m = Some r ->
  exists m', updateModel nice minus o series m = (Returns tt, m') /\
             yRange m' = Some r.
Proof.
  intros Hz Hr.
  assert (Hc : forall s, In s (filter (fun s => 0 <? length s) series) ->
            calcMinMaxY (items s) 0 (pushed_front s)
              = Some (mkMinMax Infinity NegInfinity) /\
            calcMinMaxY (items s) (length s - pushed_back s) (length s)
              = Some (mkMinMax Infinity NegInfinity)).
  { intros s Hs. apply filter_In in Hs. destruct Hs as [Hs _].
    destruct (Hz s Hs) as [-> ->]. unfold calcMinMaxY.
    replace (Z.to_nat (0 - 0)) with 0%nat by lia.
    replace (Z.to_nat (length s - (length s - 0))) with 0%nat by lia.
    split; reflexivity. }
  destruct (@updateModel_defined series m) as [m' E].
  { intros s Hs. destruct (Hc s Hs) as [-> ->]. split; discriminate. }
  exists m'. split; [exact E|].
  destruct (filter (fun s => 0 <? length s) series) as [|s0 l] eqn:Ef.
  - unfold updateModel in E. rewrite Ef in E. cbn in E.
    inversion E; subst. exact Hr.
  - destruct (@updateModel_y series m m' E) as (mm & Hmm & Hy).
    { rewrite Ef. discriminate. }
    rewrite Hy, Hr. f_equal. apply unionMinMax_neutral.
    intros e He. rewrite Ef in Hmm.
    assert (Hsome : forall a, In a (flat_map (fun s =>
              [ calcMinMaxY (items s) 0 (pushed_front s);
                calcMinMaxY (items s) (length s - pushed_back s) (length s) ])
              (s0 :: l)) -> a = Some (mkMinMax Infinity NegInfinity)).
    { intros a Ha. apply in_flat_map in Ha. destruct Ha as (s & Hs & Ha).
      destruct (Hc s Hs) as [H1 H2]. rewrite H1, H2 in Ha.
      destruct Ha as [<-|[<-|[]]]; reflexivity. }
    clear Hy. revert mm Hmm He Hsome.
    generalize (flat_map (fun s =>
              [ calcMinMaxY (items s) 0 (pushed_front s);
                calcMinMaxY (items s) (length s - pushed_back s) (length s) ])
              (s0 :: l)).
    induction l0 as [|[a|] l0 IH]; intros mm Hmm He Hsome.
    + injection Hmm as <-. contradiction.
    + cbn [all_some] in Hmm. destruct (all_some l0) as [r'|]; [|discriminate].
      injection Hmm as <-. destruct He as [<-|He].
      * assert (Ha := Hsome (Some a) (or_introl eq_refl)). now injection Ha.
      * apply (IH r' eq_refl He). intros a' Ha'. apply Hsome. now right.
    + discriminate.
Qed.

(** X13.  When no series holds a point, [updateModel] returns at once:
    the domains and the recorded ranges are untouched. *)
Theorem updateModel_no_data series m :
  (forall s, In s series -> length s = 0) ->
  updateModel nice minus o series m = (Returns tt, m).
Proof.
  intros H. unfold updateModel.
  replace (filter (fun s => 0 <? length s) series) with (@nil DataPointsBuffer);
    [reflexivity|].
  induction series as [|s l IH]; [reflexivity|].
  cbn [filter]. rewrite (H s) by now left. cbn [Z.ltb Z.compare].
  apply IH. intros s' Hs'. apply H. now right.
Qed.

(** *** The x-domain *)

Lemma fold_left_max_ge l : forall a,
  a <= fold_left Z.max l a /\ forall b, In b l -> b <= fold_left Z.max l a.
Proof.
  induction l as [|c l IH]; intros a; cbn [fold_left].
  - split; [lia | intros b []].
  - destruct (IH (Z.max a c)) as [H1 H2]. split; [lia|].
    intros b [<-|Hb]; [lia | now apply H2].
Qed.

Lemma fold_left_min_le l : forall a,
  fold_left Z.min l a <= a /\ forall b, In b l -> fold_left Z.min l a <= b.
Proof.
  induction l as [|c l IH]; intros a; cbn [fold_left].
  - split; [lia | intros b []].
  - destruct (IH (Z.min a c)) as [H1 H2]. split; [lia|].
    intros b [<-|Hb]; [lia | now apply H2].
Qed.

Lemma maximum_ge l d a : In a l -> a <= maximum l d.
Proof.
  destruct l as [|c l]; [contradiction|]. cbn [maximum].
  destruct (fold_left_max_ge l c) as [H1 H2].
  intros [<-|H]; [exact H1 | now apply H2].
Qed.

Lemma minimum_le l d a : In a l -> minimum l d <= a.
Proof.
  destruct l as [|c l]; [contradiction|]. cbn [minimum].
  destruct (fold_left_min_le l c) as [H1 H2].
  intros [<-|H]; [exact H1 | now apply H2].
Qed.

(** X15.  With [xRange: 'auto'] and real-time mode off, [updateModel]
    sets the x-domain to the recorded x-range of the data, which starts at or
    before the first x of every non-empty series and ends at or after its
    last x. *)
Theorem auto_xDomain_spans series m s :
  realTime o = false -> xRangeOpt o = Auto ->
  In s series -> 0 < length s ->
  let m' := snd (updateModel nice minus o series m) in
  xRange m' = Some (xDomain m') /\
  fst (xDomain m') <= first_x s /\ last_x s <= snd (xDomain m').
Proof.
  intros Hrt Hx Hin Hlen m'. subst m'.
  destruct (@nonempty_filter series s Hin Hlen) as [Hf Hne].
  unfold updateModel. rewrite Hne, Hrt, Hx. cbn [orb].
  assert (H1 : minimum (map first_x (filter (fun s => 0 <? length s) series)) 0
               <= first_x s) by (apply minimum_le; now apply in_map).
  assert (H2 : last_x s
               <= maximum (map last_x (filter (fun s => 0 <? length s) series)) 0)
    by (apply maximum_ge; now apply in_map).
  match goal with
  | |- context [all_some ?l] => destruct (all_some l) as [mm|]
  end.
  - destruct (yRange m), (yRangeOpt o); cbn [snd xRange xDomain fst];
      (split; [reflexivity|]); split; assumption.
  - cbn [snd xRange xDomain fst]. split; [reflexivity|]. split; assumption.
Qed.

(** *** The y-domain *)

Lemma updateModel_fixed_yRange lo hi series m :
  yRangeOpt o = Fixed lo hi ->
  yDomain m = (Fin lo, Fin hi) ->
  yDomain (snd (updateModel nice minus o series m)) = (Fin lo, Fin hi).
Proof.
  intros Hy Hm. unfold updateModel. rewrite Hy.
  destruct (len (filter _ series) =? 0); [exact Hm|].
  match goal with
  | |- context [all_some ?l] => destruct (all_some l) as [mm|]
  end.
  - reflexivity.
  - destruct (realTime o), (xRangeOpt o); cbn [orb snd yDomain]; exact Hm.
Qed.

(** X16.  A fixed y-range is always honoured: when one was configured,
    the y-domain equals the configured [min, max] after the constructor and
    after every [updateModel] call, in real-time mode too, whatever the
    series hold. *)
Theorem fixed_yRange_kept lo hi cycles :
  yRangeOpt o = Fixed lo hi ->
  yDomain (updates nice minus o cycles (new o)) = (Fin lo, Fin hi).
Proof.
  intros Hy.
  assert (H0 : yDomain (new o) = (Fin lo, Fin hi)) by (unfold new; now rewrite Hy).
  revert H0. generalize (new o).
  induction cycles as [|series rest IH]; intros m Hm; [exact Hm|].
  cbn [updates]. apply IH. now apply updateModel_fixed_yRange.
Qed.

End ModelProperties.

Section ModelExamples.

Import Buffer.
Import Model.

Lemma yRange_monotone_witness :
  exists r',
    yRange (updates (fun d => d) Z.sub (mkOptions false Auto Auto)
              [[Buffer.new [mkDataPoint 7 0; mkDataPoint 8 10]]; [after_pops]]
              (mkModel (0, 1) (Fin 0, Fin 1) None
                       (Some (mkMinMax (Fin 1) (Fin 5))))) = Some r' /\
    le (min r') (Fin 1) /\ le (Fin 5) (max r').
Proof.
  apply (@yRange_monotone (fun d => d) Z.sub (mkOptions false Auto Auto)
           [[Buffer.new [mkDataPoint 7 0; mkDataPoint 8 10]]; [after_pops]]
           (mkModel (0, 1) (Fin 0, Fin 1) None (Some (mkMinMax (Fin 1) (Fin 5))))
           (mkMinMax (Fin 1) (Fin 5))).
  reflexivity.
Defined.

Lemma fixed_xRange_kept_witness :
  xDomain (updates (fun d => d) Z.sub (mkOptions false (Fixed 0 10) Auto)
             [[Buffer.new [mkDataPoint 50 7]]; [after_pops]]
             (new (mkOptions false (Fixed 0 10) Auto))) = (0, 10) /\
  xDomain (snd (updateModel (fun d => d) Z.sub (mkOptions true (Fixed 0 10) Auto)
                  [Buffer.new [mkDataPoint 50 7]; Buffer.new []]
                  (new (mkOptions true (Fixed 0 10) Auto)))) = (40, 50).
Proof.
  split.
  - destruct (@fixed_xRange_kept (fun d => d) Z.sub
                (mkOptions false (Fixed 0 10) Auto) 0 10 eq_refl) as [H _].
    apply H. reflexivity.
  - destruct (@fixed_xRange_kept (fun d => d) Z.sub
                (mkOptions true (Fixed 0 10) Auto) 0 10 eq_refl) as [_ H].
    apply (H eq_refl [Buffer.new [mkDataPoint 50 7]; Buffer.new []]
             (new (mkOptions true (Fixed 0 10) Auto))).
    discriminate.
Defined.

(** C5 as stated fails: with [realTime] set, a fixed x-range of [0, 10] and
    one series whose last point has x = 50, a single [updateModel] slides
    the domain to [40, 50]. *)
Lemma fixed_xRange_realTime_counterexample :
  ~ (forall (nice : number * number -> number * number)
            (minus : Z -> Z -> Z) (o : Options)
            (lo hi : Z) (series : list DataPointsBuffer),
       xRangeOpt o = Fixed lo hi ->
       xDomain (snd (updateModel nice minus o series (new o))) = (lo, hi)).
Proof.
  intros H.
  specialize (H (fun d => d) Z.sub (mkOptions true (Fixed 0 10) Auto) 0 10
                [Buffer.new [mkDataPoint 50 7]] eq_refl).
  vm_compute in H. discriminate H.
Qed.

Lemma calcMinMaxY_bounds_witness :
  exists r, calcMinMaxY (items five) 1 4 = Some r /\
            le (min r) (Fin 5) /\ le (Fin 5) (max r).
Proof.
  destruct (@calcMinMaxY_bounds (items five) 1 4) as (r & E & Hall & _);
    [lia | vm_compute; discriminate |].
  exists r. split; [exact E|].
  apply (Hall 2 (mkDataPoint 2 5)); [lia | reflexivity].
Defined.

Lemma yRange_covers_pushed_witness :
  exists r,
    yRange (snd (updateModel (fun d => d) Z.sub (mkOptions false Auto Auto)
                   [Buffer.new [mkDataPoint 7 0; mkDataPoint 8 10]]
                   (new (mkOptions false Auto Auto)))) = Some r /\
    le (min r) (Fin 10) /\ le (Fin 10) (max r).
Proof.
  apply (@yRange_covers_pushed (fun d => d) Z.sub (mkOptions false Auto Auto)
           [Buffer.new [mkDataPoint 7 0; mkDataPoint 8 10]]
           (new (mkOptions false Auto Auto)) _
           (Buffer.new [mkDataPoint 7 0; mkDataPoint 8 10]) 1 (mkDataPoint 8 10));
    [ reflexivity | now left
    | right; vm_compute; split; [discriminate | reflexivity]
    | reflexivity ].
Defined.

Lemma updateModel_returns_witness :
  exists m',
    updateModel (fun d => d) Z.sub (mkOptions false Auto Auto) [five]
                (new (mkOptions false Auto Auto)) = (Returns tt, m').
Proof.
  apply (@updateModel_returns (fun d => d) Z.sub (mkOptions false Auto Auto) [five]).
  intros s [<-|[]]. exact five_wf.
Defined.

Lemma updateModel_without_pushes_witness :
  exists m',
    updateModel (fun d => d) Z.sub (mkOptions false Auto Auto) [five]
                (mkModel (0, 1) (Fin 0, Fin 1) None
                         (Some (mkMinMax (Fin 1) (Fin 5)))) = (Returns tt, m') /\
    yRange m' = Some (mkMinMax (Fin 1) (Fin 5)).
Proof.
  apply (@updateModel_without_pushes (fun d => d) Z.sub (mkOptions false Auto Auto) [five]).
  - intros s [<-|[]]. split; reflexivity.
  - reflexivity.
Defined.

Lemma updateModel_no_data_witness :
  updateModel (fun d => d) Z.sub (mkOptions true Auto Auto) [Buffer.new []]
              (new (mkOptions true Auto Auto))
  = (Returns tt, new (mkOptions true Auto Auto)).
Proof.
  apply (@updateModel_no_data (fun d => d) Z.sub (mkOptions true Auto Auto) [Buffer.new []]).
  intros s [<-|[]]. reflexivity.
Defined.

Lemma auto_xDomain_spans_witness :
  let m' := snd (updateModel (fun d => d) Z.sub (mkOptions false Auto Auto)
                   [five; Buffer.new [mkDataPoint 50 7]]
                   (new (mkOptions false Auto Auto))) in
  xRange m' = Some (xDomain m') /\
  fst (xDomain m') <= 0 /\ 4 <= snd (xDomain m').
Proof.
  apply (@auto_xDomain_spans (fun d => d) Z.sub (mkOptions false Auto Auto)
           [five; Buffer.new [mkDataPoint 50 7]]
           (new (mkOptions false Auto Auto)) five);
    [reflexivity | reflexivity | now left | reflexivity].
Defined.

Lemma fixed_yRange_kept_witness :
  yDomain (updates (fun d => d) Z.sub (mkOptions true Auto (Fixed 0 10))
             [[Buffer.new [mkDataPoint 50 70]]; [after_pops]]
             (new (mkOptions true Auto (Fixed 0 10)))) = (Fin 0, Fin 10).
Proof.
  apply (@fixed_yRange_kept (fun d => d) Z.sub (mkOptions true Auto (Fixed 0 10))
           0 10 [[Buffer.new [mkDataPoint 50 70]]; [after_pops]]).
  reflexivity.
Defined.

End ModelExamples.

(** ** Segments *)

Section SegmentProperties.

Import Buffer.
Import LineChart.

Context {F : Float32}.

Lemma WIDTH_eq : BUFFER_TEXTURE_WIDTH = 256.
Proof. capacities. reflexivity. Qed.

Lemma HEIGHT_eq : BUFFER_TEXTURE_HEIGHT = 2048.
Proof. capacities. reflexivity. Qed.

Lemma POINT_CAPACITY_eq : BUFFER_POINT_CAPACITY = 524288.
Proof. capacities. reflexivity. Qed.

Lemma INTERVAL_CAPACITY_eq : BUFFER_INTERVAL_CAPACITY = 524286.
Proof. capacities. reflexivity. Qed.

(** Goals of integer arithmetic with the capacities and with divisions. *)
Ltac arith :=
  rewrite ?WIDTH_eq, ?HEIGHT_eq, ?POINT_CAPACITY_eq, ?INTERVAL_CAPACITY_eq in *;
  unfold floor_div, ceil_div in *;
  Z.div_mod_to_equations; lia.

(** *** Lists of reads *)

Lemma all_some_map_Some {A : Type} (l : list A) : all_some (map Some l) = Some l.
Proof.
  induction l as [|a l IH]; [reflexivity|].
  cbn [map all_some]. now rewrite IH.
Qed.

Lemma map_flat_map {A B C : Type} (g : B -> C) (f : A -> list B) (l : list A) :
  map g (flat_map f l) = flat_map (fun a => map g (f a)) l.
Proof.
  induction l as [|a l IH]; [reflexivity|].
  cbn [flat_map]. now rewrite map_app, IH.
Qed.

Lemma Zrange_length lo count : List.length (Zrange lo count) = count.
Proof. unfold Zrange. now rewrite length_map, length_seq. Qed.

Lemma Zrange_nth lo count k :
  (k < count)%nat -> nth_error (Zrange lo count) k = Some (lo + Z.of_nat k).
Proof.
  intros H. unfold Zrange.
  rewrite nth_error_map, nth_error_seq.
  destruct (Nat.ltb_spec k count); [reflexivity | lia].
Qed.

(** A cell of a buffer filled row by row, all rows of width [w]. *)
Lemma nth_error_rows {A B : Type} (f : A -> list B) (w : nat) (l : list A) :
  (forall a, List.length (f a) = w) ->
  forall i c a, nth_error l i = Some a -> (c < w)%nat ->
  nth_error (flat_map f l) (i * w + c) = nth_error (f a) c.
Proof.
  intros Hw. induction l as [|a0 l IH]; intros i c a Hi Hc.
  - destruct i; discriminate.
  - cbn [flat_map]. destruct i as [|i].
    + injection Hi as ->. cbn [Nat.mul Nat.add].
      rewrite nth_error_app1; [reflexivity | rewrite Hw; exact Hc].
    + cbn [nth_error] in Hi.
      rewrite nth_error_app2 by (rewrite Hw; nia).
      rewrite Hw. replace (S i * w + c - w)%nat with (i * w + c)%nat by nia.
      now apply IH.
Qed.

Lemma length_rows {A B : Type} (f : A -> list B) (w : nat) (l : list A) :
  (forall a, List.length (f a) = w) ->
  List.length (flat_map f l) = (List.length l * w)%nat.
Proof.
  intros Hw. induction l as [|a l IH]; [reflexivity|].
  cbn [flat_map List.length]. rewrite length_app, Hw, IH. lia.
Qed.

(** *** The source index *)

Lemma sourceIndex_bounds start bufferPos length p :
  0 < length -> 0 <= sourceIndex start bufferPos length p <= length - 1.
Proof. unfold sourceIndex. lia. Qed.

Lemma sourceIndex_cases start bufferPos length p :
  0 < length ->
  let s := start + p - bufferPos in
  (s < 0 -> sourceIndex start bufferPos length p = 0) /\
  (length <= s -> sourceIndex start bufferPos length p = length - 1) /\
  (0 <= s < length -> sourceIndex start bufferPos length p = s).
Proof. unfold sourceIndex. lia. Qed.

Lemma at_index_nth {A : Type} (l : list A) (i : Z) (d : A) :
  0 <= i < len l -> at_index l i = Some (nth (Z.to_nat i) l d).
Proof.
  intros H. unfold at_index. destruct (Z.ltb_spec i 0); [lia|].
  apply nth_error_nth'. unfold len in H. lia.
Qed.

Lemma nonempty_len {A : Type} (l : list A) : l <> [] -> 0 < len l.
Proof. destruct l; [contradiction|]. intros _. rewrite len_cons. pose proof (len_nonneg l). lia. Qed.

(** *** syncPoints *)

Lemma syncPoints_reads_points dataPoints start bufferPos rowStart rowEnd :
  dataPoints <> [] ->
  syncPoints_reads dataPoints start bufferPos rowStart rowEnd =
  map Some (syncPoints_points dataPoints start bufferPos rowStart rowEnd).
Proof.
  intros Hne. apply nonempty_len in Hne.
  unfold syncPoints_reads, syncPoints_points.
  rewrite map_flat_map. apply flat_map_ext. intros r.
  rewrite map_map. apply map_ext. intros c. cbv zeta.
  apply at_index_nth.
  pose proof (sourceIndex_bounds start bufferPos (r * BUFFER_TEXTURE_WIDTH + c) Hne).
  lia.
Qed.

Lemma syncPoints_cells_length dataPoints start bufferPos rowStart rowEnd :
  rowStart <= rowEnd ->
  len (syncPoints_cells dataPoints start bufferPos rowStart rowEnd)
  = (rowEnd - rowStart) * BUFFER_TEXTURE_WIDTH.
Proof.
  intros H. unfold len, syncPoints_cells, syncPoints_points.
  rewrite length_map.
  rewrite (@length_rows _ _ _ (Z.to_nat BUFFER_TEXTURE_WIDTH)).
  - rewrite Zrange_length. rewrite WIDTH_eq. lia.
  - intros r. now rewrite length_map, Zrange_length.
Qed.

Lemma syncPoints_points_nth dataPoints start bufferPos rowStart rowEnd r c :
  dataPoints <> [] ->
  rowStart <= r < rowEnd -> 0 <= c < BUFFER_TEXTURE_WIDTH ->
  nth_error (syncPoints_points dataPoints start bufferPos rowStart rowEnd)
            (Z.to_nat ((r - rowStart) * BUFFER_TEXTURE_WIDTH + c))
  = at_index dataPoints
      (sourceIndex start bufferPos (len dataPoints) (r * BUFFER_TEXTURE_WIDTH + c)).
Proof.
  intros Hne Hr Hc. pose proof (nonempty_len Hne) as Hlen.
  unfold syncPoints_points.
  replace (Z.to_nat ((r - rowStart) * BUFFER_TEXTURE_WIDTH + c))
    with (Z.to_nat (r - rowStart) * Z.to_nat BUFFER_TEXTURE_WIDTH + Z.to_nat c)%nat
    by (rewrite WIDTH_eq in *; lia).
  assert (Hi : nth_error (Zrange rowStart (Z.to_nat (rowEnd - rowStart)))
                         (Z.to_nat (r - rowStart)) = Some r).
  { rewrite Zrange_nth by lia. f_equal. lia. }
  rewrite (@nth_error_rows _ _ _ (Z.to_nat BUFFER_TEXTURE_WIDTH) _
             (fun a => eq_trans (length_map _ _) (Zrange_length _ _))
             _ (Z.to_nat c) r Hi) by (rewrite WIDTH_eq in *; lia).
  rewrite nth_error_map, Zrange_nth by (rewrite WIDTH_eq in *; lia).
  cbn [option_map]. rewrite Z.add_0_l, Z2Nat.id by lia.
  symmetry. apply at_index_nth.
  pose proof (sourceIndex_bounds start bufferPos (r * BUFFER_TEXTURE_WIDTH + c) Hlen).
  lia.
Qed.

(** A cell of the temporary buffer holds the point read for it, rounded. *)
Lemma syncPoints_cells_nth dataPoints start bufferPos rowStart rowEnd r c :
  dataPoints <> [] ->
  rowStart <= r < rowEnd -> 0 <= c < BUFFER_TEXTURE_WIDTH ->
  nth_error (syncPoints_cells dataPoints start bufferPos rowStart rowEnd)
            (Z.to_nat ((r - rowStart) * BUFFER_TEXTURE_WIDTH + c))
  = option_map float32
      (at_index dataPoints
         (sourceIndex start bufferPos (len dataPoints)
                      (r * BUFFER_TEXTURE_WIDTH + c))).
Proof.
  intros Hne Hr Hc. unfold syncPoints_cells.
  rewrite nth_error_map. now rewrite syncPoints_points_nth.
Qed.

(** On a non-empty buffer [syncPoints] returns, having uploaded the rows of
    [syncPoints_rows] filled with [syncPoints_cells]. *)
Lemma syncPoints_returns t dataPoints start n bufferPos g rowStart rowEnd :
  dataPoints <> [] ->
  syncPoints_rows start n bufferPos (len dataPoints) = (rowStart, rowEnd) ->
  rowStart <= rowEnd ->
  syncPoints t dataPoints start n bufferPos g =
  Returns (g ++ [texSubImage2D t rowStart (rowEnd - rowStart)
                   (syncPoints_cells dataPoints start bufferPos rowStart rowEnd)]).
Proof.
  intros Hne Hrows Hle.
  with_strategy transparent [syncPoints] unfold syncPoints.
  rewrite Hrows.
  destruct (Z.ltb_spec (rowEnd - rowStart) 0); [lia|].
  now rewrite syncPoints_reads_points, all_some_map_Some.
Qed.

Lemma syncPoints_rows_ordered start n bufferPos length rowStart rowEnd :
  0 <= n ->
  syncPoints_rows start n bufferPos length = (rowStart, rowEnd) ->
  rowStart <= rowEnd.
Proof.
  intros Hn. unfold syncPoints_rows. intros E.
  repeat match type of E with
  | context [if ?c then _ else _] => destruct c
  end; injection E as <- <-; arith.
Qed.

(** C8, as the code has it.  For a call [syncPoints(start, n, bufferPos)]
    with [n >= 0] on a non-empty buffer, the call returns after one upload
    of whole rows of texture [t].  The rows run from
    [rowStart = floor(bufferPos / W)] up to, not including,
    [rowEnd = ceil((bufferPos + n) / W)], with one more row in front when a
    row exists there ([rowStart > 0]), [bufferPos] is row-aligned and
    [start = 0], and one more row behind when a row exists there
    ([rowEnd < H]), [bufferPos + n] is row-aligned and [start + n] is the
    length of the sequence. *)
Theorem syncPoints_uploaded_rows t dataPoints start n bufferPos g :
  dataPoints <> [] ->
  0 <= n ->
  let W := BUFFER_TEXTURE_WIDTH in
  let rowStart := floor_div bufferPos W in
  let rowEnd := ceil_div (bufferPos + n) W in
  let before :=
    (0 <? rowStart) && (start =? 0) && (bufferPos mod W =? 0) in
  let behind :=
    (rowEnd <? BUFFER_TEXTURE_HEIGHT) && (start + n =? len dataPoints)
    && ((bufferPos + n) mod W =? 0) in
  let first := rowStart - Z.b2z before in
  let last := rowEnd + Z.b2z behind in
  rowStart * W <= bufferPos < (rowStart + 1) * W /\
  (rowEnd - 1) * W < bufferPos + n <= rowEnd * W /\
  exists buffer,
    syncPoints t dataPoints start n bufferPos g =
      Returns (g ++ [texSubImage2D t first (last - first) buffer]) /\
    len buffer = (last - first) * W.
Proof.
  intros Hne Hn W rowStart rowEnd before behind first last.
  split; [subst W rowStart; arith|].
  split; [subst W rowEnd; arith|].
  assert (Hrows : syncPoints_rows start n bufferPos (len dataPoints) = (first, last)).
  { unfold syncPoints_rows. fold W. fold rowStart. fold rowEnd.
    subst first last before behind. f_equal.
    - replace (bufferPos mod W =? 0) with (bufferPos =? rowStart * W).
      + destruct ((0 <? rowStart) && (start =? 0) && (bufferPos =? rowStart * W));
          cbn [Z.b2z]; lia.
      + subst W rowStart.
        destruct (Z.eqb_spec bufferPos (floor_div bufferPos BUFFER_TEXTURE_WIDTH
                                        * BUFFER_TEXTURE_WIDTH));
          destruct (Z.eqb_spec (bufferPos mod BUFFER_TEXTURE_WIDTH) 0);
          try reflexivity; exfalso; arith.
    - replace ((bufferPos + n) mod W =? 0) with (bufferPos + n =? rowEnd * W).
      + destruct ((rowEnd <? BUFFER_TEXTURE_HEIGHT) && (start + n =? len dataPoints)
                  && (bufferPos + n =? rowEnd * W)); cbn [Z.b2z]; lia.
      + subst W rowEnd.
        destruct (Z.eqb_spec (bufferPos + n)
                    (ceil_div (bufferPos + n) BUFFER_TEXTURE_WIDTH
                     * BUFFER_TEXTURE_WIDTH));
          destruct (Z.eqb_spec ((bufferPos + n) mod BUFFER_TEXTURE_WIDTH) 0);
          try reflexivity; exfalso; arith. }
  assert (Hle : first <= last)
    by (eapply syncPoints_rows_ordered; eassumption).
  exists (syncPoints_cells dataPoints start bufferPos first last). split.
  - now apply syncPoints_returns.
  - now apply syncPoints_cells_length.
Qed.

(** C10, as the code has it.  On a non-empty buffer, for every cell [(r, c)]
    of the rows that [syncPoints] uploads, the source index read is
    [start + p - bufferPos] clamped into [0, length - 1], so the read is
    never out of bounds, and the cell holds the coordinates of the data point
    at that index, rounded to single precision as the [Float32Array] stores
    them: those of the first point when the unclamped index is negative, of
    the last point when it is [length] or more, and otherwise of the point at
    the index itself, whether or not the index lies in [start, start + n). *)
Theorem syncPoints_reads_clamped t dataPoints start n bufferPos g rowStart rowEnd :
  dataPoints <> [] ->
  0 <= n ->
  syncPoints_rows start n bufferPos (len dataPoints) = (rowStart, rowEnd) ->
  exists buffer,
    syncPoints t dataPoints start n bufferPos g =
      Returns (g ++ [texSubImage2D t rowStart (rowEnd - rowStart) buffer]) /\
    forall r c,
      rowStart <= r < rowEnd -> 0 <= c < BUFFER_TEXTURE_WIDTH ->
      let p := r * BUFFER_TEXTURE_WIDTH + c in
      let s := start + p - bufferPos in
      let i := sourceIndex start bufferPos (len dataPoints) p in
      0 <= i <= len dataPoints - 1 /\
      (exists dp, at_index dataPoints i = Some dp /\
         nth_error buffer (Z.to_nat ((r - rowStart) * BUFFER_TEXTURE_WIDTH + c))
           = Some (float32 dp)) /\
      (s < 0 -> i = 0) /\
      (len dataPoints <= s -> i = len dataPoints - 1) /\
      (0 <= s < len dataPoints -> i = s).
Proof.
  intros Hne Hn Hrows. pose proof (nonempty_len Hne) as Hlen.
  assert (Hle : rowStart <= rowEnd)
    by (eapply syncPoints_rows_ordered; eassumption).
  exists (syncPoints_cells dataPoints start bufferPos rowStart rowEnd). split.
  - now apply syncPoints_returns.
  - intros r c Hr Hc p s i.
    pose proof (sourceIndex_bounds start bufferPos p Hlen) as Hi. fold i in Hi.
    split; [exact Hi|]. split.
    + exists (nth (Z.to_nat i) dataPoints (mkDataPoint 0 0)). split.
      * apply at_index_nth. lia.
      * subst i p. rewrite syncPoints_cells_nth by assumption.
        rewrite (@at_index_nth _ dataPoints _ (mkDataPoint 0 0)) by lia.
        reflexivity.
    + apply (sourceIndex_cases start bufferPos p Hlen).
Qed.

(** *** Uploads and texels *)

Lemma syncPoints_upload_returns t dataPoints start n bufferPos g :
  dataPoints <> [] -> 0 <= n ->
  syncPoints t dataPoints start n bufferPos g =
  Returns (g ++ [syncPoints_upload t dataPoints start n bufferPos]).
Proof.
  intros Hne Hn. unfold syncPoints_upload.
  destruct (syncPoints_rows start n bufferPos (len dataPoints)) as [rs re] eqn:E.
  apply syncPoints_returns; [assumption | assumption |].
  eapply syncPoints_rows_ordered; eassumption.
Qed.

Lemma syncPoints_cells_at dataPoints start bufferPos rowStart rowEnd p :
  dataPoints <> [] ->
  rowStart * BUFFER_TEXTURE_WIDTH <= p < rowEnd * BUFFER_TEXTURE_WIDTH ->
  nth_error (syncPoints_cells dataPoints start bufferPos rowStart rowEnd)
            (Z.to_nat (p - rowStart * BUFFER_TEXTURE_WIDTH))
  = option_map float32
      (at_index dataPoints (sourceIndex start bufferPos (len dataPoints) p)).
Proof.
  intros Hne Hp.
  pose (r := p / BUFFER_TEXTURE_WIDTH). pose (c := p mod BUFFER_TEXTURE_WIDTH).
  assert (Hrc : p = r * BUFFER_TEXTURE_WIDTH + c /\ 0 <= c < BUFFER_TEXTURE_WIDTH
                /\ rowStart <= r < rowEnd) by (subst r c; arith).
  destruct Hrc as (Hpe & Hc & Hr).
  replace (p - rowStart * BUFFER_TEXTURE_WIDTH)
    with ((r - rowStart) * BUFFER_TEXTURE_WIDTH + c) by lia.
  rewrite syncPoints_cells_nth by assumption. now rewrite <- Hpe.
Qed.

(** A cell inside the latest upload to [t] holds the data point at its
    clamped source index, rounded. *)
Lemma texel_upload_hit older t dataPoints start n bufferPos rs re p :
  dataPoints <> [] ->
  syncPoints_rows start n bufferPos (len dataPoints) = (rs, re) ->
  rs * BUFFER_TEXTURE_WIDTH <= p < re * BUFFER_TEXTURE_WIDTH ->
  texel_latest (syncPoints_upload t dataPoints start n bufferPos :: older) t p
  = option_map float32
      (at_index dataPoints (sourceIndex start bufferPos (len dataPoints) p)).
Proof.
  intros Hne Hrows Hp. unfold syncPoints_upload.
  rewrite Hrows. cbn [texel_latest]. rewrite Nat.eqb_refl. cbn [andb].
  destruct (Z.leb_spec (rs * BUFFER_TEXTURE_WIDTH) p); [|lia].
  destruct (Z.ltb_spec p ((rs + (re - rs)) * BUFFER_TEXTURE_WIDTH)); [|lia].
  cbn [andb]. now apply syncPoints_cells_at.
Qed.

Lemma texel_upload_miss older t t' dataPoints start n bufferPos rs re p :
  syncPoints_rows start n bufferPos (len dataPoints) = (rs, re) ->
  t' <> t \/ p < rs * BUFFER_TEXTURE_WIDTH \/ re * BUFFER_TEXTURE_WIDTH <= p ->
  texel_latest (syncPoints_upload t' dataPoints start n bufferPos :: older) t p
  = texel_latest older t p.
Proof.
  intros Hrows Hp. unfold syncPoints_upload.
  rewrite Hrows. cbn [texel_latest].
  destruct (Nat.eqb_spec t' t); cbn [andb]; [|reflexivity].
  destruct (Z.leb_spec (rs * BUFFER_TEXTURE_WIDTH) p); cbn [andb]; [|reflexivity].
  destruct (Z.ltb_spec p ((rs + (re - rs)) * BUFFER_TEXTURE_WIDTH));
    [exfalso; lia | reflexivity].
Qed.

Lemma texel_create_other older t t' p :
  t' <> t -> texel_latest (createTexture t' :: older) t p = texel_latest older t p.
Proof.
  intros H. cbn [texel_latest].
  destruct (Nat.eqb_spec t' t); [contradiction | reflexivity].
Qed.

Lemma texel_delete_other older t t' p :
  t' <> t -> texel_latest (deleteTexture t' :: older) t p = texel_latest older t p.
Proof.
  intros H. cbn [texel_latest].
  destruct (Nat.eqb_spec t' t); [contradiction | reflexivity].
Qed.

Lemma at_index_app1 {A : Type} (l1 l2 : list A) (i : Z) :
  0 <= i < len l1 -> at_index (l1 ++ l2) i = at_index l1 i.
Proof.
  intros H. unfold at_index. destruct (Z.ltb_spec i 0); [lia|].
  apply nth_error_app1. unfold len in H. lia.
Qed.

Lemma at_index_app_last {A : Type} (l : list A) (a : A) (i : Z) :
  i = len l -> at_index (l ++ [a]) i = Some a.
Proof.
  intros ->. unfold at_index. pose proof (len_nonneg l).
  destruct (Z.ltb_spec (len l) 0); [lia|].
  unfold len. rewrite Nat2Z.id, nth_error_app2, Nat.sub_diag by lia. reflexivity.
Qed.

(** *** The two filling loops *)

Lemma pushBack_loop_unfold st :
  pushBack_loop st =
  match pushBack_body st with
  | Throws e => Throws e
  | Returns (Break st') => Returns (fst st')
  | Returns (Continue st') => pushBack_loop st'
  end.
Proof.
  funelim (pushBack_loop st);
    match goal with E : pushBack_body _ = _ |- _ => now rewrite E end.
Qed.

Lemma pushFront_loop_unfold st :
  pushFront_loop st =
  match pushFront_body st with
  | Throws e => Throws e
  | Returns (Break st') => Returns (fst st')
  | Returns (Continue st') => pushFront_loop st'
  end.
Proof.
  funelim (pushFront_loop st);
    match goal with E : pushFront_body _ = _ |- _ => now rewrite E end.
Qed.

(** The last round of [pushBack]: what is left fits the active segment. *)
Lemma pushBack_loop_break a numDPtoAdd t rest :
  rev (segments a) = t :: rest ->
  items (data a) <> [] ->
  0 <= numDPtoAdd ->
  validEnd a + numDPtoAdd < BUFFER_POINT_CAPACITY ->
  pushBack_loop (a, numDPtoAdd) =
  Returns (mkSeries
             (gl a ++ [syncPoints_upload t (items (data a))
                         (length (data a) - numDPtoAdd) numDPtoAdd (validEnd a)])
             (data a) (segments a) (validStart a) (validEnd a + numDPtoAdd)).
Proof.
  intros Hseg Hne Hnum Hfit.
  rewrite pushBack_loop_unfold. unfold pushBack_body. rewrite Hseg.
  rewrite (Z.min_r (BUFFER_POINT_CAPACITY - validEnd a) numDPtoAdd) by lia.
  rewrite syncPoints_upload_returns by assumption.
  destruct (Z.ltb_spec (validEnd a + numDPtoAdd) BUFFER_POINT_CAPACITY); [|lia].
  reflexivity.
Qed.

(** A round of [pushBack] that fills the active segment: a new segment is
    appended and the loop goes on with it. *)
Lemma pushBack_loop_continue a numDPtoAdd t rest :
  rev (segments a) = t :: rest ->
  items (data a) <> [] ->
  validEnd a <= BUFFER_POINT_CAPACITY ->
  BUFFER_POINT_CAPACITY <= validEnd a + numDPtoAdd ->
  let n := BUFFER_POINT_CAPACITY - validEnd a in
  let g := gl a ++ [syncPoints_upload t (items (data a))
                      (length (data a) - numDPtoAdd) n (validEnd a)] in
  pushBack_loop (a, numDPtoAdd) =
  pushBack_loop
    (mkSeries (g ++ [createTexture (List.length g)]) (data a)
              (segments a ++ [List.length g]) (validStart a) 0,
     numDPtoAdd - (BUFFER_INTERVAL_CAPACITY - validEnd a)).
Proof.
  intros Hseg Hne Hve Hfull n g.
  rewrite pushBack_loop_unfold at 1. unfold pushBack_body. rewrite Hseg.
  rewrite (Z.min_l (BUFFER_POINT_CAPACITY - validEnd a) numDPtoAdd) by lia.
  fold n. rewrite syncPoints_upload_returns by (subst n; auto; lia). fold g.
  destruct (Z.ltb_spec (validEnd a + n) BUFFER_POINT_CAPACITY); [subst n; lia|].
  reflexivity.
Qed.

(** *** Bootstrap of the chain *)

Ltac chain_fields :=
  unfold mutate, set_data, deinit, LineChart.new, Buffer.new, set_items,
    set_pushed_back, set_pushed_front, set_poped_back, set_poped_front in *;
  cbn [gl data segments validStart validEnd andThen
       items pushed_back pushed_front poped_back poped_front
       fst snd app map rev List.length] in *;
  rewrite ?len_cons, ?len_nil in *.

Ltac capacity_values :=
  rewrite ?WIDTH_eq, ?HEIGHT_eq, ?POINT_CAPACITY_eq, ?INTERVAL_CAPACITY_eq in *.

(** Settles one conditional of the goal whose test the hypotheses decide. *)
Ltac settled := solve [exfalso; capacity_values; lia].

Ltac decide_test :=
  match goal with
  | |- context [if ?a <? ?b then _ else _] =>
      first [ destruct (Z.ltb_spec a b); [settled|]
            | destruct (Z.ltb_spec a b); [|settled] ]
  | |- context [if ?a <=? ?b then _ else _] =>
      first [ destruct (Z.leb_spec a b); [settled|]
            | destruct (Z.leb_spec a b); [|settled] ]
  | |- context [if ?a =? ?b then _ else _] =>
      first [ destruct (Z.eqb_spec a b); [settled|]
            | destruct (Z.eqb_spec a b); [|settled] ]
  end.

Lemma pushes_on_empty calls :
  mutate (each push calls) (LineChart.new [] (Buffer.new [])) =
  mkSeries [] (mkBuffer (concat calls) (len (concat calls)) 0 0 0) [] 0 0.
Proof.
  unfold mutate, set_data, LineChart.new. cbn [data gl segments validStart validEnd].
  rewrite each_push. reflexivity.
Qed.

Ltac chain_eq :=
  repeat match goal with
  | |- Returns _ = Returns _ => f_equal
  | |- mkSeries _ _ _ _ _ = mkSeries _ _ _ _ _ => f_equal
  | |- mkBuffer _ _ _ _ _ = mkBuffer _ _ _ _ _ => f_equal
  | |- _ :: _ = _ :: _ => f_equal
  | |- syncPoints_upload _ _ _ _ _ = syncPoints_upload _ _ _ _ _ => f_equal
  | |- createTexture _ = createTexture _ => f_equal
  | |- deleteTexture _ = deleteTexture _ => f_equal
  end; try reflexivity; try lia.

Lemma first_sync pts :
  len pts = BUFFER_INTERVAL_CAPACITY ->
  syncBuffer (mkSeries [] (mkBuffer pts (len pts) 0 0 0) [] 0 0) =
  Returns (mkSeries
             [createTexture 0%nat;
              syncPoints_upload 0%nat pts 0 BUFFER_INTERVAL_CAPACITY 1]
             (mkBuffer pts BUFFER_INTERVAL_CAPACITY 0 0 0) [0%nat]
             1 (BUFFER_POINT_CAPACITY - 1)).
Proof.
  intros Hlen.
  assert (Hne : pts <> []).
  { intros ->. rewrite len_nil, INTERVAL_CAPACITY_eq in Hlen. discriminate. }
  rewrite Hlen.
  unfold syncBuffer, length. chain_fields. rewrite ?Hlen.
  repeat (decide_test; chain_fields; rewrite ?Hlen).
  unfold pushBack, newArray. chain_fields.
  decide_test.
  erewrite pushBack_loop_break;
    [ | reflexivity | assumption | lia | chain_fields; capacity_values; lia ].
  unfold length. chain_fields. rewrite ?Hlen. chain_eq.
Qed.

(** The owning cycle has cleared the counters before the next point is
    pushed. *)
Lemma second_sync_resynced pts q g :
  len pts = BUFFER_INTERVAL_CAPACITY ->
  syncBuffer (mkSeries g (mkBuffer (pts ++ [q]) 1 0 0 0) [0%nat]
                       1 (BUFFER_POINT_CAPACITY - 1)) =
  Returns
    (mkSeries
       (g ++ [syncPoints_upload 0%nat (pts ++ [q]) BUFFER_INTERVAL_CAPACITY 1
                (BUFFER_POINT_CAPACITY - 1);
              createTexture (S (List.length g));
              syncPoints_upload (S (List.length g)) (pts ++ [q])
                (BUFFER_INTERVAL_CAPACITY - 1) 2 0])
       (mkBuffer (pts ++ [q]) 1 0 0 0) [0%nat; S (List.length g)] 1 2).
Proof.
  intros Hlen.
  assert (Hlen' : len (pts ++ [q]) = BUFFER_INTERVAL_CAPACITY + 1).
  { rewrite len_app, len_cons, len_nil. lia. }
  assert (Hne : pts ++ [q] <> []) by (destruct pts; discriminate).
  unfold syncBuffer, length. chain_fields. rewrite ?Hlen'.
  repeat (decide_test; chain_fields).
  unfold popFront. chain_fields. decide_test. chain_fields.
  unfold popBack. chain_fields. decide_test. chain_fields.
  unfold pushFront. chain_fields. decide_test. chain_fields.
  unfold pushBack. chain_fields. decide_test. chain_fields.
  erewrite pushBack_loop_continue;
    [ | reflexivity | assumption
      | chain_fields; capacity_values; lia
      | chain_fields; capacity_values; lia ].
  chain_fields.
  erewrite pushBack_loop_break;
    [ | chain_fields; reflexivity | assumption
      | chain_fields; capacity_values; lia
      | chain_fields; capacity_values; lia ].
  unfold length. chain_fields. rewrite ?Hlen'.
  rewrite !length_app. cbn [List.length]. rewrite <- !app_assoc. cbn [app].
  replace (List.length g + 1)%nat with (S (List.length g)) by lia.
  capacity_values. chain_eq.
Qed.

(** The next point is pushed before the counters were cleared: the chain
    is torn down and bootstrapped again from the whole sequence. *)
Lemma second_sync_unsynced pts q g :
  len pts = BUFFER_INTERVAL_CAPACITY ->
  syncBuffer (mkSeries g (mkBuffer (pts ++ [q]) (BUFFER_INTERVAL_CAPACITY + 1) 0 0 0)
                       [0%nat] 1 (BUFFER_POINT_CAPACITY - 1)) =
  Returns
    (mkSeries
       (g ++ [deleteTexture 0%nat;
              createTexture (S (List.length g));
              syncPoints_upload (S (List.length g)) (pts ++ [q]) 0
                (BUFFER_POINT_CAPACITY - 1) 1;
              createTexture (S (S (S (List.length g))));
              syncPoints_upload (S (S (S (List.length g)))) (pts ++ [q])
                (BUFFER_INTERVAL_CAPACITY - 1) 2 0])
       (mkBuffer (pts ++ [q]) (BUFFER_INTERVAL_CAPACITY + 1) 0 0 0)
       [S (List.length g); S (S (S (List.length g)))] 1 2).
Proof.
  intros Hlen.
  assert (Hlen' : len (pts ++ [q]) = BUFFER_INTERVAL_CAPACITY + 1).
  { rewrite len_app, len_cons, len_nil. lia. }
  assert (Hne : pts ++ [q] <> []) by (destruct pts; discriminate).
  unfold syncBuffer, length. chain_fields. rewrite ?Hlen'.
  repeat (decide_test; chain_fields; rewrite ?Hlen').
  unfold pushBack, newArray. chain_fields. decide_test. chain_fields.
  erewrite pushBack_loop_continue;
    [ | reflexivity | assumption
      | chain_fields; capacity_values; lia
      | chain_fields; capacity_values; lia ].
  chain_fields.
  erewrite pushBack_loop_break;
    [ | chain_fields; reflexivity | assumption
      | chain_fields; capacity_values; lia
      | chain_fields; capacity_values; lia ].
  unfold length. chain_fields. rewrite ?Hlen'.
  rewrite !length_app. cbn [List.length]. rewrite <- !app_assoc. cbn [app].
  replace (List.length g + 1)%nat with (S (List.length g)) by lia.
  replace (S (List.length g) + 1 + 1)%nat with (S (S (S (List.length g)))) by lia.
  capacity_values. chain_eq.
Qed.

(** The two points on the seam, in the full first segment and at the head
    of the second one. *)
Lemma seam_texels pts q older s1 s2 start1 n1 bufferPos1 rs :
  len pts = BUFFER_INTERVAL_CAPACITY ->
  s1 <> s2 ->
  syncPoints_rows start1 n1 bufferPos1 (len (pts ++ [q])) = (rs, 2048) ->
  0 <= rs <= 2047 ->
  start1 - bufferPos1 = -1 ->
  let log :=
    syncPoints_upload s2 (pts ++ [q]) (BUFFER_INTERVAL_CAPACITY - 1) 2 0
    :: createTexture s2
    :: syncPoints_upload s1 (pts ++ [q]) start1 n1 bufferPos1 :: older in
  texel_latest log s1 (BUFFER_POINT_CAPACITY - 2)
    = option_map float32 (at_index pts (BUFFER_INTERVAL_CAPACITY - 1)) /\
  texel_latest log s1 (BUFFER_POINT_CAPACITY - 1) = Some (float32 q) /\
  texel_latest log s2 0
    = option_map float32 (at_index pts (BUFFER_INTERVAL_CAPACITY - 1)) /\
  texel_latest log s2 1 = Some (float32 q).
Proof.
  intros Hlen Hs R1 Hrs Hoff log.
  assert (Hlen' : len (pts ++ [q]) = BUFFER_INTERVAL_CAPACITY + 1).
  { rewrite len_app, len_cons, len_nil. lia. }
  assert (Hne : pts ++ [q] <> []) by (destruct pts; discriminate).
  assert (R2 : syncPoints_rows (BUFFER_INTERVAL_CAPACITY - 1) 2 0 (len (pts ++ [q]))
               = (0, 1)) by (rewrite Hlen'; vm_compute; reflexivity).
  assert (Hlast : at_index (pts ++ [q]) (BUFFER_INTERVAL_CAPACITY - 1)
                  = at_index pts (BUFFER_INTERVAL_CAPACITY - 1)).
  { apply at_index_app1. rewrite Hlen. capacity_values. lia. }
  assert (Hq : at_index (pts ++ [q]) BUFFER_INTERVAL_CAPACITY = Some q).
  { apply at_index_app_last. now rewrite Hlen. }
  subst log. repeat split.
  - rewrite (texel_upload_miss _ _ R2) by (left; congruence).
    rewrite texel_create_other by congruence.
    rewrite (texel_upload_hit _ _ Hne R1) by (capacity_values; lia).
    rewrite <- Hlast. do 2 f_equal.
    unfold sourceIndex. rewrite Hlen'. capacity_values. lia.
  - rewrite (texel_upload_miss _ _ R2) by (left; congruence).
    rewrite texel_create_other by congruence.
    rewrite (texel_upload_hit _ _ Hne R1) by (capacity_values; lia).
    change (Some (float32 q)) with (option_map float32 (Some q)).
    rewrite <- Hq. do 2 f_equal.
    unfold sourceIndex. rewrite Hlen'. capacity_values. lia.
  - rewrite (texel_upload_hit _ _ Hne R2) by (capacity_values; lia).
    rewrite <- Hlast. do 2 f_equal.
    unfold sourceIndex. rewrite Hlen'. capacity_values. lia.
  - rewrite (texel_upload_hit _ _ Hne R2) by (capacity_values; lia).
    change (Some (float32 q)) with (option_map float32 (Some q)).
    rewrite <- Hq. do 2 f_equal.
    unfold sourceIndex. rewrite Hlen'. capacity_values. lia.
Qed.

(** C3.  From an empty chain, pushing exactly [CAP - 2] points (in one
    or several [push] calls) and running [syncBuffer] creates exactly one
    segment and uses up its interval capacity: the points fill the cells 1
    to [CAP - 2], and the interval index of the last point is
    [BUFFER_INTERVAL_CAPACITY], the bound up to which a segment draws (one
    point cell, the last, is still free).  Pushing one more point and running [syncBuffer] again, whether
    or not the owning cycle cleared the counters in between, leaves a chain of
    two segments, the second one created by this sync, and the two points on
    the seam (the last of the first [CAP - 2] points and the new point) are
    both in the last two cells of the first segment and in the first two
    cells of the second, with their coordinates rounded to single precision
    as every cell of a texture holds them. *)
Theorem segment_creation_boundary calls q (resync : bool) :
  let pts := concat calls in
  len pts = BUFFER_INTERVAL_CAPACITY ->
  exists a1,
    syncBuffer (mutate (each push calls) (LineChart.new [] (Buffer.new [])))
      = Returns a1 /\
    segments a1 = [0%nat] /\
    gl a1 = [createTexture 0%nat;
             syncPoints_upload 0%nat pts 0 BUFFER_INTERVAL_CAPACITY 1] /\
    validStart a1 = 1 /\ validEnd a1 = BUFFER_POINT_CAPACITY - 1 /\
    lastInterval a1 = BUFFER_INTERVAL_CAPACITY /\
    segmentsSpanned a1 = 1 /\
    exists a2 s1 s2 calls2 lastp,
      syncBuffer (mutate (push [q]) (if resync then mutate _synced a1 else a1))
        = Returns a2 /\
      segments a2 = [s1; s2] /\ s1 <> s2 /\
      gl a2 = gl a1 ++ calls2 /\ In (createTexture s2) calls2 /\
      segmentsSpanned a2 = 2 /\
      at_index pts (BUFFER_INTERVAL_CAPACITY - 1) = Some lastp /\
      texel (gl a2) s1 (BUFFER_POINT_CAPACITY - 2) = Some (float32 lastp) /\
      texel (gl a2) s1 (BUFFER_POINT_CAPACITY - 1) = Some (float32 q) /\
      texel (gl a2) s2 0 = Some (float32 lastp) /\
      texel (gl a2) s2 1 = Some (float32 q).
Proof.
  intros pts Hlen.
  assert (Hlen' : len (pts ++ [q]) = BUFFER_INTERVAL_CAPACITY + 1).
  { rewrite len_app, len_cons, len_nil. lia. }
  assert (Hlast : exists lastp, at_index pts (BUFFER_INTERVAL_CAPACITY - 1) = Some lastp).
  { eexists. apply at_index_nth with (d := mkDataPoint 0 0).
    rewrite Hlen. capacity_values. lia. }
  destruct Hlast as [lastp Hlast].
  rewrite pushes_on_empty. fold pts.
  eexists. split; [apply first_sync; exact Hlen|]. chain_fields.
  split; [reflexivity|]. split; [reflexivity|].
  split; [reflexivity|]. split; [reflexivity|].
  split; [unfold lastInterval, length; chain_fields; rewrite Hlen; lia|].
  split; [unfold segmentsSpanned, lastInterval, length; chain_fields;
          rewrite Hlen; vm_compute; reflexivity|].
  destruct resync.
  - pose proof (@second_sync_resynced pts q
                  [createTexture 0%nat;
                   syncPoints_upload 0%nat pts 0 BUFFER_INTERVAL_CAPACITY 1] Hlen) as E.
    cbn [List.length app] in E.
    eexists _, 0%nat, 3%nat, _, lastp.
    split; [exact E|]. chain_fields.
    split; [reflexivity|]. split; [discriminate|].
    split; [reflexivity|]. split; [right; left; reflexivity|].
    split; [unfold segmentsSpanned, lastInterval, length; chain_fields;
            rewrite Hlen'; vm_compute; reflexivity|].
    split; [exact Hlast|].
    assert (R1 : syncPoints_rows BUFFER_INTERVAL_CAPACITY 1 (BUFFER_POINT_CAPACITY - 1)
                   (len (pts ++ [q])) = (2047, 2048))
      by (rewrite Hlen'; vm_compute; reflexivity).
    unfold texel. cbn [rev app].
    change (Some (float32 lastp)) with (option_map float32 (Some lastp)).
    rewrite <- Hlast.
    apply (@seam_texels pts q _ 0%nat 3%nat _ _ _ 2047 Hlen);
      [discriminate | exact R1 | lia | capacity_values; lia].
  - pose proof (@second_sync_unsynced pts q
                  [createTexture 0%nat;
                   syncPoints_upload 0%nat pts 0 BUFFER_INTERVAL_CAPACITY 1] Hlen) as E.
    cbn [List.length app] in E.
    eexists _, 3%nat, 5%nat, _, lastp.
    split; [exact E|]. chain_fields.
    split; [reflexivity|]. split; [discriminate|].
    split; [reflexivity|]. split; [do 3 right; left; reflexivity|].
    split; [unfold segmentsSpanned, lastInterval, length; chain_fields;
            rewrite Hlen'; vm_compute; reflexivity|].
    split; [exact Hlast|].
    assert (R1 : syncPoints_rows 0 (BUFFER_POINT_CAPACITY - 1) 1
                   (len (pts ++ [q])) = (0, 2048))
      by (rewrite Hlen'; vm_compute; reflexivity).
    unfold texel. cbn [rev app].
    change (Some (float32 lastp)) with (option_map float32 (Some lastp)).
    rewrite <- Hlast.
    apply (@seam_texels pts q _ 3%nat 5%nat _ _ _ 0 Hlen);
      [discriminate | exact R1 | lia | capacity_values; lia].
Qed.

(** *** Teardown *)

Lemma only_adds_refl a : only_adds a a.
Proof.
  split; [reflexivity|]. exists []. rewrite app_nil_r.
  split; [reflexivity|]. split; [intros t []|]. intros t H. now left.
Qed.

Lemma only_adds_trans a b c : only_adds a b -> only_adds b c -> only_adds a c.
Proof.
  intros (Hd1 & c1 & Hg1 & Hn1 & Hs1) (Hd2 & c2 & Hg2 & Hn2 & Hs2).
  split; [congruence|]. exists (c1 ++ c2).
  split; [rewrite Hg2, Hg1; now rewrite app_assoc|].
  split.
  - intros t H. apply in_app_or in H. destruct H as [H|H]; [eapply Hn1 | eapply Hn2]; eauto.
  - intros t H. destruct (Hs2 t H) as [H'|H'].
    + destruct (Hs1 t H') as [H''|H'']; [now left | right; apply in_or_app; now left].
    + right. apply in_or_app. now right.
Qed.

Lemma syncPoints_appends t dataPoints start n bufferPos g g' :
  syncPoints t dataPoints start n bufferPos g = Returns g' ->
  exists yoffset height pixels, g' = g ++ [texSubImage2D t yoffset height pixels].
Proof.
  with_strategy transparent [syncPoints] unfold syncPoints.
  destruct (syncPoints_rows _ _ _ _) as [rs re].
  destruct (re - rs <? 0); [discriminate|].
  destruct (all_some _) as [buffer|]; [|discriminate].
  intros E. injection E as <-. eauto.
Qed.

Lemma Returns_inj {A : Type} (u v : A) : Returns u = Returns v -> u = v.
Proof. intros H. now injection H. Qed.

Lemma pushBack_body_adds st r :
  pushBack_body st = Returns r ->
  only_adds (fst st) (fst match r with Break s => s | Continue s => s end).
Proof.
  destruct st as [a num]. unfold pushBack_body.
  destruct (rev (segments a)) as [|t rest]; [discriminate|].
  destruct (syncPoints _ _ _ _ _ _) as [g|] eqn:Es; [|discriminate].
  destruct (syncPoints_appends _ _ _ _ _ _ Es) as (yo & h & px & ->).
  match goal with |- context [if ?c then _ else _] => destruct c end;
    intros E; apply Returns_inj in E; subst r;
    cbn [fst]; (split; [reflexivity|]); cbn [gl segments].
  - eexists. split; [reflexivity|]. split.
    + intros t' [H|[]]. discriminate H.
    + intros t' H. now left.
  - unfold newArray. cbn [gl segments fst snd].
    eexists. split; [rewrite <- app_assoc; reflexivity|]. split.
    + intros t' [H|[H|[]]]; discriminate H.
    + intros t' H. apply in_app_or in H. destruct H as [H|[<-|[]]]; [now left|].
      right. right. now left.
Qed.

Lemma pushFront_body_adds st r :
  pushFront_body st = Returns r ->
  only_adds (fst st) (fst match r with Break s => s | Continue s => s end).
Proof.
  destruct st as [a num]. unfold pushFront_body.
  destruct (segments a) as [|t rest] eqn:Hseg; [discriminate|].
  destruct (syncPoints _ _ _ _ _ _) as [g|] eqn:Es; [|discriminate].
  destruct (syncPoints_appends _ _ _ _ _ _ Es) as (yo & h & px & ->).
  match goal with |- context [if ?c then _ else _] => destruct c end;
    intros E; apply Returns_inj in E; subst r;
    cbn [fst]; (split; [reflexivity|]); cbn [gl segments].
  - eexists. split; [reflexivity|]. split.
    + intros t' [H|[]]. discriminate H.
    + intros t' H. left. now rewrite Hseg.
  - unfold newArray. cbn [gl segments fst snd].
    eexists. split; [rewrite <- app_assoc; reflexivity|]. split.
    + intros t' [H|[H|[]]]; discriminate H.
    + intros t' [<-|H]; [right; right; now left | left; now rewrite Hseg].
Qed.

Lemma pushBack_loop_adds st a' :
  pushBack_loop st = Returns a' -> only_adds (fst st) a'.
Proof.
  funelim (pushBack_loop st); intros Hr;
    try match goal with E : pushBack_body _ = _ |- _ =>
      pose proof (@pushBack_body_adds _ _ E) as Hb end.
  - apply Returns_inj in Hr. subst a'. exact Hb.
  - eapply only_adds_trans; [exact Hb | auto].
  - discriminate.
Qed.

Lemma pushFront_loop_adds st a' :
  pushFront_loop st = Returns a' -> only_adds (fst st) a'.
Proof.
  funelim (pushFront_loop st); intros Hr;
    try match goal with E : pushFront_body _ = _ |- _ =>
      pose proof (@pushFront_body_adds _ _ E) as Hb end.
  - apply Returns_inj in Hr. subst a'. exact Hb.
  - eapply only_adds_trans; [exact Hb | auto].
  - discriminate.
Qed.

(** Bootstrapping an empty chain only creates and fills segments. *)
Lemma pushBack_bootstrap a a' :
  segments a = [] ->
  pushBack a = Returns a' ->
  data a' = data a /\
  exists calls,
    gl a' = gl a ++ calls /\
    (forall t, ~ In (deleteTexture t) calls) /\
    (forall t, In t (segments a') -> In (createTexture t) calls).
Proof.
  intros Hseg. unfold pushBack. rewrite Hseg.
  destruct (pushed_back (data a) =? 0).
  - intros E. apply Returns_inj in E. subst a'. split; [reflexivity|].
    exists []. rewrite app_nil_r, Hseg. split; [reflexivity|].
    split; intros t [].
  - unfold newArray. intros E. apply pushBack_loop_adds in E.
    destruct E as (Hd & calls & Hg & Hn & Hs). cbn [fst gl data segments] in *.
    split; [exact Hd|]. exists (createTexture (List.length (gl a)) :: calls).
    split; [rewrite Hg, <- app_assoc; reflexivity|]. split.
    + intros t [H|H]; [discriminate H | eapply Hn; eauto].
    + intros t H. destruct (Hs t H) as [[<-|[]]|H']; [now left | now right].
Qed.

Lemma pushFront_bootstrap a a' :
  segments a = [] ->
  pushFront a = Returns a' ->
  data a' = data a /\
  exists calls,
    gl a' = gl a ++ calls /\
    (forall t, ~ In (deleteTexture t) calls) /\
    (forall t, In t (segments a') -> In (createTexture t) calls).
Proof.
  intros Hseg. unfold pushFront. rewrite Hseg.
  destruct (pushed_front (data a) =? 0).
  - intros E. apply Returns_inj in E. subst a'. split; [reflexivity|].
    exists []. rewrite app_nil_r, Hseg. split; [reflexivity|].
    split; intros t [].
  - unfold newArray. intros E. apply pushFront_loop_adds in E.
    destruct E as (Hd & calls & Hg & Hn & Hs). cbn [fst gl data segments] in *.
    split; [exact Hd|]. exists (createTexture (List.length (gl a)) :: calls).
    split; [rewrite Hg, <- app_assoc; reflexivity|]. split.
    + intros t [H|H]; [discriminate H | eapply Hn; eauto].
    + intros t H. destruct (Hs t H) as [[<-|[]]|H']; [now left | now right].
Qed.

(** *** The protocol of the texture calls *)

Lemma live_call g call t : live (g ++ [call]) t = live_latest (call :: rev g) t.
Proof. unfold live. now rewrite rev_unit. Qed.

Lemma accepted_call g call :
  accepted (g ++ [call]) <-> accepted_latest (call :: rev g).
Proof. unfold accepted. now rewrite rev_unit. Qed.

(** A texture that exists was created by a call of the log. *)
Lemma live_latest_lt l : forall t,
  accepted_latest l -> live_latest l t = true -> (t < List.length l)%nat.
Proof.
  induction l as [|call l IH]; intros t Ha Hl; [discriminate|].
  cbn [accepted_latest] in Ha. destruct Ha as [Ha Hc]. cbn [List.length].
  destruct call as [t'|t'|t' yo h px]; cbn [live_latest] in Hl.
  - destruct (Nat.eqb_spec t' t) as [->|_]; [lia|].
    cbn [orb] in Hl. specialize (IH t Ha Hl). lia.
  - apply andb_prop in Hl. destruct Hl as [_ Hl]. specialize (IH t Ha Hl). lia.
  - specialize (IH t Ha Hl). lia.
Qed.

Lemma live_fresh g t : accepted g -> (List.length g <= t)%nat -> live g t = false.
Proof.
  intros Ha Ht. destruct (live g t) eqn:E; [|reflexivity].
  apply live_latest_lt in E; [|exact Ha]. rewrite length_rev in E. lia.
Qed.

Lemma owned_upload g segs t yoffset height pixels :
  owned g segs -> In t segs ->
  0 <= yoffset -> 0 <= height -> yoffset + height <= BUFFER_TEXTURE_HEIGHT ->
  len pixels = height * BUFFER_TEXTURE_WIDTH ->
  let g' := g ++ [texSubImage2D t yoffset height pixels] in
  owned g' segs /\ forall t', live g' t' = live g t'.
Proof.
  intros (Ha & Hn & Hl) Ht H1 H2 H3 H4 g'. subst g'.
  assert (Hlive : forall t', live (g ++ [texSubImage2D t yoffset height pixels]) t'
                             = live g t').
  { intros t'. now rewrite live_call. }
  split; [|exact Hlive]. split; [|split].
  - apply accepted_call. cbn [accepted_latest]. split; [exact Ha|].
    split; [apply Hl, Ht|]. auto.
  - exact Hn.
  - intros t' Ht'. rewrite Hlive. now apply Hl.
Qed.

(** A new segment, put at either end of the chain. *)
Lemma owned_create g segs :
  owned g segs ->
  let t := List.length g in
  let g' := g ++ [createTexture t] in
  ~ In t segs /\
  owned g' (t :: segs) /\ owned g' (segs ++ [t]) /\
  (forall t', foreign g' (t :: segs) t' <-> foreign g segs t') /\
  (forall t', foreign g' (segs ++ [t]) t' <-> foreign g segs t').
Proof.
  intros (Ha & Hn & Hl) t g'. subst t g'.
  set (t := List.length g).
  assert (Hfresh : live g t = false) by (apply live_fresh; [exact Ha | lia]).
  assert (Hnot : ~ In t segs).
  { intros H. apply Hl in H. congruence. }
  assert (Hlive : forall t', live (g ++ [createTexture t]) t'
                             = Nat.eqb t t' || live g t').
  { intros t'. now rewrite live_call. }
  assert (Hacc : accepted (g ++ [createTexture t])).
  { apply accepted_call. cbn [accepted_latest]. split; [exact Ha|].
    subst t. now rewrite length_rev. }
  split; [exact Hnot|]. split; [|split; [|split]].
  - split; [exact Hacc|]. split; [now constructor|].
    intros t' [<-|Ht']; rewrite Hlive.
    + now rewrite Nat.eqb_refl.
    + rewrite (Hl t' Ht'). apply orb_true_r.
  - split; [exact Hacc|]. split.
    + apply NoDup_rev in Hn. rewrite <- (rev_involutive (segs ++ [t])).
      apply NoDup_rev. rewrite rev_unit. constructor; [|exact Hn].
      now rewrite <- in_rev.
    + intros t' Ht'. rewrite Hlive. apply in_app_or in Ht'.
      destruct Ht' as [Ht'|[<-|[]]].
      * rewrite (Hl t' Ht'). apply orb_true_r.
      * now rewrite Nat.eqb_refl.
  - intros t'. unfold foreign. rewrite Hlive. cbn [In].
    destruct (Nat.eqb_spec t t') as [<-|Hne]; cbn [orb].
    + split; [intros [_ H]; exfalso; apply H; now left|].
      intros [H _]. congruence.
    + split; [intros [H1 H2]; split; [exact H1 | tauto]|].
      intros [H1 H2]. split; [exact H1|]. intros [H|H]; [congruence | tauto].
  - intros t'. unfold foreign. rewrite Hlive.
    destruct (Nat.eqb_spec t t') as [<-|Hne]; cbn [orb].
    + split; [intros [_ H]; exfalso; apply H, in_or_app; right; now left|].
      intros [H _]. congruence.
    + split.
      * intros [H1 H2]. split; [exact H1|]. intros H. apply H2, in_or_app. now left.
      * intros [H1 H2]. split; [exact H1|]. intros H. apply in_app_or in H.
        destruct H as [H|[H|[]]]; [tauto | congruence].
Qed.

(** The segments [dropped] leave the chain and are deleted, in order. *)
Lemma owned_delete dropped : forall g segs,
  owned g segs ->
  (forall t, In t dropped -> In t segs) -> NoDup dropped ->
  forall segs',
  (forall t, In t segs' <-> In t segs /\ ~ In t dropped) -> NoDup segs' ->
  let g' := g ++ map deleteTexture dropped in
  owned g' segs' /\
  (forall t', foreign g' segs' t' <-> foreign g segs t').
Proof.
  induction dropped as [|d dropped IH]; intros g segs (Ha & Hn & Hl) Hsub Hnd segs' Hs' Hn' g'.
  - subst g'. cbn [map]. rewrite app_nil_r.
    assert (Heq : forall t, In t segs' <-> In t segs).
    { intros t. rewrite Hs'. cbn [In]. tauto. }
    split.
    + split; [exact Ha|]. split; [exact Hn'|]. intros t Ht. apply Hl. now apply Heq.
    + intros t'. unfold foreign. rewrite Heq. tauto.
  - subst g'. cbn [map].
    replace (g ++ deleteTexture d :: map deleteTexture dropped)
      with ((g ++ [deleteTexture d]) ++ map deleteTexture dropped)
      by (rewrite <- app_assoc; reflexivity).
    inversion Hnd as [|d' dr Hd Hnd']; subst.
    assert (Hlive : forall t', live (g ++ [deleteTexture d]) t'
                               = negb (Nat.eqb d t') && live g t').
    { intros t'. now rewrite live_call. }
    set (mid := filter (fun t => negb (Nat.eqb d t)) segs).
    assert (Hmid : forall t, In t mid <-> In t segs /\ t <> d).
    { intros t. subst mid. rewrite filter_In.
      destruct (Nat.eqb_spec d t) as [->|Hne]; cbn [negb]; split;
        intros [H1 H2]; try discriminate; try tauto; split; auto. }
    assert (Hown : owned (g ++ [deleteTexture d]) mid).
    { split; [|split].
      - apply accepted_call. cbn [accepted_latest]. split; [exact Ha|].
        apply Hl, Hsub. now left.
      - subst mid. now apply NoDup_filter.
      - intros t Ht. apply Hmid in Ht. destruct Ht as [Ht Hne].
        rewrite Hlive, (Hl t Ht).
        destruct (Nat.eqb_spec d t); [congruence | reflexivity]. }
    destruct (IH (g ++ [deleteTexture d]) mid Hown) with (segs' := segs')
      as [Hown' Hfor]; try assumption.
    + intros t Ht. apply Hmid. split; [apply Hsub; now right|].
      intros ->. contradiction.
    + intros t. rewrite Hs', Hmid. cbn [In]. split.
      * intros [H1 H2]. split; [split; [exact H1|]|]; intros H; apply H2; auto.
      * intros [[H1 H2] H3]. split; [exact H1|]. intros [H|H]; [congruence | tauto].
    + split; [exact Hown'|]. intros t'. rewrite Hfor. unfold foreign.
      rewrite Hlive, Hmid.
      destruct (Nat.eqb_spec d t') as [<-|Hne]; cbn [negb andb].
      * split; [intros [H _]; discriminate|].
        intros [_ H]. exfalso. apply H, Hsub. now left.
      * split; [intros [H1 H2]; split; [exact H1|]; intros H; apply H2; split; auto|].
        intros [H1 H2]. split; [exact H1|]. tauto.
Qed.

(** The rows of an upload that writes inside the texture are rows of the
    texture, and contain the cells written. *)
Lemma syncPoints_rows_inside start n bufferPos length rs re :
  0 <= n -> 0 <= bufferPos -> bufferPos + n <= BUFFER_POINT_CAPACITY ->
  syncPoints_rows start n bufferPos length = (rs, re) ->
  0 <= rs /\ rs <= re /\ re <= BUFFER_TEXTURE_HEIGHT /\
  rs * BUFFER_TEXTURE_WIDTH <= bufferPos /\
  bufferPos + n <= re * BUFFER_TEXTURE_WIDTH.
Proof.
  intros Hn Hpos Hend. unfold syncPoints_rows.
  destruct (Z.ltb_spec 0 (floor_div bufferPos BUFFER_TEXTURE_WIDTH)),
    (Z.eqb_spec start 0),
    (Z.eqb_spec bufferPos (floor_div bufferPos BUFFER_TEXTURE_WIDTH
                           * BUFFER_TEXTURE_WIDTH)),
    (Z.ltb_spec (ceil_div (bufferPos + n) BUFFER_TEXTURE_WIDTH)
                BUFFER_TEXTURE_HEIGHT),
    (Z.eqb_spec (start + n) length),
    (Z.eqb_spec (bufferPos + n)
                (ceil_div (bufferPos + n) BUFFER_TEXTURE_WIDTH
                 * BUFFER_TEXTURE_WIDTH));
    cbn [andb]; intros E; injection E as <- <-; arith.
Qed.

(** An upload by [syncPoints] to a segment of the chain, inside the
    texture: the call returns and the context accepts it. *)
Lemma owned_sync g segs t dataPoints start n bufferPos :
  owned g segs -> In t segs -> dataPoints <> [] ->
  0 <= n -> 0 <= bufferPos -> bufferPos + n <= BUFFER_POINT_CAPACITY ->
  let g' := g ++ [syncPoints_upload t dataPoints start n bufferPos] in
  syncPoints t dataPoints start n bufferPos g = Returns g' /\
  owned g' segs /\
  (forall t', live g' t' = live g t') /\
  (forall t', foreign g' segs t' <-> foreign g segs t').
Proof.
  intros Hown Ht Hne Hn Hpos Hend g'. subst g'.
  split; [now apply syncPoints_upload_returns|].
  unfold syncPoints_upload.
  destruct (syncPoints_rows start n bufferPos (len dataPoints)) as [rs re] eqn:E.
  destruct (@syncPoints_rows_inside start n bufferPos _ rs re Hn Hpos Hend E)
    as (H1 & H2 & H3 & _).
  destruct (@owned_upload g segs t rs (re - rs)
              (syncPoints_cells dataPoints start bufferPos rs re) Hown Ht)
    as [Hown' Hlive]; try lia.
  { now apply syncPoints_cells_length. }
  split; [exact Hown'|]. split; [exact Hlive|].
  intros t'. unfold foreign. now rewrite Hlive.
Qed.

(** *** The four steps of a sync *)

Lemma popFront_loop_spec segs : forall vS g,
  0 < vS -> vS <= len segs * BUFFER_INTERVAL_CAPACITY ->
  exists dropped kept,
    segs = dropped ++ kept /\ kept <> [] /\
    0 < vS - len dropped * BUFFER_INTERVAL_CAPACITY <= BUFFER_INTERVAL_CAPACITY /\
    popFront_loop segs vS g =
    Returns (kept, vS - len dropped * BUFFER_INTERVAL_CAPACITY,
             g ++ map deleteTexture dropped).
Proof.
  induction segs as [|t rest IH]; intros vS g Hpos Hfit.
  - rewrite len_nil in Hfit. lia.
  - cbn [popFront_loop]. rewrite len_cons in Hfit.
    destruct (Z.ltb_spec BUFFER_INTERVAL_CAPACITY vS) as [Hgt|Hle].
    + destruct (IH (vS - BUFFER_INTERVAL_CAPACITY) (g ++ [deleteTexture t]))
        as (dropped & kept & Hs & Hk & Hv & E); [lia | lia |].
      exists (t :: dropped), kept. rewrite len_cons.
      split; [cbn [app]; now rewrite Hs|]. split; [exact Hk|].
      split; [lia|]. rewrite E. cbn [map]. rewrite <- app_assoc. cbn [app].
      do 3 f_equal. lia.
    + exists [], (t :: rest). rewrite len_nil. cbn [app map].
      split; [reflexivity|]. split; [discriminate|]. split; [lia|].
      rewrite app_nil_r. do 3 f_equal. lia.
Qed.

Lemma popBack_loop_spec lastFirst : forall vE g,
  vE < BUFFER_POINT_CAPACITY ->
  2 <= vE + (len lastFirst - 1) * BUFFER_INTERVAL_CAPACITY ->
  exists dropped kept,
    lastFirst = dropped ++ kept /\ kept <> [] /\
    2 <= vE + len dropped * BUFFER_INTERVAL_CAPACITY < BUFFER_POINT_CAPACITY /\
    popBack_loop lastFirst vE g =
    Returns (kept, vE + len dropped * BUFFER_INTERVAL_CAPACITY,
             g ++ map deleteTexture dropped).
Proof.
  induction lastFirst as [|t rest IH]; intros vE g Hlt Hfit.
  - rewrite len_nil in Hfit. capacity_values. lia.
  - cbn [popBack_loop]. rewrite len_cons in Hfit.
    destruct (Z.ltb_spec vE (BUFFER_POINT_CAPACITY - BUFFER_INTERVAL_CAPACITY))
      as [Hsmall|Hok].
    + destruct (IH (vE + BUFFER_INTERVAL_CAPACITY) (g ++ [deleteTexture t]))
        as (dropped & kept & Hs & Hk & Hv & E);
        [capacity_values; lia | lia |].
      exists (t :: dropped), kept. rewrite len_cons.
      split; [cbn [app]; now rewrite Hs|]. split; [exact Hk|].
      split; [lia|]. rewrite E. cbn [map]. rewrite <- app_assoc. cbn [app].
      do 3 f_equal. lia.
    + exists [], (t :: rest). rewrite len_nil. cbn [app map].
      split; [reflexivity|]. split; [discriminate|].
      split; [capacity_values; lia|].
      rewrite app_nil_r. do 3 f_equal. lia.
Qed.

Lemma NoDup_app_parts {A : Type} (l1 l2 : list A) :
  NoDup (l1 ++ l2) ->
  NoDup l1 /\ NoDup l2 /\ (forall a, In a l1 -> ~ In a l2).
Proof.
  induction l1 as [|b l1 IH]; cbn [app]; intros H.
  - split; [constructor|]. split; [exact H|]. intros a [].
  - inversion H as [|b' l Hb Hn]; subst. destruct (IH Hn) as (H1 & H2 & H3).
    split; [|split; [exact H2|]].
    + constructor; [|exact H1]. intros Hin. apply Hb, in_or_app. now left.
    + intros a [<-|Ha]; [|now apply H3].
      intros Hin. apply Hb, in_or_app. now right.
Qed.

(** What [popFront] leaves: the segments in front that [poped_front]
    empties are deleted, [validStart] moves on, and the row of the new start
    is uploaded again. *)
Lemma popFront_spec a :
  owned (gl a) (segments a) -> items (data a) <> [] ->
  0 < validStart a <= BUFFER_INTERVAL_CAPACITY ->
  0 <= poped_front (data a) ->
  validStart a + poped_front (data a)
    <= len (segments a) * BUFFER_INTERVAL_CAPACITY ->
  exists a' dropped first rest,
    popFront a = Returns a' /\
    data a' = data a /\ validEnd a' = validEnd a /\
    segments a = dropped ++ segments a' /\ segments a' = first :: rest /\
    validStart a' = validStart a + poped_front (data a)
                    - len dropped * BUFFER_INTERVAL_CAPACITY /\
    0 < validStart a' <= BUFFER_INTERVAL_CAPACITY /\
    gl a' = (if poped_front (data a) =? 0 then gl a
             else gl a ++ map deleteTexture dropped
                    ++ [syncPoints_upload first (items (data a)) 0 0
                          (validStart a')]) /\
    owned (gl a') (segments a') /\
    (forall t, foreign (gl a') (segments a') t
               <-> foreign (gl a) (segments a) t).
Proof.
  intros Hown Hne Hvs Hqf Hfit. unfold popFront.
  destruct (Z.eqb_spec (poped_front (data a)) 0) as [E0|E0].
  - destruct (segments a) as [|first rest] eqn:Hseg.
    { rewrite len_nil in Hfit. lia. }
    exists a, [], first, rest. rewrite len_nil, Hseg, E0. cbn [app].
    repeat (split; [first [reflexivity | assumption | lia]|]).
    intros t. reflexivity.
  - destruct (@popFront_loop_spec (segments a)
                (validStart a + poped_front (data a)) (gl a))
      as (dropped & kept & Hs & Hk & Hv & E); [lia | lia |].
    rewrite E. destruct kept as [|first rest]; [contradiction|].
    destruct Hown as (Ha & Hn & Hl).
    rewrite Hs in Hn. destruct (NoDup_app_parts _ _ Hn) as (Hn1 & Hn2 & Hdis).
    destruct (@owned_delete dropped (gl a) (segments a)) with (segs' := first :: rest)
      as [Hown1 Hfor1].
    { rewrite Hs. split; [exact Ha|]. split; [exact Hn|]. rewrite <- Hs. exact Hl. }
    { intros t Ht. rewrite Hs. apply in_or_app. now left. }
    { exact Hn1. }
    { intros t. rewrite Hs, in_app_iff. split.
      - intros Ht. split; [now right|]. intros Hd. exact (Hdis t Hd Ht).
      - intros [[Hd|Ht] Hnd]; [contradiction | exact Ht]. }
    { exact Hn2. }
    destruct (@owned_sync (gl a ++ map deleteTexture dropped) (first :: rest) first
                (items (data a)) 0 0
                (validStart a + poped_front (data a)
                 - len dropped * BUFFER_INTERVAL_CAPACITY))
      as (Es & Hown2 & _ & Hfor2);
      [exact Hown1 | now left | exact Hne | lia | lia | capacity_values; lia |].
    rewrite Es. eexists _, dropped, first, rest.
    split; [reflexivity|]. cbn [data validEnd segments validStart gl].
    split; [reflexivity|]. split; [reflexivity|]. split; [exact Hs|].
    split; [reflexivity|]. split; [reflexivity|]. split; [exact Hv|].
    split; [now rewrite app_assoc|]. split; [exact Hown2|].
    intros t. now rewrite Hfor2, Hfor1.
Qed.

(** What [popBack] leaves: the same at the other end of the chain. *)
Lemma popBack_spec a :
  owned (gl a) (segments a) -> items (data a) <> [] ->
  2 <= validEnd a < BUFFER_POINT_CAPACITY ->
  0 <= poped_back (data a) ->
  2 <= validEnd a - poped_back (data a)
       + (len (segments a) - 1) * BUFFER_INTERVAL_CAPACITY ->
  exists a' dropped front last,
    popBack a = Returns a' /\
    data a' = data a /\ validStart a' = validStart a /\
    segments a = segments a' ++ rev dropped /\ segments a' = front ++ [last] /\
    validEnd a' = validEnd a - poped_back (data a)
                  + len dropped * BUFFER_INTERVAL_CAPACITY /\
    2 <= validEnd a' < BUFFER_POINT_CAPACITY /\
    gl a' = (if poped_back (data a) =? 0 then gl a
             else gl a ++ map deleteTexture dropped
                    ++ [syncPoints_upload last (items (data a))
                          (length (data a)) 0 (validEnd a')]) /\
    owned (gl a') (segments a') /\
    (forall t, foreign (gl a') (segments a') t
               <-> foreign (gl a) (segments a) t).
Proof.
  intros Hown Hne Hve Hqb Hfit. unfold popBack.
  destruct (Z.eqb_spec (poped_back (data a)) 0) as [E0|E0].
  - destruct (rev (segments a)) as [|last frontRev] eqn:Hrev.
    { apply (f_equal (@len _)) in Hrev. rewrite len_rev, len_nil in Hrev.
      rewrite Hrev in Hfit. capacity_values. lia. }
    assert (Hseg : segments a = rev frontRev ++ [last]).
    { rewrite <- (rev_involutive (segments a)), Hrev. reflexivity. }
    exists a, [], (rev frontRev), last. rewrite len_nil, E0. cbn [rev].
    rewrite app_nil_r.
    repeat (split; [first [reflexivity | assumption | lia]|]).
    intros t. reflexivity.
  - destruct (@popBack_loop_spec (rev (segments a))
                (validEnd a - poped_back (data a)) (gl a))
      as (dropped & kept & Hs & Hk & Hv & E); [lia | rewrite len_rev; lia |].
    rewrite E. destruct kept as [|last frontRev]; [contradiction|].
    assert (Hseg : segments a = (rev frontRev ++ [last]) ++ rev dropped).
    { rewrite <- (rev_involutive (segments a)), Hs, rev_app_distr. reflexivity. }
    destruct Hown as (Ha & Hn & Hl).
    pose proof Hn as Hn'. rewrite Hseg in Hn'.
    destruct (NoDup_app_parts _ _ Hn') as (Hn1 & Hn2 & Hdis).
    destruct (@owned_delete dropped (gl a) (segments a))
      with (segs' := rev frontRev ++ [last]) as [Hown1 Hfor1].
    { split; [exact Ha|]. split; [exact Hn|]. exact Hl. }
    { intros t Ht. rewrite Hseg. apply in_or_app. right. now rewrite <- in_rev. }
    { apply NoDup_rev in Hn2. now rewrite rev_involutive in Hn2. }
    { intros t. split.
      - intros Ht. split; [rewrite Hseg; apply in_or_app; now left|].
        intros Hd. apply (Hdis t Ht). now rewrite <- in_rev.
      - intros [Ht Hnd]. rewrite Hseg in Ht. apply in_app_or in Ht.
        destruct Ht as [Ht|Hd]; [exact Ht|].
        rewrite <- in_rev in Hd. contradiction. }
    { exact Hn1. }
    destruct (@owned_sync (gl a ++ map deleteTexture dropped)
                (rev frontRev ++ [last]) last
                (items (data a)) (length (data a)) 0
                (validEnd a - poped_back (data a)
                 + len dropped * BUFFER_INTERVAL_CAPACITY))
      as (Es & Hown2 & _ & Hfor2);
      [exact Hown1 | apply in_or_app; right; now left | exact Hne
       | lia | lia | lia |].
    rewrite Es. eexists _, dropped, (rev frontRev), last.
    split; [reflexivity|]. cbn [data validEnd segments validStart gl rev].
    split; [reflexivity|]. split; [reflexivity|]. split; [exact Hseg|].
    split; [reflexivity|]. split; [reflexivity|]. split; [exact Hv|].
    split; [now rewrite app_assoc|]. split; [exact Hown2|].
    intros t. now rewrite Hfor2, Hfor1.
Qed.

(** The last round of [pushFront]: what is left fits in front of
    [validStart]. *)
Lemma pushFront_loop_break a numDPtoAdd t rest :
  segments a = t :: rest ->
  items (data a) <> [] ->
  0 <= numDPtoAdd ->
  numDPtoAdd < validStart a ->
  pushFront_loop (a, numDPtoAdd) =
  Returns (mkSeries
             (gl a ++ [syncPoints_upload t (items (data a)) 0 numDPtoAdd
                         (validStart a - numDPtoAdd)])
             (data a) (segments a) (validStart a - numDPtoAdd) (validEnd a)).
Proof.
  intros Hseg Hne Hnum Hfit.
  rewrite pushFront_loop_unfold. unfold pushFront_body. rewrite Hseg.
  rewrite (Z.min_r (validStart a) numDPtoAdd) by lia.
  replace (numDPtoAdd - numDPtoAdd) with 0 by lia.
  rewrite syncPoints_upload_returns by assumption.
  destruct (Z.ltb_spec 0 (validStart a - numDPtoAdd)); [|lia].
  reflexivity.
Qed.

(** A round of [pushFront] that fills the active segment down to cell 0: a
    new segment is put in front and the loop goes on with it. *)
Lemma pushFront_loop_continue a numDPtoAdd t rest :
  segments a = t :: rest ->
  items (data a) <> [] ->
  0 <= validStart a ->
  validStart a <= numDPtoAdd ->
  let g := gl a ++ [syncPoints_upload t (items (data a))
                      (numDPtoAdd - validStart a) (validStart a) 0] in
  pushFront_loop (a, numDPtoAdd) =
  pushFront_loop
    (mkSeries (g ++ [createTexture (List.length g)]) (data a)
              (List.length g :: segments a) BUFFER_POINT_CAPACITY (validEnd a),
     numDPtoAdd - (validStart a
                   - (BUFFER_POINT_CAPACITY - BUFFER_INTERVAL_CAPACITY))).
Proof.
  intros Hseg Hne Hvs Hfull g.
  rewrite pushFront_loop_unfold at 1. unfold pushFront_body. rewrite Hseg.
  rewrite (Z.min_l (validStart a) numDPtoAdd) by lia.
  replace (validStart a - validStart a) with 0 by lia.
  rewrite syncPoints_upload_returns by assumption. fold g.
  destruct (Z.ltb_spec 0 0); [lia|].
  reflexivity.
Qed.

(** The loop of [pushBack], from any state it is entered in: it returns,
    having appended [numDPtoAdd] points to the chain. *)
Lemma pushBack_loop_spec (m : nat) : forall a numDPtoAdd,
  Z.to_nat (numDPtoAdd + validEnd a) = m ->
  segments a <> [] -> items (data a) <> [] ->
  0 <= validEnd a < BUFFER_POINT_CAPACITY ->
  1 <= numDPtoAdd -> 2 <= validEnd a + numDPtoAdd ->
  owned (gl a) (segments a) ->
  exists a',
    pushBack_loop (a, numDPtoAdd) = Returns a' /\
    data a' = data a /\ validStart a' = validStart a /\
    2 <= validEnd a' < BUFFER_POINT_CAPACITY /\
    (exists added, segments a' = segments a ++ added) /\
    chain_len a' = chain_len a + numDPtoAdd /\
    owned (gl a') (segments a') /\
    (forall t, foreign (gl a') (segments a') t
               <-> foreign (gl a) (segments a) t).
Proof.
  induction m as [m IH] using lt_wf_ind.
  intros a numDP Hm Hseg Hne Hve Hnum Hsum Hown.
  destruct (rev (segments a)) as [|t rest] eqn:Hrev.
  { apply (f_equal (@rev _)) in Hrev. rewrite rev_involutive in Hrev.
    contradiction. }
  assert (Ht : In t (segments a)).
  { apply in_rev. rewrite Hrev. now left. }
  destruct (Z.lt_ge_cases (validEnd a + numDP) BUFFER_POINT_CAPACITY) as [Hfit|Hfull].
  - rewrite (@pushBack_loop_break a numDP t rest Hrev Hne) by lia.
    destruct (@owned_sync (gl a) (segments a) t (items (data a))
                (length (data a) - numDP) numDP (validEnd a))
      as (_ & Hown' & _ & Hfor); try assumption; try lia.
    eexists. split; [reflexivity|]. cbn [data validStart validEnd segments gl].
    split; [reflexivity|]. split; [reflexivity|]. split; [lia|].
    split; [exists []; now rewrite app_nil_r|].
    split; [unfold chain_len; cbn [segments validStart validEnd]; lia|].
    split; [exact Hown' | exact Hfor].
  - rewrite (@pushBack_loop_continue a numDP t rest Hrev Hne) by lia.
    set (n := BUFFER_POINT_CAPACITY - validEnd a).
    set (g := gl a ++ [syncPoints_upload t (items (data a))
                         (length (data a) - numDP) n (validEnd a)]).
    destruct (@owned_sync (gl a) (segments a) t (items (data a))
                (length (data a) - numDP) n (validEnd a))
      as (_ & Hown1 & _ & Hfor1); try assumption; try (subst n; lia).
    fold g in Hown1, Hfor1.
    destruct (owned_create Hown1) as (_ & _ & Hown2 & _ & Hfor2).
    cbv zeta in Hown2, Hfor2.
    destruct (IH (Z.to_nat (numDP - (BUFFER_INTERVAL_CAPACITY - validEnd a) + 0)))
      with (a := mkSeries (g ++ [createTexture (List.length g)]) (data a)
                          (segments a ++ [List.length g]) (validStart a) 0)
           (numDPtoAdd := numDP - (BUFFER_INTERVAL_CAPACITY - validEnd a))
      as (a' & E & Hd & Hvs' & Hve' & (added & Hadd) & Hlen & Hown' & Hfor');
      cbn [data validStart validEnd segments gl];
      try assumption; try (capacity_values; lia).
    { destruct (segments a); discriminate. }
    cbn [data validStart validEnd segments gl] in Hd, Hvs', Hadd, Hfor'.
    exists a'. split; [exact E|]. split; [exact Hd|]. split; [exact Hvs'|].
    split; [exact Hve'|].
    split; [exists (List.length g :: added); rewrite Hadd, <- app_assoc;
            reflexivity|].
    split.
    + rewrite Hlen. unfold chain_len. cbn [segments validStart validEnd].
      rewrite len_app, len_cons, len_nil. lia.
    + split; [exact Hown'|]. intros t'. now rewrite Hfor', Hfor2, Hfor1.
Qed.

(** The loop of [pushFront], likewise. *)
Lemma pushFront_loop_spec (m : nat) : forall a numDPtoAdd,
  Z.to_nat (numDPtoAdd - validStart a + 1) = m ->
  segments a <> [] -> items (data a) <> [] ->
  0 < validStart a <= BUFFER_POINT_CAPACITY ->
  1 <= numDPtoAdd ->
  validStart a - BUFFER_INTERVAL_CAPACITY <= numDPtoAdd ->
  owned (gl a) (segments a) ->
  exists a',
    pushFront_loop (a, numDPtoAdd) = Returns a' /\
    data a' = data a /\ validEnd a' = validEnd a /\
    0 < validStart a' <= BUFFER_INTERVAL_CAPACITY /\
    (exists added, segments a' = added ++ segments a) /\
    chain_len a' = chain_len a + numDPtoAdd /\
    owned (gl a') (segments a') /\
    (forall t, foreign (gl a') (segments a') t
               <-> foreign (gl a) (segments a) t).
Proof.
  induction m as [m IH] using lt_wf_ind.
  intros a numDP Hm Hseg Hne Hvs Hnum Hsum Hown.
  destruct (segments a) as [|t rest] eqn:Hsegs; [contradiction|].
  assert (Ht : In t (segments a)) by (rewrite Hsegs; now left).
  rewrite <- Hsegs in *.
  destruct (Z.lt_ge_cases numDP (validStart a)) as [Hfit|Hfull].
  - rewrite (@pushFront_loop_break a numDP t rest Hsegs Hne) by lia.
    destruct (@owned_sync (gl a) (segments a) t (items (data a))
                0 numDP (validStart a - numDP))
      as (_ & Hown' & _ & Hfor); try assumption; try lia.
    eexists. split; [reflexivity|]. cbn [data validStart validEnd segments gl].
    split; [reflexivity|]. split; [reflexivity|]. split; [lia|].
    split; [exists []; reflexivity|].
    split; [unfold chain_len; cbn [segments validStart validEnd]; lia|].
    split; [exact Hown' | exact Hfor].
  - rewrite (@pushFront_loop_continue a numDP t rest Hsegs Hne) by lia.
    set (g := gl a ++ [syncPoints_upload t (items (data a))
                         (numDP - validStart a) (validStart a) 0]).
    destruct (@owned_sync (gl a) (segments a) t (items (data a))
                (numDP - validStart a) (validStart a) 0)
      as (_ & Hown1 & _ & Hfor1); try assumption; try lia.
    fold g in Hown1, Hfor1.
    destruct (owned_create Hown1) as (_ & Hown2 & _ & Hfor2 & _).
    cbv zeta in Hown2, Hfor2.
    destruct (IH (Z.to_nat (numDP - (validStart a
                     - (BUFFER_POINT_CAPACITY - BUFFER_INTERVAL_CAPACITY))
                   - BUFFER_POINT_CAPACITY + 1)))
      with (a := mkSeries (g ++ [createTexture (List.length g)]) (data a)
                          (List.length g :: segments a) BUFFER_POINT_CAPACITY
                          (validEnd a))
           (numDPtoAdd := numDP - (validStart a
                     - (BUFFER_POINT_CAPACITY - BUFFER_INTERVAL_CAPACITY)))
      as (a' & E & Hd & Hve' & Hvs' & (added & Hadd) & Hlen & Hown' & Hfor');
      cbn [data validStart validEnd segments gl];
      try assumption; try discriminate; try (capacity_values; lia).
    cbn [data validStart validEnd segments gl] in Hd, Hve', Hadd, Hfor'.
    exists a'. split; [exact E|]. split; [exact Hd|]. split; [exact Hve'|].
    split; [exact Hvs'|].
    split; [exists (added ++ [List.length g]); rewrite Hadd, <- app_assoc;
            reflexivity|].
    split.
    + rewrite Hlen. unfold chain_len. cbn [segments validStart validEnd].
      rewrite len_cons. capacity_values. lia.
    + split; [exact Hown'|]. intros t'. now rewrite Hfor', Hfor2, Hfor1.
Qed.

(** *** A whole sync *)

(** Bootstrap by [pushBack]: the chain is empty and the whole array counts
    as pushed to the back. *)
Lemma bootstrap_back a g d :
  segments a = [] -> gl a = g -> data a = d ->
  owned g [] -> 2 <= len (items d) -> pushed_back d = len (items d) ->
  exists a',
    pushBack a = Returns a' /\ data a' = d /\
    segments a' <> [] /\ validStart a' = 1 /\
    2 <= validEnd a' < BUFFER_POINT_CAPACITY /\
    chain_len a' = len (items d) /\
    owned (gl a') (segments a') /\
    (forall t, foreign (gl a') (segments a') t <-> foreign g [] t).
Proof.
  intros Hseg Hg Hda Hown Hlen Hpb. unfold pushBack, newArray.
  rewrite Hseg, Hg, Hda, Hpb.
  destruct (Z.eqb_spec (len (items d)) 0); [lia|].
  destruct (owned_create Hown) as (_ & Hown1 & _ & Hfor1 & _).
  cbv zeta in Hown1, Hfor1.
  destruct (@pushBack_loop_spec (Z.to_nat (len (items d) + 1))
              (mkSeries (g ++ [createTexture (List.length g)]) d
                        [List.length g] 1 1) (len (items d)))
    as (a' & E & Hd & Hvs & Hve & (added & Hadd) & Hl & Hown' & Hfor');
    cbn [data segments gl validStart validEnd];
    try assumption; try discriminate; try (capacity_values; lia).
  { intros H0. rewrite H0, len_nil in Hlen. lia. }
  cbn [data segments gl validStart validEnd] in Hd, Hvs, Hadd, Hfor'.
  exists a'. split; [exact E|]. split; [exact Hd|].
  split; [rewrite Hadd; discriminate|]. split; [exact Hvs|].
  split; [exact Hve|]. split.
  - rewrite Hl. unfold chain_len. cbn [segments validStart validEnd].
    rewrite len_cons, len_nil. lia.
  - split; [exact Hown'|]. intros t. now rewrite Hfor', Hfor1.
Qed.

(** Bootstrap by [pushFront]: the whole array counts as pushed to the
    front. *)
Lemma bootstrap_front a g d :
  segments a = [] -> gl a = g -> data a = d ->
  owned g [] -> 2 <= len (items d) -> pushed_front d = len (items d) ->
  exists a',
    pushFront a = Returns a' /\ data a' = d /\
    segments a' <> [] /\
    0 < validStart a' <= BUFFER_INTERVAL_CAPACITY /\
    validEnd a' = BUFFER_POINT_CAPACITY - 1 /\
    chain_len a' = len (items d) /\
    owned (gl a') (segments a') /\
    (forall t, foreign (gl a') (segments a') t <-> foreign g [] t).
Proof.
  intros Hseg Hg Hda Hown Hlen Hpf. unfold pushFront, newArray.
  rewrite Hseg, Hg, Hda, Hpf.
  destruct (Z.eqb_spec (len (items d)) 0); [lia|].
  destruct (owned_create Hown) as (_ & Hown1 & _ & Hfor1 & _).
  cbv zeta in Hown1, Hfor1.
  destruct (@pushFront_loop_spec
              (Z.to_nat (len (items d) - (BUFFER_POINT_CAPACITY - 1) + 1))
              (mkSeries (g ++ [createTexture (List.length g)]) d
                        [List.length g] (BUFFER_POINT_CAPACITY - 1)
                        (BUFFER_POINT_CAPACITY - 1)) (len (items d)))
    as (a' & E & Hd & Hve & Hvs & (added & Hadd) & Hl & Hown' & Hfor');
    cbn [data segments gl validStart validEnd];
    try assumption; try discriminate; try (capacity_values; lia).
  { intros H0. rewrite H0, len_nil in Hlen. lia. }
  cbn [data segments gl validStart validEnd] in Hd, Hve, Hadd, Hfor'.
  exists a'. split; [exact E|]. split; [exact Hd|].
  split; [rewrite Hadd; destruct added; discriminate|]. split; [exact Hvs|].
  split; [exact Hve|]. split.
  - rewrite Hl. unfold chain_len. cbn [segments validStart validEnd].
    rewrite len_cons, len_nil. lia.
  - split; [exact Hown'|]. intros t. now rewrite Hfor', Hfor1.
Qed.

(** [pushFront] on a chain that is not empty. *)
Lemma pushFront_spec a :
  owned (gl a) (segments a) -> segments a <> [] -> items (data a) <> [] ->
  0 < validStart a <= BUFFER_INTERVAL_CAPACITY ->
  0 <= pushed_front (data a) ->
  exists a',
    pushFront a = Returns a' /\ data a' = data a /\
    validEnd a' = validEnd a /\
    0 < validStart a' <= BUFFER_INTERVAL_CAPACITY /\
    segments a' <> [] /\
    chain_len a' = chain_len a + pushed_front (data a) /\
    owned (gl a') (segments a') /\
    (forall t, foreign (gl a') (segments a') t
               <-> foreign (gl a) (segments a) t).
Proof.
  intros Hown Hseg Hne Hvs Hpf. unfold pushFront.
  destruct (Z.eqb_spec (pushed_front (data a)) 0) as [E0|E0].
  - exists a. split; [reflexivity|]. split; [reflexivity|].
    split; [reflexivity|]. split; [exact Hvs|]. split; [exact Hseg|].
    split; [lia|]. split; [exact Hown|]. intros t. reflexivity.
  - replace (match segments a with [] => _ | _ :: _ => a end) with a
      by (destruct (segments a); [contradiction | reflexivity]).
    destruct (@pushFront_loop_spec
                (Z.to_nat (pushed_front (data a) - validStart a + 1))
                a (pushed_front (data a)))
      as (a4 & E & Hd & Hve' & Hvs' & (added & Hadd) & Hl & Hown' & Hfor');
      try assumption; try reflexivity; try (capacity_values; lia).
    exists a4. split; [exact E|]. split; [exact Hd|].
    split; [exact Hve'|]. split; [exact Hvs'|].
    split; [rewrite Hadd; destruct added, (segments a);
            [contradiction | discriminate..]|].
    split; [exact Hl|]. split; [exact Hown' | exact Hfor'].
Qed.

(** [pushBack] on a chain that is not empty. *)
Lemma pushBack_spec a :
  owned (gl a) (segments a) -> segments a <> [] -> items (data a) <> [] ->
  2 <= validEnd a < BUFFER_POINT_CAPACITY ->
  0 <= pushed_back (data a) ->
  exists a',
    pushBack a = Returns a' /\ data a' = data a /\
    validStart a' = validStart a /\
    2 <= validEnd a' < BUFFER_POINT_CAPACITY /\
    segments a' <> [] /\
    chain_len a' = chain_len a + pushed_back (data a) /\
    owned (gl a') (segments a') /\
    (forall t, foreign (gl a') (segments a') t
               <-> foreign (gl a) (segments a) t).
Proof.
  intros Hown Hseg Hne Hve Hpb. unfold pushBack.
  destruct (Z.eqb_spec (pushed_back (data a)) 0) as [E0|E0].
  - exists a. split; [reflexivity|]. split; [reflexivity|].
    split; [reflexivity|]. split; [exact Hve|]. split; [exact Hseg|].
    split; [lia|]. split; [exact Hown|]. intros t. reflexivity.
  - replace (match segments a with [] => _ | _ :: _ => a end) with a
      by (destruct (segments a); [contradiction | reflexivity]).
    destruct (@pushBack_loop_spec
                (Z.to_nat (pushed_back (data a) + validEnd a))
                a (pushed_back (data a)))
      as (a5 & E & Hd & Hvs' & Hve' & (added & Hadd) & Hl & Hown' & Hfor');
      try assumption; try reflexivity; try (capacity_values; lia).
    exists a5. split; [exact E|]. split; [exact Hd|].
    split; [exact Hvs'|]. split; [exact Hve'|].
    split; [rewrite Hadd; destruct (segments a);
            [contradiction | discriminate]|].
    split; [exact Hl|]. split; [exact Hown' | exact Hfor'].
Qed.

(** The test that opens [syncBuffer]: when fewer than 2 points survive
    from the last sync, the chain is torn down and the two [poped] counters
    are cleared; otherwise nothing happens. *)
Lemma teardown_state a :
  owned (gl a) (segments a) ->
  let a1 := if length (data a) - pushed_back (data a) - pushed_front (data a) <? 2
            then let a0 := deinit a in
                 set_data a0 (set_poped_back (set_poped_front (data a0) 0) 0)
            else a in
  items (data a1) = items (data a) /\
  pushed_front (data a1) = pushed_front (data a) /\
  pushed_back (data a1) = pushed_back (data a) /\
  owned (gl a1) (segments a1) /\
  (forall t, foreign (gl a1) (segments a1) t
             <-> foreign (gl a) (segments a) t) /\
  (segments a1 <> [] ->
   a1 = a /\
   2 <= length (data a) - pushed_back (data a) - pushed_front (data a)).
Proof.
  intros Hown a1. subst a1.
  destruct (Z.ltb_spec (length (data a) - pushed_back (data a)
                        - pushed_front (data a)) 2) as [Hlt|Hge].
  - chain_fields.
    destruct (@owned_delete (segments a) (gl a) (segments a) Hown)
      with (segs' := @nil texture) as [Hown' Hfor'].
    + auto.
    + apply Hown.
    + intros t. cbn [In]. tauto.
    + constructor.
    + split; [reflexivity|]. split; [reflexivity|]. split; [reflexivity|].
      split; [exact Hown'|]. split; [exact Hfor'|].
      intros H. contradiction.
  - split; [reflexivity|]. split; [reflexivity|]. split; [reflexivity|].
    split; [exact Hown|]. split; [intros t; reflexivity|].
    intros _. split; [reflexivity | lia].
Qed.

(** What one [syncBuffer] does to a chain in the state [chain_ok]. *)
Lemma syncBuffer_spec a :
  chain_ok a ->
  exists a',
    syncBuffer a = Returns a' /\
    items (data a') = items (data a) /\
    owned (gl a') (segments a') /\
    (forall t, foreign (gl a') (segments a') t
               <-> foreign (gl a) (segments a) t) /\
    (length (data a) < 2 -> segments a' = []) /\
    (2 <= length (data a) ->
     segments a' <> [] /\
     0 < validStart a' <= BUFFER_INTERVAL_CAPACITY /\
     2 <= validEnd a' < BUFFER_POINT_CAPACITY /\
     chain_len a' = length (data a)).
Proof.
  intros (Hwf & Hown & Hchain). pose proof Hwf as (Hpf & Hpb & Hqf & Hqb & Hsum).
  unfold syncBuffer.
  (* the chain after the teardown test *)
  set (a1 := if length (data a) - pushed_back (data a) - pushed_front (data a) <? 2
             then let a0 := deinit a in
                  set_data a0 (set_poped_back (set_poped_front (data a0) 0) 0)
             else a).
  assert (H1 : items (data a1) = items (data a) /\
               pushed_front (data a1) = pushed_front (data a) /\
               pushed_back (data a1) = pushed_back (data a) /\
               owned (gl a1) (segments a1) /\
               (forall t, foreign (gl a1) (segments a1) t
                          <-> foreign (gl a) (segments a) t) /\
               (segments a1 <> [] ->
                a1 = a /\
                2 <= length (data a) - pushed_back (data a) - pushed_front (data a))).
  { subst a1. exact (@teardown_state a Hown). }
  clearbody a1.
  destruct H1 as (Hitems1 & Hpf1 & Hpb1 & Hown1 & Hfor1 & Hkeep).
  assert (Hlen1 : length (data a1) = length (data a))
    by (unfold length; now rewrite Hitems1).
  destruct (segments a1) as [|s0 srest] eqn:Hseg1.
  - (* empty chain: bootstrap or nothing *)
    rewrite len_nil. cbn [Z.eqb]. rewrite Hlen1.
    destruct (Z.leb_spec 2 (length (data a))) as [H2|H2].
    + destruct (Z.ltb_spec (pushed_front (data a1)) (pushed_back (data a1))).
      * destruct (@bootstrap_back
                    (set_data a1 (set_pushed_back (data a1) (length (data a))))
                    (gl a1) (set_pushed_back (data a1) (length (data a))))
          as (a' & E & Hd & Hs & Hvs & Hve & Hl & Hown' & Hfor');
          try reflexivity; try assumption;
          chain_fields; try (unfold length in *; rewrite Hitems1; lia).
        exists a'. split; [exact E|]. rewrite Hd. chain_fields.
        split; [exact Hitems1|]. split; [exact Hown'|].
        split; [intros t; now rewrite Hfor', <- Hfor1|].
        split; [lia|]. intros _. split; [exact Hs|]. split; [capacity_values; lia|].
        split; [exact Hve|]. rewrite Hl, Hitems1. reflexivity.
      * destruct (@bootstrap_front
                    (set_data a1 (set_pushed_front (data a1) (length (data a))))
                    (gl a1) (set_pushed_front (data a1) (length (data a))))
          as (a' & E & Hd & Hs & Hvs & Hve & Hl & Hown' & Hfor');
          try reflexivity; try assumption;
          chain_fields; try (unfold length in *; rewrite Hitems1; lia).
        exists a'. split; [exact E|]. rewrite Hd. chain_fields.
        split; [exact Hitems1|]. split; [exact Hown'|].
        split; [intros t; now rewrite Hfor', <- Hfor1|].
        split; [lia|]. intros _. split; [exact Hs|]. split; [exact Hvs|].
        split; [capacity_values; lia|]. rewrite Hl, Hitems1. reflexivity.
    + exists a1. split; [reflexivity|]. split; [exact Hitems1|].
      rewrite Hseg1. split; [exact Hown1|]. split; [exact Hfor1|].
      split; [reflexivity|]. intros H. lia.
  - (* the four steps on the chain as it is *)
    destruct Hkeep as [-> Hsynced]; [discriminate|]. clear Hitems1 Hpf1 Hpb1 Hown1 Hfor1 Hlen1.
    assert (Hlen : (len (s0 :: srest) =? 0) = false).
    { rewrite len_cons. pose proof (len_nonneg srest). apply Z.eqb_neq. lia. }
    rewrite Hlen. clear Hlen.
    destruct Hchain as (Hvs & Hve & Hcl); [rewrite Hseg1; discriminate|].
    unfold chain_len, synced_before in Hcl.
    assert (Hne : items (data a) <> []).
    { intros H0. unfold length in Hsynced. rewrite H0, len_nil in Hsynced. lia. }
    (* popFront *)
    destruct (@popFront_spec a Hown Hne Hvs Hqf)
      as (a2 & dropF & first & rest & E2 & Hd2 & Hve2 & Hs2 & Hs2' & Hvs2 & Hvs2'
          & _ & Hown2 & Hfor2).
    { capacity_values. lia. }
    rewrite E2. cbn [andThen].
    assert (Hk2 : len (segments a) = len dropF + len (segments a2))
      by (rewrite Hs2 at 1; apply len_app).
    (* popBack *)
    destruct (@popBack_spec a2) as (a3 & dropB & front & last & E3 & Hd3 & Hvs3
                                    & Hs3 & Hs3' & Hve3 & Hve3' & _ & Hown3 & Hfor3);
      rewrite ?Hd2, ?Hve2; try assumption.
    { capacity_values. lia. }
    rewrite E3. cbn [andThen].
    assert (Hk3 : len (segments a2) = len (segments a3) + len dropB).
    { rewrite Hs3 at 1. now rewrite len_app, len_rev. }
    rewrite Hd2 in Hd3, Hve3. rewrite Hve2 in Hve3.
    assert (Hcl3 : chain_len a3
                   = length (data a) - pushed_front (data a) - pushed_back (data a)).
    { unfold chain_len. rewrite Hve3, Hvs3, Hvs2. lia. }
    (* pushFront *)
    assert (E4 : exists a4,
               pushFront a3 = Returns a4 /\ data a4 = data a /\
               validEnd a4 = validEnd a3 /\
               0 < validStart a4 <= BUFFER_INTERVAL_CAPACITY /\
               segments a4 <> [] /\
               chain_len a4 = length (data a) - pushed_back (data a) /\
               owned (gl a4) (segments a4) /\
               (forall t, foreign (gl a4) (segments a4) t
                          <-> foreign (gl a3) (segments a3) t)).
    { destruct (@pushFront_spec a3)
        as (a4 & E & Hd & Hve' & Hvs' & Hs & Hl & Hown' & Hfor');
        rewrite ?Hd3, ?Hvs3; try assumption.
      { rewrite Hs3'. destruct front; discriminate. }
      rewrite Hd3 in Hd, Hl.
      exists a4. split; [exact E|]. split; [exact Hd|].
      split; [exact Hve'|]. split; [exact Hvs'|]. split; [exact Hs|].
      split; [lia|]. split; [exact Hown' | exact Hfor']. }
    destruct E4 as (a4 & E4 & Hd4 & Hve4 & Hvs4 & Hs4 & Hcl4 & Hown4 & Hfor4).
    rewrite E4. cbn [andThen].
    (* pushBack *)
    assert (E5 : exists a5,
               pushBack a4 = Returns a5 /\ data a5 = data a /\
               validStart a5 = validStart a4 /\
               2 <= validEnd a5 < BUFFER_POINT_CAPACITY /\
               segments a5 <> [] /\
               chain_len a5 = length (data a) /\
               owned (gl a5) (segments a5) /\
               (forall t, foreign (gl a5) (segments a5) t
                          <-> foreign (gl a4) (segments a4) t)).
    { destruct (@pushBack_spec a4)
        as (a5 & E & Hd & Hvs' & Hve' & Hs & Hl & Hown' & Hfor');
        rewrite ?Hd4, ?Hve4; try assumption.
      rewrite Hd4 in Hd, Hl.
      exists a5. split; [exact E|]. split; [exact Hd|].
      split; [exact Hvs'|]. split; [exact Hve'|]. split; [exact Hs|].
      split; [lia|]. split; [exact Hown' | exact Hfor']. }
    destruct E5 as (a5 & E5 & Hd5 & Hvs5 & Hve5 & Hs5 & Hcl5 & Hown5 & Hfor5).
    exists a5. split; [exact E5|]. split; [now rewrite Hd5|].
    split; [exact Hown5|].
    split; [intros t; now rewrite Hfor5, Hfor4, Hfor3, Hfor2|].
    split; [intros H; lia|]. intros _.
    split; [exact Hs5|]. split; [rewrite Hvs5; exact Hvs4|].
    split; [exact Hve5 | exact Hcl5].
Qed.

Lemma synced_chain_ok a' L :
  owned (gl a') (segments a') ->
  length (data a') = L ->
  (L < 2 -> segments a' = []) ->
  (2 <= L ->
   segments a' <> [] /\
   0 < validStart a' <= BUFFER_INTERVAL_CAPACITY /\
   2 <= validEnd a' < BUFFER_POINT_CAPACITY /\
   chain_len a' = L) ->
  chain_ok (mutate _synced a').
Proof.
  intros Hown HL Hshort Hlong. unfold chain_ok, mutate, _synced, assign.
  unfold set_data. cbn [snd data gl segments validStart validEnd].
  split; [|split; [exact Hown|]].
  - unfold wf, length. cbn [items pushed_front pushed_back poped_front poped_back].
    pose proof (len_nonneg (items (data a'))). lia.
  - intros Hs. destruct (Z.lt_ge_cases L 2) as [H|H].
    + exfalso. apply Hs. now apply Hshort.
    + destruct (Hlong H) as (_ & Hvs & Hve & Hcl).
      split; [exact Hvs|]. split; [exact Hve|].
      unfold chain_len in *. cbn [segments validStart validEnd].
      unfold synced_before, length in *.
      cbn [items pushed_front pushed_back poped_front poped_back]. lia.
Qed.

(** The chain of a new series, on a context that accepted the calls made
    so far. *)
Lemma fresh_chain_ok g d : accepted g -> wf d -> chain_ok (LineChart.new g d).
Proof.
  intros Hg Hd. unfold chain_ok, LineChart.new. cbn [data gl segments].
  split; [exact Hd|]. split.
  - split; [exact Hg|]. split; [constructor | intros t []].
  - intros H. contradiction.
Qed.

Lemma new_buffer_wf l : wf (Buffer.new l).
Proof.
  unfold wf, Buffer.new, length.
  cbn [items pushed_front pushed_back poped_front poped_back].
  pose proof (len_nonneg l). lia.
Qed.

(** X17.  The invariant of the segment chain.  From a state in which the
    buffer's counters are well-formed, the segments are distinct existing
    textures and a non-empty chain has [validStart] in
    (0, BUFFER_INTERVAL_CAPACITY], [validEnd] in [2, BUFFER_POINT_CAPACITY)
    and holds as many points as were synced, [syncBuffer] always returns.
    The array is untouched; afterwards the chain is empty when the array has
    fewer than 2 points, and otherwise it is not empty and holds exactly as
    many points as the array; and once the buffer is marked as synced the
    state is of the same kind again. *)
Theorem syncBuffer_keeps_chain a :
  chain_ok a ->
  exists a',
    syncBuffer a = Returns a' /\
    items (data a') = items (data a) /\
    (length (data a) < 2 -> segments a' = []) /\
    (2 <= length (data a) ->
     segments a' <> [] /\ chain_len a' = length (data a)) /\
    chain_ok (mutate _synced a').
Proof.
  intros Hok. destruct (syncBuffer_spec Hok)
    as (a' & E & Hitems & Hown & _ & Hshort & Hlong).
  exists a'. split; [exact E|]. split; [exact Hitems|].
  split; [exact Hshort|]. split.
  - intros H. destruct (Hlong H) as (Hs & _ & _ & Hcl). now split.
  - apply synced_chain_ok with (L := length (data a)); try assumption.
    unfold length. now rewrite Hitems.
Qed.

(** X18.  The texture calls of a sync.  From the same state, when
    [syncBuffer] returns, the context has accepted every call (no texture was
    written to or deleted that did not exist, no upload left the image), the
    segments are distinct, and the textures that exist afterwards are the
    segments of the chain and the textures that existed before without being
    segments: the segments that left the chain were deleted, nothing else
    was, and no texture is left over. *)
Theorem syncBuffer_textures a a' :
  chain_ok a -> syncBuffer a = Returns a' ->
  accepted (gl a') /\ NoDup (segments a') /\
  forall t, live (gl a') t = true
            <-> In t (segments a') \/ foreign (gl a) (segments a) t.
Proof.
  intros Hok E. destruct (syncBuffer_spec Hok)
    as (a0 & E0 & _ & (Hacc & Hnd & Hlive) & Hfor & _).
  rewrite E0 in E. apply Returns_inj in E. subst a0.
  split; [exact Hacc|]. split; [exact Hnd|]. intros t. split.
  - intros Ht. destruct (in_dec Nat.eq_dec t (segments a')) as [Hin|Hout].
    + now left.
    + right. apply Hfor. now split.
  - intros [Hin|Hf]; [now apply Hlive|]. apply Hfor in Hf. apply Hf.
Qed.

(** *** What the textures hold *)

Lemma texel_call g call t c :
  texel (g ++ [call]) t c = texel_latest (call :: rev g) t c.
Proof. unfold texel. now rewrite rev_unit. Qed.

Lemma texel_create g t' t c :
  t' <> t -> texel (g ++ [createTexture t']) t c = texel g t c.
Proof. intros H. rewrite texel_call. now apply texel_create_other. Qed.

Lemma texel_deletes dropped : forall g t c,
  ~ In t dropped -> texel (g ++ map deleteTexture dropped) t c = texel g t c.
Proof.
  induction dropped as [|d dropped IH]; intros g t c H.
  - cbn [map]. now rewrite app_nil_r.
  - cbn [map].
    replace (g ++ deleteTexture d :: map deleteTexture dropped)
      with ((g ++ [deleteTexture d]) ++ map deleteTexture dropped)
      by (rewrite <- app_assoc; reflexivity).
    rewrite IH by (intros Hin; apply H; now right).
    rewrite texel_call. apply texel_delete_other.
    intros ->. apply H. now left.
Qed.

(** After an upload by [syncPoints]: the cells of its rows hold the data
    points at their clamped source indexes, rounded, and every other cell is
    as before. *)
Lemma texel_upload g t pts start n bufferPos rs re t' c :
  pts <> [] ->
  syncPoints_rows start n bufferPos (len pts) = (rs, re) ->
  texel (g ++ [syncPoints_upload t pts start n bufferPos]) t' c =
  if Nat.eqb t t' && (rs * BUFFER_TEXTURE_WIDTH <=? c)
     && (c <? re * BUFFER_TEXTURE_WIDTH)
  then option_map float32 (at_index pts (sourceIndex start bufferPos (len pts) c))
  else texel g t' c.
Proof.
  intros Hne Hrows. rewrite texel_call. unfold texel.
  destruct (Nat.eqb_spec t t') as [<-|Hne'].
  - destruct (Z.leb_spec (rs * BUFFER_TEXTURE_WIDTH) c);
      [destruct (Z.ltb_spec c (re * BUFFER_TEXTURE_WIDTH))|]; cbn [andb].
    + eapply texel_upload_hit; [exact Hne | exact Hrows | lia].
    + eapply texel_upload_miss; [exact Hrows | right; now right].
    + eapply texel_upload_miss; [exact Hrows | right; now left].
  - cbn [andb]. eapply texel_upload_miss; [exact Hrows | now left].
Qed.

(** The rows of an upload reach from the row of [bufferPos] to the row of
    the last cell written, at least. *)
Lemma syncPoints_rows_reach start n bufferPos length rs re :
  syncPoints_rows start n bufferPos length = (rs, re) ->
  floor_div bufferPos BUFFER_TEXTURE_WIDTH - 1 <= rs
    <= floor_div bufferPos BUFFER_TEXTURE_WIDTH /\
  ceil_div (bufferPos + n) BUFFER_TEXTURE_WIDTH <= re
    <= ceil_div (bufferPos + n) BUFFER_TEXTURE_WIDTH + 1 /\
  (start <> 0 -> rs = floor_div bufferPos BUFFER_TEXTURE_WIDTH) /\
  (start + n <> length -> re = ceil_div (bufferPos + n) BUFFER_TEXTURE_WIDTH).
Proof.
  unfold syncPoints_rows.
  destruct (Z.ltb_spec 0 (floor_div bufferPos BUFFER_TEXTURE_WIDTH)),
    (Z.eqb_spec start 0),
    (Z.eqb_spec bufferPos (floor_div bufferPos BUFFER_TEXTURE_WIDTH
                           * BUFFER_TEXTURE_WIDTH)),
    (Z.ltb_spec (ceil_div (bufferPos + n) BUFFER_TEXTURE_WIDTH)
                BUFFER_TEXTURE_HEIGHT),
    (Z.eqb_spec (start + n) length),
    (Z.eqb_spec (bufferPos + n)
                (ceil_div (bufferPos + n) BUFFER_TEXTURE_WIDTH
                 * BUFFER_TEXTURE_WIDTH));
    cbn [andb]; intros E; injection E as <- <-;
    repeat split; intros; lia.
Qed.

(** An upload to the [jt]-th segment keeps a chain filled, over a region
    that may be another one: the cells of the new region that are written
    get the data point they should hold, and the others were in the old
    region. *)
Lemma filled_upload g segs pts off loP hiP d1 d2 loP' hiP' d1' d2'
    jt t start n bufferPos rs re :
  NoDup segs -> pts <> [] ->
  nth_error segs jt = Some t ->
  syncPoints_rows start n bufferPos (len pts) = (rs, re) ->
  filled g segs pts off loP hiP d1 d2 ->
  (forall c,
     0 <= c < BUFFER_POINT_CAPACITY ->
     rs * BUFFER_TEXTURE_WIDTH <= c < re * BUFFER_TEXTURE_WIDTH ->
     loP' <= Z.of_nat jt * BUFFER_INTERVAL_CAPACITY + c < hiP' ->
     (jt = 0%nat -> d1' <= c) ->
     (S jt = List.length segs -> c < d2') ->
     sourceIndex start bufferPos (len pts) c
     = Z.of_nat jt * BUFFER_INTERVAL_CAPACITY + c - off) ->
  (forall j c,
     (j < List.length segs)%nat ->
     0 <= c < BUFFER_POINT_CAPACITY ->
     loP' <= Z.of_nat j * BUFFER_INTERVAL_CAPACITY + c < hiP' ->
     (j = 0%nat -> d1' <= c) ->
     (S j = List.length segs -> c < d2') ->
     (j = jt /\ rs * BUFFER_TEXTURE_WIDTH <= c < re * BUFFER_TEXTURE_WIDTH) \/
     (loP <= Z.of_nat j * BUFFER_INTERVAL_CAPACITY + c < hiP /\
      (j = 0%nat -> d1 <= c) /\ (S j = List.length segs -> c < d2))) ->
  filled (g ++ [syncPoints_upload t pts start n bufferPos]) segs pts
         off loP' hiP' d1' d2'.
Proof.
  intros Hnd Hne Hjt Hrows Hold Hwritten Hother j t' c Hj Hc HP H1 H2.
  assert (Hlt : (j < List.length segs)%nat).
  { apply nth_error_Some. rewrite Hj. discriminate. }
  rewrite (@texel_upload g t pts start n bufferPos rs re t' c Hne Hrows).
  destruct (Nat.eqb_spec t t') as [<-|Hne'].
  - assert (j = jt).
    { apply (proj1 (NoDup_nth_error segs) Hnd); [exact Hlt | congruence]. }
    subst j.
    destruct (Z.leb_spec (rs * BUFFER_TEXTURE_WIDTH) c);
      [destruct (Z.ltb_spec c (re * BUFFER_TEXTURE_WIDTH))|]; cbn [andb].
    + do 2 f_equal. apply Hwritten; auto.
    + destruct (Hother jt c Hlt Hc HP H1 H2) as [[_ Hin]|(Ha & Hb & Hd)]; [lia|].
      now apply Hold.
    + destruct (Hother jt c Hlt Hc HP H1 H2) as [[_ Hin]|(Ha & Hb & Hd)]; [lia|].
      now apply Hold.
  - cbn [andb].
    destruct (Hother j c Hlt Hc HP H1 H2) as [[-> _]|(Ha & Hb & Hd)].
    + congruence.
    + now apply Hold.
Qed.

(** A region of a filled chain that lies inside the old one. *)
Lemma filled_inside g segs pts off loP hiP d1 d2 loP' hiP' d1' d2' :
  filled g segs pts off loP hiP d1 d2 ->
  (forall j c,
     (j < List.length segs)%nat ->
     0 <= c < BUFFER_POINT_CAPACITY ->
     loP' <= Z.of_nat j * BUFFER_INTERVAL_CAPACITY + c < hiP' ->
     (j = 0%nat -> d1' <= c) ->
     (S j = List.length segs -> c < d2') ->
     loP <= Z.of_nat j * BUFFER_INTERVAL_CAPACITY + c < hiP /\
     (j = 0%nat -> d1 <= c) /\ (S j = List.length segs -> c < d2)) ->
  filled g segs pts off loP' hiP' d1' d2'.
Proof.
  intros Hold Hin j t c Hj Hc HP H1 H2.
  assert (Hlt : (j < List.length segs)%nat).
  { apply nth_error_Some. rewrite Hj. discriminate. }
  destruct (Hin j c Hlt Hc HP H1 H2) as (Ha & Hb & Hd). now apply Hold.
Qed.

(** The same cells under another numbering of the segments, after calls
    that left them alone. *)
Lemma filled_moved g g' segs segs' pts off loP hiP d1 d2 off' loP' hiP' d1' d2' :
  filled g segs pts off loP hiP d1 d2 ->
  (forall j' t c,
     nth_error segs' j' = Some t ->
     0 <= c < BUFFER_POINT_CAPACITY ->
     loP' <= Z.of_nat j' * BUFFER_INTERVAL_CAPACITY + c < hiP' ->
     (j' = 0%nat -> d1' <= c) ->
     (S j' = List.length segs' -> c < d2') ->
     exists j,
       nth_error segs j = Some t /\
       Z.of_nat j * BUFFER_INTERVAL_CAPACITY - off
       = Z.of_nat j' * BUFFER_INTERVAL_CAPACITY - off' /\
       loP <= Z.of_nat j * BUFFER_INTERVAL_CAPACITY + c < hiP /\
       (j = 0%nat -> d1 <= c) /\
       (S j = List.length segs -> c < d2) /\
       texel g' t c = texel g t c) ->
  filled g' segs' pts off' loP' hiP' d1' d2'.
Proof.
  intros Hold Hmove j' t c Hj Hc HP H1 H2.
  destruct (Hmove j' t c Hj Hc HP H1 H2) as (j & Hnth & Hoff & Ha & Hb & Hd & ->).
  rewrite (Hold j t c Hnth Hc Ha Hb Hd). do 2 f_equal. lia.
Qed.

Lemma nth_error_last {A : Type} (l rest : list A) (a : A) :
  rev l = a :: rest -> nth_error l (List.length l - 1) = Some a.
Proof.
  intros H. assert (Hl : l = rev rest ++ [a]).
  { rewrite <- (rev_involutive l), H. reflexivity. }
  rewrite Hl, length_app. cbn [List.length].
  rewrite nth_error_app2 by lia.
  replace (List.length (rev rest) + 1 - 1 - List.length (rev rest))%nat
    with 0%nat by lia.
  reflexivity.
Qed.

(** Arithmetic on cells, rows and positions of the chain. *)
Ltac cells :=
  unfold chain_len, Buffer.length, len, sourceIndex in *;
  rewrite ?WIDTH_eq, ?HEIGHT_eq, ?POINT_CAPACITY_eq, ?INTERVAL_CAPACITY_eq in *;
  unfold floor_div, ceil_div in *;
  Z.div_mod_to_equations; lia.

(** The loop of [pushBack] on a chain that is filled up to [validEnd]:
    afterwards it is filled with the whole array. *)
Lemma pushBack_loop_filled (m : nat) : forall a numDPtoAdd a' d2,
  Z.to_nat (numDPtoAdd + validEnd a) = m ->
  owned (gl a) (segments a) ->
  segments a <> [] -> items (data a) <> [] ->
  0 <= validEnd a < BUFFER_POINT_CAPACITY ->
  1 <= numDPtoAdd -> 2 <= validEnd a + numDPtoAdd ->
  chain_len a + numDPtoAdd = length (data a) ->
  floor_div (validEnd a) BUFFER_TEXTURE_WIDTH * BUFFER_TEXTURE_WIDTH <= d2 ->
  filled (gl a) (segments a) (items (data a)) (validStart a) (validStart a)
         ((len (segments a) - 1) * BUFFER_INTERVAL_CAPACITY
          + Z.max (validEnd a) 2) 0 d2 ->
  pushBack_loop (a, numDPtoAdd) = Returns a' ->
  filled (gl a') (segments a') (items (data a')) (validStart a') (validStart a')
         (validStart a' + length (data a')) 0 BUFFER_POINT_CAPACITY.
Proof.
  induction m as [m IH] using lt_wf_ind.
  intros a numDP a' d2 Hm Hown Hseg Hne Hve Hnum Hsum Hcl Hd2 Hfilled E.
  destruct (rev (segments a)) as [|t rest] eqn:Hrev.
  { apply (f_equal (@rev _)) in Hrev. rewrite rev_involutive in Hrev.
    contradiction. }
  assert (Ht : In t (segments a)).
  { apply in_rev. rewrite Hrev. now left. }
  pose proof (nth_error_last _ Hrev) as Hjt.
  assert (Hk : (0 < List.length (segments a))%nat).
  { destruct (segments a); [contradiction | cbn; lia]. }
  pose proof Hown as (_ & Hnd & _).
  unfold length in Hcl.
  destruct (Z.lt_ge_cases (validEnd a + numDP) BUFFER_POINT_CAPACITY) as [Hfit|Hfull].
  - rewrite (@pushBack_loop_break a numDP t rest Hrev Hne) in E by lia.
    apply Returns_inj in E. subst a'. cbn [gl segments data validStart].
    destruct (syncPoints_rows (length (data a) - numDP) numDP (validEnd a)
                (len (items (data a)))) as [rs re] eqn:Hrows.
    destruct (@syncPoints_rows_inside (length (data a) - numDP) numDP
                (validEnd a) (len (items (data a))) rs re)
      as (R1 & R2 & R3 & R4 & R5); [lia | lia | lia | exact Hrows |].
    destruct (@syncPoints_rows_reach (length (data a) - numDP) numDP
                (validEnd a) (len (items (data a))) rs re Hrows) as (R6 & R7 & _).
    eapply filled_upload; try eassumption.
    + intros c Hc Hin HP H1 H2. cells.
    + intros j c Hj Hc HP H1 H2.
      destruct (Nat.eq_dec j (List.length (segments a) - 1)) as [->|Hne'].
      * destruct (Z.lt_ge_cases c (rs * BUFFER_TEXTURE_WIDTH)).
        -- right. split; [cells|]. split; [lia|]. intros _. cells.
        -- left. split; [reflexivity|]. cells.
      * right. split; [cells|]. split; [lia|]. intros Hl. lia.
  - rewrite (@pushBack_loop_continue a numDP t rest Hrev Hne) in E by lia.
    cbv zeta in E.
    set (n := BUFFER_POINT_CAPACITY - validEnd a) in *.
    set (g := gl a ++ [syncPoints_upload t (items (data a))
                         (length (data a) - numDP) n (validEnd a)]) in *.
    destruct (@owned_sync (gl a) (segments a) t (items (data a))
                (length (data a) - numDP) n (validEnd a))
      as (_ & Hown1 & _ & _); try assumption; try (subst n; lia).
    fold g in Hown1.
    destruct (owned_create Hown1) as (Hfresh & _ & Hown2 & _).
    cbv zeta in Hfresh, Hown2.
    assert (F1 : filled g (segments a) (items (data a)) (validStart a)
                   (validStart a)
                   ((len (segments a) - 1) * BUFFER_INTERVAL_CAPACITY
                    + BUFFER_POINT_CAPACITY) 0 BUFFER_POINT_CAPACITY).
    { destruct (syncPoints_rows (length (data a) - numDP) n (validEnd a)
                  (len (items (data a)))) as [rs re] eqn:Hrows.
      destruct (@syncPoints_rows_inside (length (data a) - numDP) n
                  (validEnd a) (len (items (data a))) rs re)
        as (R1 & R2 & R3 & R4 & R5);
        [subst n; lia | lia | subst n; lia | exact Hrows |].
      destruct (@syncPoints_rows_reach (length (data a) - numDP) n
                  (validEnd a) (len (items (data a))) rs re Hrows)
        as (R6 & R7 & _).
      subst g. eapply filled_upload; try eassumption.
      + intros c Hc Hin HP H1 H2. subst n. cells.
      + intros j c Hj Hc HP H1 H2.
        destruct (Nat.eq_dec j (List.length (segments a) - 1)) as [->|Hne'].
        * destruct (Z.lt_ge_cases c (rs * BUFFER_TEXTURE_WIDTH)).
          -- right. split; [cells|]. split; [lia|]. intros _. cells.
          -- left. split; [reflexivity|]. subst n. cells.
        * right. split; [cells|]. split; [lia|]. intros Hl. lia. }
    assert (F2 : filled (g ++ [createTexture (List.length g)])
                   (segments a ++ [List.length g]) (items (data a))
                   (validStart a) (validStart a)
                   ((len (segments a ++ [List.length g]) - 1)
                      * BUFFER_INTERVAL_CAPACITY + Z.max 0 2) 0 0).
    { eapply filled_moved; [exact F1|].
      intros j' t' c Hj' Hc HP H1 H2.
      assert (Hlt : (j' < List.length (segments a ++ [List.length g]))%nat).
      { apply nth_error_Some. rewrite Hj'. discriminate. }
      rewrite length_app in Hlt, H2. cbn [List.length] in Hlt, H2.
      destruct (Nat.eq_dec (S j') (List.length (segments a) + 1)) as [Hlast|Hnl].
      { specialize (H2 Hlast). lia. }
      rewrite nth_error_app1 in Hj' by lia.
      exists j'. split; [exact Hj'|]. split; [reflexivity|].
      rewrite len_app, len_cons, len_nil in HP.
      split; [cells|]. split; [lia|]. split; [intros _; lia|].
      apply texel_create. intros Heq. apply Hfresh. rewrite Heq.
      eapply nth_error_In; eassumption. }
    apply (IH (Z.to_nat (numDP - (BUFFER_INTERVAL_CAPACITY - validEnd a) + 0)))
      with (a := mkSeries (g ++ [createTexture (List.length g)]) (data a)
                          (segments a ++ [List.length g]) (validStart a) 0)
           (numDPtoAdd := numDP - (BUFFER_INTERVAL_CAPACITY - validEnd a))
           (d2 := 0);
      cbn [data validStart validEnd segments gl];
      try assumption; try reflexivity;
      try (capacity_values; lia).
    + destruct (segments a); discriminate.
    + unfold chain_len in *. cbn [segments validStart validEnd].
      rewrite len_app, len_cons, len_nil. unfold length in *. lia.
Qed.

(** The loop of [pushFront] on a chain that is filled from [validStart]
    on: afterwards it is filled from the first point of the array on. *)
Lemma pushFront_loop_filled (m : nat) : forall a numDPtoAdd a' d1 d2 hiIdx,
  Z.to_nat (numDPtoAdd - validStart a + 1) = m ->
  owned (gl a) (segments a) ->
  segments a <> [] -> items (data a) <> [] ->
  0 < validStart a <= BUFFER_POINT_CAPACITY ->
  1 <= numDPtoAdd ->
  hiIdx <= length (data a) ->
  d1 <= ceil_div (validStart a) BUFFER_TEXTURE_WIDTH * BUFFER_TEXTURE_WIDTH ->
  filled (gl a) (segments a) (items (data a)) (validStart a - numDPtoAdd)
         (Z.min (validStart a) BUFFER_INTERVAL_CAPACITY)
         (validStart a - numDPtoAdd + hiIdx) d1 d2 ->
  pushFront_loop (a, numDPtoAdd) = Returns a' ->
  filled (gl a') (segments a') (items (data a')) (validStart a') (validStart a')
         (validStart a' + hiIdx) 0 d2.
Proof.
  induction m as [m IH] using lt_wf_ind.
  intros a numDP a' d1 d2 hiIdx Hm Hown Hseg Hne Hvs Hnum Hhi Hd1 Hfilled E.
  destruct (segments a) as [|t rest] eqn:Hsegs; [contradiction|].
  assert (Ht : In t (segments a)) by (rewrite Hsegs; now left).
  assert (Hjt : nth_error (segments a) 0 = Some t) by (now rewrite Hsegs).
  rewrite <- Hsegs in Hfilled, Hown, Hseg.
  pose proof Hown as (_ & Hnd & _).
  unfold length in Hhi.
  destruct (Z.lt_ge_cases numDP (validStart a)) as [Hfit|Hfull].
  - rewrite (@pushFront_loop_break a numDP t rest Hsegs Hne) in E by lia.
    apply Returns_inj in E. subst a'. cbn [gl segments data validStart].
    destruct (syncPoints_rows 0 numDP (validStart a - numDP)
                (len (items (data a)))) as [rs re] eqn:Hrows.
    destruct (@syncPoints_rows_inside 0 numDP (validStart a - numDP)
                (len (items (data a))) rs re)
      as (R1 & R2 & R3 & R4 & R5); [lia|lia|lia|exact Hrows|].
    destruct (@syncPoints_rows_reach 0 numDP (validStart a - numDP)
                (len (items (data a))) rs re Hrows) as (R6 & R7 & _).
    replace (validStart a - numDP + numDP) with (validStart a) in R5, R7 by lia.
    eapply filled_upload; try eassumption.
    + intros c Hc Hin HP H1 H2. cells.
    + intros j c Hj Hc HP H1 H2.
      destruct (Nat.eq_dec j 0) as [->|Hne'].
      * destruct (Z.lt_ge_cases c (re * BUFFER_TEXTURE_WIDTH)).
        -- left. split; [reflexivity|]. cells.
        -- right. split; [cells|]. split; [intros _; cells | exact H2].
      * right. split; [cells|]. split; [intros; lia | exact H2].
  - rewrite (@pushFront_loop_continue a numDP t rest Hsegs Hne) in E by lia.
    cbv zeta in E.
    set (g := gl a ++ [syncPoints_upload t (items (data a))
                         (numDP - validStart a) (validStart a) 0]) in *.
    destruct (@owned_sync (gl a) (segments a) t (items (data a))
                (numDP - validStart a) (validStart a) 0)
      as (_ & Hown1 & _ & _); try assumption; try lia.
    fold g in Hown1.
    destruct (owned_create Hown1) as (Hfresh & Hown2 & _).
    cbv zeta in Hfresh, Hown2.
    assert (F1 : filled g (segments a) (items (data a)) (validStart a - numDP)
                   0 (validStart a - numDP + hiIdx) 0 d2).
    { destruct (syncPoints_rows (numDP - validStart a) (validStart a) 0
                  (len (items (data a)))) as [rs re] eqn:Hrows.
      destruct (@syncPoints_rows_inside (numDP - validStart a) (validStart a) 0
                  (len (items (data a))) rs re)
        as (R1 & R2 & R3 & R4 & R5); [lia|lia|lia|exact Hrows|].
      destruct (@syncPoints_rows_reach (numDP - validStart a) (validStart a) 0
                  (len (items (data a))) rs re Hrows) as (R6 & R7 & _).
      subst g. eapply filled_upload; try eassumption.
      + intros c Hc Hin HP H1 H2. cells.
      + intros j c Hj Hc HP H1 H2.
        destruct (Nat.eq_dec j 0) as [->|Hne'].
        * destruct (Z.lt_ge_cases c (re * BUFFER_TEXTURE_WIDTH)).
          -- left. split; [reflexivity|]. cells.
          -- right. split; [cells|]. split; [intros _; cells | exact H2].
        * right. split; [cells|]. split; [intros; lia | exact H2]. }
    assert (F2 : filled (g ++ [createTexture (List.length g)])
                   (List.length g :: segments a) (items (data a))
                   (BUFFER_POINT_CAPACITY
                    - (numDP - (validStart a
                                - (BUFFER_POINT_CAPACITY
                                   - BUFFER_INTERVAL_CAPACITY))))
                   (Z.min BUFFER_POINT_CAPACITY BUFFER_INTERVAL_CAPACITY)
                   (BUFFER_POINT_CAPACITY
                    - (numDP - (validStart a
                                - (BUFFER_POINT_CAPACITY
                                   - BUFFER_INTERVAL_CAPACITY)))
                    + hiIdx)
                   BUFFER_POINT_CAPACITY d2).
    { eapply filled_moved; [exact F1|].
      intros j' t' c Hj' Hc HP H1 H2.
      destruct j' as [|j]; [specialize (H1 eq_refl); lia|].
      cbn [nth_error] in Hj'. cbn [List.length] in H2.
      exists j. split; [exact Hj'|].
      split; [cells|]. split; [cells|]. split; [intros _; lia|].
      split; [intros Hl; apply H2; now f_equal|].
      apply texel_create. intros Heq. apply Hfresh. rewrite Heq.
      eapply nth_error_In; eassumption. }
    apply (IH (Z.to_nat (numDP - (validStart a
                                  - (BUFFER_POINT_CAPACITY
                                     - BUFFER_INTERVAL_CAPACITY))
                         - BUFFER_POINT_CAPACITY + 1)))
      with (a := mkSeries (g ++ [createTexture (List.length g)]) (data a)
                          (List.length g :: segments a)
                          BUFFER_POINT_CAPACITY (validEnd a))
           (numDPtoAdd := numDP - (validStart a
                                   - (BUFFER_POINT_CAPACITY
                                      - BUFFER_INTERVAL_CAPACITY)))
           (d1 := BUFFER_POINT_CAPACITY) (d2 := d2);
      cbn [data validStart validEnd segments gl];
      try assumption; try reflexivity;
      try (capacity_values; lia).
    discriminate.
Qed.

(** [popFront] on a chain that mirrors the points left of the synced
    ones: the segments that stay are as they were, except for the row of
    the new start when points pushed in front are still to be uploaded. *)
Lemma popFront_filled a a' S :
  owned (gl a) (segments a) -> items (data a) <> [] ->
  0 < validStart a <= BUFFER_INTERVAL_CAPACITY ->
  0 <= poped_front (data a) ->
  validStart a + poped_front (data a)
    <= len (segments a) * BUFFER_INTERVAL_CAPACITY ->
  0 <= pushed_front (data a) ->
  S + pushed_front (data a) <= length (data a) ->
  filled (gl a) (segments a) (items (data a))
         (validStart a + poped_front (data a) - pushed_front (data a))
         (validStart a + poped_front (data a))
         (validStart a + poped_front (data a) + S) 0 BUFFER_POINT_CAPACITY ->
  popFront a = Returns a' ->
  filled (gl a') (segments a') (items (data a))
         (validStart a' - pushed_front (data a)) (validStart a')
         (validStart a' + S)
         (if (poped_front (data a) =? 0) || (pushed_front (data a) =? 0)
          then 0
          else ceil_div (validStart a') BUFFER_TEXTURE_WIDTH
               * BUFFER_TEXTURE_WIDTH)
         BUFFER_POINT_CAPACITY.
Proof.
  intros Hown Hne Hvs Hqf Hfit Hpf HS Hfilled E.
  destruct (Z.eqb_spec (poped_front (data a)) 0) as [E0|E0].
  - unfold popFront in E. rewrite E0 in E. cbn [Z.eqb] in E.
    apply Returns_inj in E. subst a'. cbn [orb].
    rewrite E0 in Hfilled.
    replace (validStart a + 0) with (validStart a) in Hfilled by lia.
    exact Hfilled.
  - destruct (@popFront_spec a Hown Hne Hvs Hqf Hfit)
      as (a2 & dropped & first & rest & E2 & Hd & Hve & Hs & Hs' & Hvs2 & Hvs2'
          & Hgl & Hown2 & _).
    rewrite E2 in E. apply Returns_inj in E. subst a2.
    destruct (Z.eqb_spec (poped_front (data a)) 0) as [|_]; [contradiction|].
    rewrite Hgl, app_assoc. cbn [orb].
    pose proof Hown as (_ & Hnd & _). rewrite Hs in Hnd.
    destruct (NoDup_app_parts _ _ Hnd) as (_ & Hnd' & Hdisj).
    assert (F1 : filled (gl a ++ map deleteTexture dropped) (segments a')
                   (items (data a)) (validStart a' - pushed_front (data a))
                   (validStart a') (validStart a' + S) 0 BUFFER_POINT_CAPACITY).
    { eapply filled_moved; [exact Hfilled|].
      intros j' t c Hj' Hc HP H1 H2.
      exists (List.length dropped + j')%nat.
      split.
      { rewrite Hs, nth_error_app2 by lia.
        replace (List.length dropped + j' - List.length dropped)%nat
          with j' by lia.
        exact Hj'. }
      unfold len in Hvs2.
      split; [lia|]. split; [lia|]. split; [intros _; lia|].
      split; [intros _; lia|].
      apply texel_deletes. intros Hin. apply (Hdisj t Hin).
      eapply nth_error_In; eassumption. }
    assert (Hjt : nth_error (segments a') 0 = Some first) by (now rewrite Hs').
    destruct (syncPoints_rows 0 0 (validStart a') (len (items (data a))))
      as [rs re] eqn:Hrows.
    destruct (@syncPoints_rows_inside 0 0 (validStart a')
                (len (items (data a))) rs re)
      as (R1 & R2 & R3 & R4 & R5);
      [lia | lia | capacity_values; lia | exact Hrows |].
    destruct (@syncPoints_rows_reach 0 0 (validStart a')
                (len (items (data a))) rs re Hrows) as (R6 & R7 & _ & R8).
    pose proof (nonempty_len Hne) as Hlen.
    specialize (R8 ltac:(lia)).
    replace (validStart a' + 0) with (validStart a') in R5, R7, R8 by lia.
    unfold length in HS.
    eapply filled_upload; try eassumption.
    + intros c Hc Hin HP H1 H2.
      destruct (Z.eqb_spec (pushed_front (data a)) 0) as [P0|P0].
      * cells.
      * specialize (H1 eq_refl). lia.
    + intros j c Hj Hc HP H1 H2.
      right. split; [lia|]. split; [intros _; lia | exact H2].
Qed.

(** [popBack] likewise: the segments that stay are as they were, except
    for the row of the new end when points pushed at the back are still to
    be uploaded. *)
Lemma popBack_filled a a' off loP hiP d1 :
  owned (gl a) (segments a) -> items (data a) <> [] ->
  2 <= validEnd a < BUFFER_POINT_CAPACITY ->
  0 <= poped_back (data a) ->
  2 <= validEnd a - poped_back (data a)
       + (len (segments a) - 1) * BUFFER_INTERVAL_CAPACITY ->
  off <= loP ->
  hiP <= off + length (data a) ->
  (pushed_back (data a) = 0 ->
   off + length (data a)
   = (len (segments a) - 1) * BUFFER_INTERVAL_CAPACITY
     + validEnd a - poped_back (data a)) ->
  filled (gl a) (segments a) (items (data a)) off loP hiP d1
         BUFFER_POINT_CAPACITY ->
  popBack a = Returns a' ->
  filled (gl a') (segments a') (items (data a)) off loP hiP d1
         (if (poped_back (data a) =? 0) || (pushed_back (data a) =? 0)
          then BUFFER_POINT_CAPACITY
          else floor_div (validEnd a') BUFFER_TEXTURE_WIDTH
               * BUFFER_TEXTURE_WIDTH).
Proof.
  intros Hown Hne Hve Hqb Hfit Hlo Hhi Hend Hfilled E.
  destruct (Z.eqb_spec (poped_back (data a)) 0) as [E0|E0].
  - unfold popBack in E. rewrite E0 in E. cbn [Z.eqb] in E.
    apply Returns_inj in E. subst a'. cbn [orb]. exact Hfilled.
  - destruct (@popBack_spec a Hown Hne Hve Hqb Hfit)
      as (a3 & dropped & front & last & E3 & Hd & Hvs & Hs & Hs' & Hve3 & Hve3'
          & Hgl & Hown3 & _).
    rewrite E3 in E. apply Returns_inj in E. subst a3.
    destruct (Z.eqb_spec (poped_back (data a)) 0) as [|_]; [contradiction|].
    rewrite Hgl, app_assoc. cbn [orb].
    pose proof Hown as (_ & Hnd & _). rewrite Hs in Hnd.
    destruct (NoDup_app_parts _ _ Hnd) as (Hnd' & _ & Hdisj).
    assert (Hk : len (segments a) = len (segments a') + len dropped).
    { rewrite Hs at 1. now rewrite len_app, len_rev. }
    assert (F1 : filled (gl a ++ map deleteTexture dropped) (segments a')
                   (items (data a)) off loP hiP d1 BUFFER_POINT_CAPACITY).
    { eapply filled_moved; [exact Hfilled|].
      intros j' t c Hj' Hc HP H1 H2.
      assert (Hlt : (j' < List.length (segments a'))%nat).
      { apply nth_error_Some. rewrite Hj'. discriminate. }
      exists j'.
      split; [rewrite Hs, nth_error_app1 by exact Hlt; exact Hj'|].
      split; [reflexivity|]. split; [exact HP|]. split; [exact H1|].
      split; [intros _; lia|].
      apply texel_deletes. intros Hin.
      apply (Hdisj t); [eapply nth_error_In; eassumption|].
      now apply -> in_rev. }
    assert (Hjt : nth_error (segments a') (List.length (segments a') - 1)
                  = Some last).
    { apply nth_error_last with (rest := rev front).
      now rewrite Hs', rev_unit. }
    assert (Hpos : (0 < List.length (segments a'))%nat).
    { rewrite Hs', length_app. cbn [List.length]. lia. }
    destruct (syncPoints_rows (length (data a)) 0 (validEnd a')
                (len (items (data a)))) as [rs re] eqn:Hrows.
    destruct (@syncPoints_rows_inside (length (data a)) 0 (validEnd a')
                (len (items (data a))) rs re)
      as (R1 & R2 & R3 & R4 & R5);
      [lia | lia | lia | exact Hrows |].
    destruct (@syncPoints_rows_reach (length (data a)) 0 (validEnd a')
                (len (items (data a))) rs re Hrows) as (R6 & R7 & R8 & _).
    pose proof (nonempty_len Hne) as Hlen.
    unfold length in *.
    specialize (R8 ltac:(lia)).
    eapply filled_upload; try eassumption.
    + intros c Hc Hin HP H1 H2.
      destruct (Z.eqb_spec (pushed_back (data a)) 0) as [P0|P0].
      * specialize (Hend P0). cells.
      * specialize (H2 ltac:(lia)). lia.
    + intros j c Hj Hc HP H1 H2.
      right. split; [lia|]. split; [exact H1 | intros _; lia].
Qed.

(** [pushFront] on a chain that is filled from [validStart] on, but for
    the row of [validStart] when points are to be added. *)
Lemma pushFront_filled a a' S d1 d2 :
  owned (gl a) (segments a) -> segments a <> [] -> items (data a) <> [] ->
  0 < validStart a <= BUFFER_INTERVAL_CAPACITY ->
  0 <= pushed_front (data a) ->
  S + pushed_front (data a) <= length (data a) ->
  (pushed_front (data a) = 0 -> d1 = 0) ->
  d1 <= ceil_div (validStart a) BUFFER_TEXTURE_WIDTH * BUFFER_TEXTURE_WIDTH ->
  filled (gl a) (segments a) (items (data a))
         (validStart a - pushed_front (data a)) (validStart a)
         (validStart a + S) d1 d2 ->
  pushFront a = Returns a' ->
  filled (gl a') (segments a') (items (data a')) (validStart a') (validStart a')
         (validStart a' + (S + pushed_front (data a))) 0 d2.
Proof.
  intros Hown Hseg Hne Hvs Hpf HS Hd0 Hd1 Hfilled E. unfold pushFront in E.
  destruct (Z.eqb_spec (pushed_front (data a)) 0) as [E0|E0].
  - apply Returns_inj in E. subst a'. rewrite (Hd0 E0) in Hfilled.
    rewrite E0 in Hfilled |- *.
    replace (validStart a - 0) with (validStart a) in Hfilled by lia.
    replace (validStart a + (S + 0)) with (validStart a + S) by lia.
    exact Hfilled.
  - replace (match segments a with [] => _ | _ :: _ => a end) with a in E
      by (destruct (segments a); [contradiction | reflexivity]).
    apply pushFront_loop_filled
      with (m := Z.to_nat (pushed_front (data a) - validStart a + 1))
           (a := a) (numDPtoAdd := pushed_front (data a)) (d1 := d1);
      try assumption; try reflexivity; try (capacity_values; lia).
    rewrite Z.min_l by lia.
    replace (validStart a - pushed_front (data a) + (S + pushed_front (data a)))
      with (validStart a + S) by lia.
    exact Hfilled.
Qed.

(** [pushBack] on a chain that is filled up to [validEnd], but for the row
    of [validEnd] when points are to be added. *)
Lemma pushBack_filled a a' d2 :
  owned (gl a) (segments a) -> segments a <> [] -> items (data a) <> [] ->
  2 <= validEnd a < BUFFER_POINT_CAPACITY ->
  0 <= pushed_back (data a) ->
  chain_len a + pushed_back (data a) = length (data a) ->
  (pushed_back (data a) = 0 -> d2 = BUFFER_POINT_CAPACITY) ->
  floor_div (validEnd a) BUFFER_TEXTURE_WIDTH * BUFFER_TEXTURE_WIDTH <= d2 ->
  filled (gl a) (segments a) (items (data a)) (validStart a) (validStart a)
         (validStart a + chain_len a) 0 d2 ->
  pushBack a = Returns a' ->
  filled (gl a') (segments a') (items (data a')) (validStart a') (validStart a')
         (validStart a' + length (data a')) 0 BUFFER_POINT_CAPACITY.
Proof.
  intros Hown Hseg Hne Hve Hpb Hcl Hd0 Hd2 Hfilled E. unfold pushBack in E.
  destruct (Z.eqb_spec (pushed_back (data a)) 0) as [E0|E0].
  - apply Returns_inj in E. subst a'. rewrite (Hd0 E0) in Hfilled.
    replace (validStart a + length (data a))
      with (validStart a + chain_len a) by lia.
    exact Hfilled.
  - replace (match segments a with [] => _ | _ :: _ => a end) with a in E
      by (destruct (segments a); [contradiction | reflexivity]).
    apply pushBack_loop_filled
      with (m := Z.to_nat (pushed_back (data a) + validEnd a))
           (a := a) (numDPtoAdd := pushed_back (data a)) (d2 := d2);
      try assumption; try reflexivity; try lia.
    replace ((len (segments a) - 1) * BUFFER_INTERVAL_CAPACITY
             + Z.max (validEnd a) 2)
      with (validStart a + chain_len a) by (unfold chain_len; lia).
    exact Hfilled.
Qed.

(** Bootstrap by [pushBack]: the new chain is filled with the array. *)
Lemma bootstrap_back_filled a a' :
  segments a = [] -> owned (gl a) [] ->
  2 <= length (data a) -> pushed_back (data a) = length (data a) ->
  pushBack a = Returns a' ->
  filled (gl a') (segments a') (items (data a')) (validStart a') (validStart a')
         (validStart a' + length (data a')) 0 BUFFER_POINT_CAPACITY.
Proof.
  intros Hseg Hown Hlen Hpb E. unfold pushBack, newArray in E.
  rewrite Hseg, Hpb in E.
  destruct (Z.eqb_spec (length (data a)) 0); [lia|].
  destruct (owned_create Hown) as (_ & Hown1 & _). cbv zeta in Hown1.
  assert (Hne : items (data a) <> []).
  { intros H0. unfold length in Hlen. rewrite H0, len_nil in Hlen. lia. }
  apply pushBack_loop_filled
    with (m := Z.to_nat (length (data a) + 1))
         (a := mkSeries (gl a ++ [createTexture (List.length (gl a))]) (data a)
                        [List.length (gl a)] 1 1)
         (numDPtoAdd := length (data a)) (d2 := 0);
    cbn [data segments gl validStart validEnd];
    try assumption; try reflexivity; try discriminate;
    try (capacity_values; lia).
  intros j t c Hj Hc HP H1 H2.
  destruct j as [|j]; [|destruct j; discriminate].
  specialize (H2 eq_refl). lia.
Qed.

(** Bootstrap by [pushFront], likewise. *)
Lemma bootstrap_front_filled a a' :
  segments a = [] -> owned (gl a) [] ->
  2 <= length (data a) -> pushed_front (data a) = length (data a) ->
  pushFront a = Returns a' ->
  filled (gl a') (segments a') (items (data a')) (validStart a') (validStart a')
         (validStart a' + length (data a')) 0 BUFFER_POINT_CAPACITY.
Proof.
  intros Hseg Hown Hlen Hpf E. unfold pushFront, newArray in E.
  rewrite Hseg, Hpf in E.
  destruct (Z.eqb_spec (length (data a)) 0); [lia|].
  destruct (owned_create Hown) as (_ & Hown1 & _). cbv zeta in Hown1.
  assert (Hne : items (data a) <> []).
  { intros H0. unfold length in Hlen. rewrite H0, len_nil in Hlen. lia. }
  destruct (pushFront_loop_adds _ E) as [Hd _]. cbn [fst data] in Hd.
  rewrite Hd at 2.
  apply pushFront_loop_filled
    with (m := Z.to_nat (length (data a) - (BUFFER_POINT_CAPACITY - 1) + 1))
         (a := mkSeries (gl a ++ [createTexture (List.length (gl a))]) (data a)
                        [List.length (gl a)] (BUFFER_POINT_CAPACITY - 1)
                        (BUFFER_POINT_CAPACITY - 1))
         (numDPtoAdd := length (data a)) (d1 := BUFFER_POINT_CAPACITY);
    cbn [data segments gl validStart validEnd];
    try assumption; try reflexivity; try discriminate;
    try (capacity_values; lia).
  intros j t c Hj Hc HP H1 H2.
  destruct j as [|j]; [|destruct j; discriminate].
  specialize (H1 eq_refl). lia.
Qed.

(** A chain that mirrors the synced region is filled with it. *)
Lemma mirrors_filled a :
  mirrors a ->
  filled (gl a) (segments a) (items (data a))
         (validStart a + poped_front (data a) - pushed_front (data a))
         (validStart a + poped_front (data a))
         (validStart a + poped_front (data a)
          + (length (data a) - pushed_front (data a) - pushed_back (data a)))
         0 BUFFER_POINT_CAPACITY.
Proof.
  intros Hmir j t c Hj Hc HP _ _.
  rewrite (Hmir (Z.of_nat j * BUFFER_INTERVAL_CAPACITY + c - validStart a) t c).
  - unfold synced_at. do 2 f_equal. lia.
  - unfold synced_before. lia.
  - exists j. split; [exact Hj|]. split; [lia | exact Hc].
Qed.

(** A chain filled with the array mirrors it once the buffer is marked as
    synced. *)
Lemma filled_mirrors a :
  filled (gl a) (segments a) (items (data a)) (validStart a) (validStart a)
         (validStart a + length (data a)) 0 BUFFER_POINT_CAPACITY ->
  mirrors (mutate _synced a).
Proof.
  intros Hfill k t c Hk (j & Hj & Hc & Hcr). revert Hk Hj Hc.
  unfold mutate, _synced, assign, set_data, synced_before, synced_at, length.
  cbn [snd data gl segments validStart
       items pushed_front pushed_back poped_front poped_back].
  intros Hk Hj Hc. unfold length in Hfill.
  rewrite (Hfill j t c Hj Hcr); [do 2 f_equal; lia | lia | lia | lia].
Qed.

(** What the textures hold after [syncBuffer]: the chain is filled with
    the array, from [validStart] of the first segment on. *)
Lemma syncBuffer_filled a a' :
  chain_ok a -> mirrors a -> syncBuffer a = Returns a' ->
  filled (gl a') (segments a') (items (data a')) (validStart a') (validStart a')
         (validStart a' + length (data a')) 0 BUFFER_POINT_CAPACITY.
Proof.
  intros (Hwf & Hown & Hchain) Hmir E.
  pose proof Hwf as (Hpf & Hpb & Hqf & Hqb & Hsum).
  unfold syncBuffer in E.
  pose proof (@teardown_state a Hown) as H1. cbv zeta in H1.
  set (a1 := if length (data a) - pushed_back (data a) - pushed_front (data a) <? 2
             then set_data (deinit a)
                    (set_poped_back (set_poped_front (data (deinit a)) 0) 0)
             else a) in *.
  clearbody a1.
  destruct H1 as (Hitems1 & Hpf1 & Hpb1 & Hown1 & _ & Hkeep).
  destruct (segments a1) as [|s0 srest] eqn:Hseg1.
  - rewrite len_nil in E. cbn [Z.eqb] in E.
    destruct (Z.leb_spec 2 (length (data a1))) as [H2|H2].
    + destruct (Z.ltb_spec (pushed_front (data a1)) (pushed_back (data a1))).
      * apply (@bootstrap_back_filled
                 (set_data a1 (set_pushed_back (data a1) (length (data a1)))));
          try assumption; reflexivity.
      * apply (@bootstrap_front_filled
                 (set_data a1 (set_pushed_front (data a1) (length (data a1)))));
          try assumption; reflexivity.
    + apply Returns_inj in E. subst a'. rewrite Hseg1.
      intros j t c Hj. destruct j; discriminate.
  - destruct Hkeep as [-> Hsynced]; [discriminate|].
    clear Hitems1 Hpf1 Hpb1 Hown1.
    assert (Hlen : (len (s0 :: srest) =? 0) = false).
    { rewrite len_cons. pose proof (len_nonneg srest). apply Z.eqb_neq. lia. }
    rewrite Hlen in E. clear Hlen.
    destruct Hchain as (Hvs & Hve & Hcl); [rewrite Hseg1; discriminate|].
    unfold chain_len, synced_before in Hcl.
    assert (Hne : items (data a) <> []).
    { intros H0. unfold length in Hsynced. rewrite H0, len_nil in Hsynced. lia. }
    set (S := length (data a) - pushed_front (data a) - pushed_back (data a)) in *.
    pose proof (mirrors_filled Hmir) as F0. fold S in F0.
    (* popFront *)
    destruct (@popFront_spec a Hown Hne Hvs Hqf)
      as (a2 & dropF & first & rest & E2 & Hd2 & Hve2 & Hs2 & Hs2' & Hvs2 & Hvs2'
          & _ & Hown2 & _).
    { capacity_values. lia. }
    rewrite E2 in E. cbn [andThen] in E.
    assert (F2 := @popFront_filled a a2 S Hown Hne Hvs Hqf).
    specialize (F2 ltac:(capacity_values; lia) Hpf ltac:(subst S; lia) F0 E2).
    assert (Hk2 : len (segments a) = len dropF + len (segments a2))
      by (rewrite Hs2 at 1; apply len_app).
    (* popBack *)
    destruct (@popBack_spec a2) as (a3 & dropB & front & last & E3 & Hd3 & Hvs3
                                    & Hs3 & Hs3' & Hve3 & Hve3' & _ & Hown3 & _);
      rewrite ?Hd2, ?Hve2; try assumption.
    { capacity_values. lia. }
    rewrite E3 in E. cbn [andThen] in E.
    assert (Hk3 : len (segments a2) = len (segments a3) + len dropB).
    { rewrite Hs3 at 1. now rewrite len_app, len_rev. }
    set (d1 := if (poped_front (data a) =? 0) || (pushed_front (data a) =? 0)
               then 0
               else ceil_div (validStart a2) BUFFER_TEXTURE_WIDTH
                    * BUFFER_TEXTURE_WIDTH) in *.
    assert (Hd1 : (pushed_front (data a) = 0 -> d1 = 0) /\
                  d1 <= ceil_div (validStart a2) BUFFER_TEXTURE_WIDTH
                        * BUFFER_TEXTURE_WIDTH).
    { subst d1. split; [intros ->; now rewrite orb_true_r|].
      destruct (_ || _); [cells | lia]. }
    clearbody d1.
    assert (F3 : filled (gl a3) (segments a3) (items (data a))
                   (validStart a2 - pushed_front (data a)) (validStart a2)
                   (validStart a2 + S) d1
                   (if (poped_back (data a) =? 0) || (pushed_back (data a) =? 0)
                    then BUFFER_POINT_CAPACITY
                    else floor_div (validEnd a3) BUFFER_TEXTURE_WIDTH
                         * BUFFER_TEXTURE_WIDTH)).
    { rewrite <- Hd2. apply popBack_filled; rewrite ?Hd2, ?Hve2;
        try assumption; try (capacity_values; lia); subst S; lia. }
    rewrite Hd2 in Hd3, Hve3. rewrite Hve2 in Hve3.
    set (d2 := if (poped_back (data a) =? 0) || (pushed_back (data a) =? 0)
               then BUFFER_POINT_CAPACITY
               else floor_div (validEnd a3) BUFFER_TEXTURE_WIDTH
                    * BUFFER_TEXTURE_WIDTH) in *.
    assert (Hd2' : (pushed_back (data a) = 0 -> d2 = BUFFER_POINT_CAPACITY) /\
                   floor_div (validEnd a3) BUFFER_TEXTURE_WIDTH
                   * BUFFER_TEXTURE_WIDTH <= d2).
    { subst d2. split; [intros ->; now rewrite orb_true_r|].
      destruct (_ || _); [cells | lia]. }
    clearbody d2.
    assert (Hcl3 : chain_len a3 = S).
    { unfold chain_len. rewrite Hve3, Hvs3, Hvs2. subst S. lia. }
    assert (Hs3ne : segments a3 <> []).
    { rewrite Hs3'. destruct front; discriminate. }
    (* pushFront *)
    destruct (@pushFront_spec a3)
      as (a4 & E4 & Hd4 & Hve4 & Hvs4 & Hs4 & Hcl4 & Hown4 & _);
      rewrite ?Hd3, ?Hvs3; try assumption.
    rewrite E4 in E. cbn [andThen] in E.
    rewrite Hd3 in Hd4, Hcl4.
    assert (F4 : filled (gl a4) (segments a4) (items (data a4)) (validStart a4)
                   (validStart a4)
                   (validStart a4 + (S + pushed_front (data a))) 0 d2).
    { rewrite <- Hd3.
      apply (@pushFront_filled a3 a4 S d1 d2); rewrite ?Hd3, ?Hvs3;
        try assumption; try apply Hd1. subst S; lia. }
    (* pushBack *)
    apply (@pushBack_filled a4 a' d2 Hown4 Hs4); rewrite ?Hd4, ?Hve4;
      try assumption; try apply Hd2'; try (subst S; lia).
    rewrite <- Hd4, Hcl4, Hcl3. exact F4.
Qed.

(** The operations of the producer leave a chain in the state
    [chain_ok], and mirroring what is left of the synced region. *)
Lemma chain_ok_runs ops a d :
  chain_ok a -> runs ops (data a) = (Returns tt, d) -> chain_ok (set_data a d).
Proof.
  intros (Hwf & Hown & Hchain) E.
  pose proof (runs_spec ops Hwf) as Hr. rewrite E in Hr.
  destruct Hr as [Hwfd Hsb].
  split; [exact Hwfd|]. split; [exact Hown|]. intros Hs.
  destruct (Hchain Hs) as (H1 & H2 & H3). split; [exact H1|].
  split; [exact H2|]. unfold chain_len in *.
  cbn [set_data segments validStart validEnd data]. congruence.
Qed.

Lemma mirrors_runs ops a d :
  chain_ok a -> mirrors a -> runs ops (data a) = (Returns tt, d) ->
  mirrors (set_data a d).
Proof.
  intros (Hwf & _) Hmir E.
  destruct (runs_keep_synced ops Hwf E) as (Hsb & Hqf & Hqb & Hk).
  intros k t c Hr Hh. cbn [set_data data gl validStart] in *.
  rewrite Hk by exact Hr. apply Hmir; [lia | exact Hh].
Qed.

Lemma fresh_mirrors g d : mirrors (LineChart.new g d).
Proof. intros k t c _ (j & Hj & _). destruct j; discriminate. Qed.

(** A frame leaves the chain mirroring the array. *)
Lemma frame_mirrors ops a a' :
  chain_ok a -> mirrors a -> frame ops a = Returns a' -> mirrors a'.
Proof.
  intros Hok Hmir E. unfold frame in E.
  destruct (runs ops (data a)) as [[[]|e] d] eqn:Er; [|discriminate].
  destruct (syncBuffer (set_data a d)) as [a1|e] eqn:Es; [|discriminate].
  cbn [andThen] in E. apply Returns_inj in E. subst a'.
  apply filled_mirrors.
  eapply syncBuffer_filled; [| |exact Es].
  - eapply chain_ok_runs; eassumption.
  - eapply mirrors_runs; eassumption.
Qed.

(** A frame ends in sync; it throws only what the operations throw. *)
Lemma frame_spec ops a :
  chain_ok a ->
  match frame ops a with
  | Returns a' => in_sync a'
  | Throws e => thrown_by_splice e = true
  end.
Proof.
  intros (Hwf & Hown & Hchain). unfold frame.
  pose proof (runs_spec ops Hwf) as Hr.
  destruct (runs ops (data a)) as [[r|e] d].
  - destruct Hr as [Hwfd Hsb].
    assert (Hok : chain_ok (set_data a d)).
    { split; [exact Hwfd|]. split; [exact Hown|]. intros Hs.
      destruct (Hchain Hs) as (H1 & H2 & H3). split; [exact H1|].
      split; [exact H2|]. unfold chain_len in *.
      cbn [set_data segments validStart validEnd data]. congruence. }
    destruct (syncBuffer_spec Hok)
      as (a' & E & Hitems & Hown' & _ & Hshort & Hlong).
    rewrite E. cbn [andThen].
    assert (HL : length (data a') = length (data (set_data a d)))
      by (unfold length; now rewrite Hitems).
    split; [apply synced_chain_ok with (L := length (data (set_data a d)));
            assumption|].
    split; [reflexivity|].
    assert (HL' : length (data (mutate _synced a')) = length (data (set_data a d)))
      by (rewrite <- HL; reflexivity).
    rewrite HL'. split; [exact Hshort|].
    intros H. destruct (Hlong H) as (Hs & _ & _ & Hcl). now split.
  - destruct Hr as [->|[->| ->]]; reflexivity.
Qed.

(** X19.  Frame after frame.  From a state of the kind above (so from the
    fresh chain of a new series), whatever operations the producer runs
    between the frames, [syncBuffer] never throws: a sequence of frames ends
    in an exception that a [splice] of the producer threw or in a state of
    the same kind, in which the counters are zero and the chain holds exactly
    the points of the array (and is empty when there are fewer than 2). *)
Theorem frames_keep_chain ops cycles : forall a,
  chain_ok a ->
  match frames (ops :: cycles) a with
  | Returns a' => in_sync a'
  | Throws e => thrown_by_splice e = true
  end.
Proof.
  revert ops. induction cycles as [|ops' rest IH]; intros ops a Hok.
  - cbn [frames]. pose proof (frame_spec ops Hok) as Hf.
    destruct (frame ops a) as [a1|e]; cbn [andThen]; exact Hf.
  - change (frames (ops :: ops' :: rest) a)
      with (andThen (frame ops a) (frames (ops' :: rest))).
    pose proof (frame_spec ops Hok) as Hf.
    destruct (frame ops a) as [a1|e]; cbn [andThen]; [|exact Hf].
    apply IH. apply Hf.
Qed.

(** Frame after frame the chain mirrors the array. *)
Lemma frames_mirrors cycles : forall ops a a',
  chain_ok a -> mirrors a -> frames (ops :: cycles) a = Returns a' ->
  in_sync a' /\ mirrors a'.
Proof.
  induction cycles as [|ops' rest IH]; intros ops a a' Hok Hmir E;
    change (frames (ops :: ?l) a) with (andThen (frame ops a) (frames l)) in E;
    pose proof (frame_spec ops Hok) as Hf;
    destruct (frame ops a) as [a1|e] eqn:Ef; try discriminate;
    cbn [andThen] in E.
  - cbn [frames] in E. apply Returns_inj in E. subst a'.
    split; [exact Hf|]. eapply frame_mirrors; eassumption.
  - apply (IH ops' a1 a'); [apply Hf | | exact E].
    eapply frame_mirrors; eassumption.
Qed.

(** Every position of a chain that holds the array is held by a segment. *)
Lemma chain_held a i :
  segments a <> [] ->
  0 < validStart a <= BUFFER_INTERVAL_CAPACITY ->
  2 <= validEnd a < BUFFER_POINT_CAPACITY ->
  chain_len a = length (data a) ->
  0 <= i < length (data a) ->
  exists t c, holds a (validStart a + i) t c.
Proof.
  intros Hs Hvs Hve Hcl Hi.
  set (P := validStart a + i).
  set (j := Z.to_nat (Z.min (P / BUFFER_INTERVAL_CAPACITY)
                            (len (segments a) - 1))).
  pose proof (nonempty_len Hs) as Hk.
  assert (Hj : (j < List.length (segments a))%nat).
  { subst j. unfold len in *. capacity_values.
    assert (0 <= P / 524286)
      by (apply Z.div_pos; subst P; lia).
    lia. }
  destruct (nth_error (segments a) j) as [t|] eqn:Ht.
  - exists t, (P - Z.of_nat j * BUFFER_INTERVAL_CAPACITY), j.
    split; [exact Ht|]. split; [reflexivity|].
    subst j P. rewrite Z2Nat.id; cells.
  - apply nth_error_None in Ht. lia.
Qed.

Lemma in_sync_held a i :
  in_sync a -> 2 <= length (data a) -> 0 <= i < length (data a) ->
  exists t c, holds a (validStart a + i) t c.
Proof.
  intros ((_ & _ & Hchain) & _ & _ & Hlong) H2 Hi.
  destruct (Hlong H2) as (Hs & Hcl).
  destruct (Hchain Hs) as (Hvs & Hve & _).
  now apply chain_held.
Qed.

(** The teardown followed by the bootstrap: when fewer than 2 synced
    points are left and the array holds 2 points or more, [syncBuffer]
    returns with a new chain filled with the whole array. *)
Lemma teardown_bootstraps a :
  length (data a) - pushed_back (data a) - pushed_front (data a) < 2 ->
  owned (gl a) (segments a) -> 2 <= length (data a) ->
  exists a',
    syncBuffer a = Returns a' /\
    items (data a') = items (data a) /\
    segments a' <> [] /\
    0 < validStart a' <= BUFFER_INTERVAL_CAPACITY /\
    2 <= validEnd a' < BUFFER_POINT_CAPACITY /\
    chain_len a' = length (data a') /\
    owned (gl a') (segments a') /\
    filled (gl a') (segments a') (items (data a')) (validStart a') (validStart a')
           (validStart a' + length (data a')) 0 BUFFER_POINT_CAPACITY.
Proof.
  intros Hlt Hown H2.
  pose proof (@teardown_state a Hown) as H1. cbv zeta in H1.
  unfold syncBuffer.
  destruct (Z.ltb_spec (length (data a) - pushed_back (data a)
                        - pushed_front (data a)) 2) as [_|]; [|lia].
  set (a1 := set_data (deinit a)
               (set_poped_back (set_poped_front (data (deinit a)) 0) 0)) in *.
  destruct H1 as (Hitems1 & Hpf1 & Hpb1 & Hown1 & _ & _).
  assert (Hseg1 : segments a1 = []) by reflexivity.
  assert (Hlen1 : length (data a1) = length (data a))
    by (unfold length; now rewrite Hitems1).
  rewrite Hseg1 in Hown1. rewrite Hseg1, len_nil. cbn [Z.eqb].
  destruct (Z.leb_spec 2 (length (data a1))) as [_|]; [|lia].
  clearbody a1.
  destruct (Z.ltb_spec (pushed_front (data a1)) (pushed_back (data a1))).
  - set (a2 := set_data a1 (set_pushed_back (data a1) (length (data a1)))).
    destruct (@bootstrap_back a2 (gl a1) (data a2))
      as (a' & E & Hd & Hs & Hvs & Hve & Hcl & Hown' & _);
      try assumption; try reflexivity; [unfold length in *; subst a2; cbn; lia|].
    exists a'. split; [exact E|].
    assert (Hfill := @bootstrap_back_filled a2 a' Hseg1 Hown1).
    specialize (Hfill ltac:(subst a2; unfold length in *; cbn; lia) eq_refl E).
    rewrite Hd. split; [subst a2; exact Hitems1|].
    split; [exact Hs|]. split; [capacity_values; lia|]. split; [exact Hve|].
    split; [exact Hcl|]. split; [exact Hown'|].
    rewrite Hd in Hfill. exact Hfill.
  - set (a2 := set_data a1 (set_pushed_front (data a1) (length (data a1)))).
    destruct (@bootstrap_front a2 (gl a1) (data a2))
      as (a' & E & Hd & Hs & Hvs & Hve & Hcl & Hown' & _);
      try assumption; try reflexivity; [unfold length in *; subst a2; cbn; lia|].
    exists a'. split; [exact E|].
    assert (Hfill := @bootstrap_front_filled a2 a' Hseg1 Hown1).
    specialize (Hfill ltac:(subst a2; unfold length in *; cbn; lia) eq_refl E).
    rewrite Hd. split; [subst a2; exact Hitems1|].
    split; [exact Hs|]. split; [exact Hvs|]. split; [capacity_values; lia|].
    split; [exact Hcl|]. split; [exact Hown'|].
    rewrite Hd in Hfill. exact Hfill.
Qed.

(** C4, as the code has it.  When [syncBuffer] finds fewer than 2 synced
    points, every segment of the chain is deleted and the chain is emptied;
    [deinit] itself leaves the four counters alone, and [syncBuffer] then
    sets [poped_front] and [poped_back] to zero.  If the sequence holds fewer
    than 2 points nothing else happens: the chain stays empty and
    [pushed_front] and [pushed_back] are as before.  In every case the
    elements are untouched, both [poped] counters are zero afterwards, the
    old segments are deleted first and nothing else is deleted, and every
    segment of the chain afterwards was created after the teardown.  If the
    sequence holds 2 points or more, and the context accepted the calls so
    far and the old segments are distinct existing textures, a new chain is
    bootstrapped at once from the whole sequence: the call returns, the new
    chain is not empty, it holds as many points as the sequence, every index
    of the sequence has a cell in it, and every cell that the chain assigns
    to an index holds the data point of that index, rounded to single
    precision. *)
Theorem syncBuffer_teardown a :
  length (data a) - pushed_back (data a) - pushed_front (data a) < 2 ->
  (counters (deinit a) = counters a /\ segments (deinit a) = [] /\
   gl (deinit a) = gl a ++ map deleteTexture (segments a)) /\
  (length (data a) < 2 ->
   syncBuffer a =
   Returns (mkSeries (gl a ++ map deleteTexture (segments a))
              (mkBuffer (items (data a)) (pushed_back (data a))
                        (pushed_front (data a)) 0 0)
              [] (validStart a) (validEnd a))) /\
  (forall a', syncBuffer a = Returns a' ->
     items (data a') = items (data a) /\
     poped_front (data a') = 0 /\ poped_back (data a') = 0 /\
     exists calls,
       gl a' = gl a ++ map deleteTexture (segments a) ++ calls /\
       (forall t, ~ In (deleteTexture t) calls) /\
       (forall t, In t (segments a') -> In (createTexture t) calls)) /\
  (2 <= length (data a) -> owned (gl a) (segments a) ->
   exists a',
     syncBuffer a = Returns a' /\
     segments a' <> [] /\
     chain_len a' = length (data a) /\
     forall i, 0 <= i < length (data a) ->
       (exists t c, holds a' (validStart a' + i) t c) /\
       exists dp,
         at_index (items (data a)) i = Some dp /\
         forall t c, holds a' (validStart a' + i) t c ->
                     texel (gl a') t c = Some (float32 dp)).
Proof.
  intros Hlt. split; [repeat split|]. split; [|split].
  - intros Hlen. unfold syncBuffer.
    destruct (Z.ltb_spec (length (data a) - pushed_back (data a)
                          - pushed_front (data a)) 2); [|lia].
    chain_fields.
    destruct (Z.eqb_spec 0 0); [|lia].
    destruct (Z.leb_spec 2 (length (mkBuffer (items (data a)) (pushed_back (data a))
                                      (pushed_front (data a)) 0 0))) as [H2|H2];
      [unfold length in *; chain_fields; lia | reflexivity].
  - intros a'. unfold syncBuffer.
    destruct (Z.ltb_spec (length (data a) - pushed_back (data a)
                          - pushed_front (data a)) 2); [|lia].
    chain_fields.
    destruct (Z.eqb_spec 0 0); [|lia].
    match goal with |- context [if ?c then _ else _] => destruct c end.
    + match goal with |- context [if ?c then _ else _] => destruct c end;
        intros E;
        [apply pushBack_bootstrap in E | apply pushFront_bootstrap in E];
        try reflexivity;
        destruct E as (Hd & calls & Hg & Hn & Hs); cbn [gl data segments] in *;
        rewrite Hd; cbn [items poped_front poped_back];
        (split; [reflexivity|]); (split; [reflexivity|]); (split; [reflexivity|]);
        exists calls; (split; [rewrite Hg, <- app_assoc; reflexivity|]);
        split; assumption.
    + intros E. apply Returns_inj in E. subst a'. cbn [gl data segments items
        poped_front poped_back].
      repeat (split; [reflexivity|]). exists []. rewrite !app_nil_r.
      split; [reflexivity|]. split; intros t [].
  - intros H2 Hown.
    destruct (@teardown_bootstraps a Hlt Hown H2)
      as (a' & E & Hit & Hs & Hvs & Hve & Hcl & _ & Hfill).
    assert (Hlen : length (data a') = length (data a))
      by (unfold length; now rewrite Hit).
    exists a'. split; [exact E|]. split; [exact Hs|].
    split; [now rewrite <- Hlen|].
    intros i Hi. rewrite <- Hlen in Hi. split; [now apply chain_held|].
    destruct (@at_index_inside _ (items (data a')) i) as [dp Hdp];
      [unfold length in Hi; lia|].
    exists dp. split; [now rewrite <- Hit|].
    intros t c (j & Hj & Hc & Hcr).
    rewrite (Hfill j t c Hj Hcr); [| lia | lia | lia].
    replace (Z.of_nat j * BUFFER_INTERVAL_CAPACITY + c - validStart a') with i
      by lia.
    now rewrite Hdp.
Qed.

(** X20.  The textures mirror the array.  From a chain in the state above
    that mirrors the synced region of its buffer (so from the fresh chain of
    a new series), after any sequence of frames that ends without an
    exception, whatever operations the producer ran between the frames:
    every data point of the array is, with its coordinates rounded to
    single precision, in the texture cell that the chain assigns to it,
    [validStart + i] cells after cell 0 of the first segment, in every
    segment that holds that position (two on a seam); and when the array has
    2 points or more, every index has such a cell. *)
Theorem frames_mirror_array ops cycles a a' i :
  chain_ok a -> mirrors a ->
  frames (ops :: cycles) a = Returns a' ->
  0 <= i < length (data a') ->
  (2 <= length (data a') -> exists t c, holds a' (validStart a' + i) t c) /\
  exists dp,
    at_index (items (data a')) i = Some dp /\
    forall t c, holds a' (validStart a' + i) t c ->
                texel (gl a') t c = Some (float32 dp).
Proof.
  intros Hok Hmir E Hi.
  destruct (frames_mirrors cycles ops Hok Hmir E) as (Hsync & Hmir').
  split.
  - intros H2. now apply in_sync_held.
  - destruct (@at_index_inside _ (items (data a')) i) as [dp Hdp];
      [unfold length in Hi; lia|].
    exists dp. split; [exact Hdp|].
    intros t c Hh.
    destruct Hsync as (_ & Hc & _).
    unfold counters, Buffer.counters in Hc.
    assert (Hpf : pushed_front (data a') = 0) by congruence.
    assert (Hpb : pushed_back (data a') = 0) by congruence.
    assert (Hqf : poped_front (data a') = 0) by congruence.
    assert (Hqb : poped_back (data a') = 0) by congruence.
    rewrite (Hmir' i t c); [| |exact Hh].
    + unfold synced_at. rewrite Hpf, Hqf.
      replace (0 + i - 0) with i by lia. now rewrite Hdp.
    + unfold synced_before. lia.
Qed.

(** *** Drawing *)

Lemma Zrange_cons lo n : Zrange lo (S n) = lo :: Zrange (lo + 1) n.
Proof.
  unfold Zrange. cbn [seq map]. f_equal; [lia|].
  rewrite <- seq_shift, map_map. apply map_ext. intros k. lia.
Qed.

Lemma dataPoint_texel g t index :
  0 <= index -> dataPoint g t index = texel g t index.
Proof.
  intros H. unfold dataPoint. f_equal.
  rewrite Z.rem_mod_nonneg, Z.quot_div_nonneg by (capacity_values; lia).
  capacity_values. pose proof (Z.div_mod index 256). lia.
Qed.

(** One call of a segment's [draw] from the loop of the chain's [draw], for
    a line type other than [Step]: the vertices it runs fetch cells of the
    segment that hold visible points. *)
Lemma segment_draw_fetches g segs pts vs L j t sI eI type :
  filled g segs pts vs vs (vs + L) 0 BUFFER_POINT_CAPACITY ->
  L <= len pts ->
  nth_error segs j = Some t ->
  vs <= sI -> sI <= eI -> eI <= vs + L - 1 ->
  floor_div sI BUFFER_INTERVAL_CAPACITY <= Z.of_nat j
    < ceil_div eI BUFFER_INTERVAL_CAPACITY ->
  type <> Step ->
  let c := Segment.draw t (sI - Z.of_nat j * BUFFER_INTERVAL_CAPACITY)
                        (eI - Z.of_nat j * BUFFER_INTERVAL_CAPACITY) type in
  bound c = t /\ 0 <= firstVertex c /\ 0 <= vertexCount c /\
  forall v p,
    firstVertex c <= v < firstVertex c + vertexCount c ->
    In p (fetched type v) ->
    exists i dp,
      sI - vs <= i <= eI - vs /\ at_index pts i = Some dp /\
      dataPoint g t p = Some (float32 dp).
Proof.
  intros Hfill HL Hj Hlo Hle Hhi Hseg Htype c.
  assert (Hcell : forall p,
             0 <= p < BUFFER_POINT_CAPACITY ->
             sI <= Z.of_nat j * BUFFER_INTERVAL_CAPACITY + p <= eI ->
             exists i dp, sI - vs <= i <= eI - vs /\ at_index pts i = Some dp /\
                          dataPoint g t p = Some (float32 dp)).
  { intros p Hp HP.
    destruct (@at_index_inside _ pts
                (Z.of_nat j * BUFFER_INTERVAL_CAPACITY + p - vs)) as [dp Hdp];
      [lia|].
    exists (Z.of_nat j * BUFFER_INTERVAL_CAPACITY + p - vs), dp.
    split; [lia|]. split; [exact Hdp|].
    rewrite dataPoint_texel by lia.
    change (Some (float32 dp)) with (option_map float32 (Some dp)).
    rewrite <- Hdp.
    apply Hfill; [exact Hj | exact Hp | lia | intros _; lia | intros _; lia]. }
  subst c. unfold Segment.draw, fetched.
  destruct type; [| contradiction | |];
    cbn [bound firstVertex vertexCount].
  - (* Line *)
    destruct (Z.eqb_spec
                (Z.min BUFFER_INTERVAL_CAPACITY
                       (eI - Z.of_nat j * BUFFER_INTERVAL_CAPACITY))
                (eI - Z.of_nat j * BUFFER_INTERVAL_CAPACITY)) as [Hend|Hend].
    + split; [reflexivity|]. split; [cells|]. split; [cells|].
      intros v p Hv Hp. rewrite Z.shiftr_div_pow2 in Hp by lia.
      change (2 ^ 2) with 4 in Hp.
      apply Hcell; destruct Hp as [<-|[<-|[]]]; cells.
    + split; [reflexivity|]. split; [cells|]. split; [cells|].
      intros v p Hv Hp. rewrite Z.shiftr_div_pow2 in Hp by lia.
      change (2 ^ 2) with 4 in Hp.
      apply Hcell; destruct Hp as [<-|[<-|[]]]; cells.
  - (* NativeLine *)
    split; [reflexivity|]. split; [cells|]. split; [cells|].
    intros v p Hv [<-|[]]. apply Hcell; cells.
  - (* NativePoint *)
    split; [reflexivity|]. split; [cells|]. split; [cells|].
    intros v p Hv [<-|[]]. apply Hcell; cells.
Qed.

Section DrawProperties.

Variable domainSearch : list DataPoint -> Z -> Z -> Z -> (DataPoint -> Z) -> Z.

(** What is assumed of [domainSearch]: the index it returns lies between
    its [start] and [end] arguments. *)
Hypothesis domainSearch_range : forall d s e v key,
  s <= e -> s <= domainSearch d s e v key <= e.

(** The loop over segments that exist makes one call for each. *)
Lemma draw_loop_spec segs type sI eI n : forall i calls,
  0 <= i -> i + Z.of_nat n <= len segs ->
  exists new,
    draw_loop segs type sI eI (Zrange i n) calls = (Returns tt, calls ++ new) /\
    forall c, In c new ->
      exists j t,
        i <= Z.of_nat j < i + Z.of_nat n /\ nth_error segs j = Some t /\
        c = Segment.draw t (sI - Z.of_nat j * BUFFER_INTERVAL_CAPACITY)
                         (eI - Z.of_nat j * BUFFER_INTERVAL_CAPACITY) type.
Proof.
  induction n as [|n IH]; intros i calls Hi Hn.
  - exists []. split; [cbn; now rewrite app_nil_r | intros c []].
  - rewrite Zrange_cons. cbn [draw_loop].
    destruct (@at_index_inside _ segs i) as [t Ht]; [lia|].
    rewrite Ht.
    destruct (IH (i + 1)
                (calls ++ [Segment.draw t (sI - i * BUFFER_INTERVAL_CAPACITY)
                                        (eI - i * BUFFER_INTERVAL_CAPACITY) type]))
      as (new & E & Hnew); [lia | lia |].
    exists (Segment.draw t (sI - i * BUFFER_INTERVAL_CAPACITY)
                         (eI - i * BUFFER_INTERVAL_CAPACITY) type :: new).
    split; [rewrite E, <- app_assoc; reflexivity|].
    intros c [<-|Hc].
    + exists (Z.to_nat i), t. rewrite Z2Nat.id by lia.
      split; [lia|]. split; [|reflexivity].
      unfold at_index in Ht. destruct (Z.ltb_spec i 0); [lia | exact Ht].
    + destruct (Hnew c Hc) as (j & t' & Hj & Ht' & ->).
      exists j, t'. split; [lia|]. now split.
Qed.

(** X21.  What a frame draws.  In [drawFrame] the chain of a series is
    synced and then drawn.  After a [syncBuffer] from a state of the kind
    above, [draw(renderDomain)] with line type [Line], [NativeLine] or
    [NativePoint] returns, whatever the render domain is: it never addresses
    a segment that does not exist.  Every [drawArrays] call it makes has a
    texture of the chain bound and a [first] and a [count] that are not
    negative, and every texel that the vertex shader fetches for a vertex of
    the call holds a data point of the array, with its coordinates rounded
    to single precision.  This is proved for any
    [domainSearch] that returns an index between its [start] and [end]
    arguments. *)
Theorem draw_fetches_data a0 a type renderDomain_min renderDomain_max :
  chain_ok a0 -> mirrors a0 -> syncBuffer a0 = Returns a ->
  type <> Step ->
  exists calls,
    draw domainSearch a type renderDomain_min renderDomain_max
    = (Returns tt, calls) /\
    forall c, In c calls ->
      In (bound c) (segments a) /\
      0 <= firstVertex c /\ 0 <= vertexCount c /\
      forall v p,
        firstVertex c <= v < firstVertex c + vertexCount c ->
        In p (fetched type v) ->
        exists i dp,
          at_index (items (data a)) i = Some dp /\
          dataPoint (gl a) (bound c) p = Some (float32 dp).
Proof.
  intros Hok Hmir E Htype.
  pose proof (syncBuffer_filled Hok Hmir E) as Hfill.
  destruct (syncBuffer_spec Hok) as (a1 & E1 & Hitems & _ & _ & Hshort & Hlong).
  rewrite E1 in E. apply Returns_inj in E. subst a1.
  assert (HL : length (data a) = length (data a0))
    by (unfold length; now rewrite Hitems).
  rewrite <- HL in Hshort, Hlong. clear HL Hitems E1.
  unfold draw.
  destruct (Z.eqb_spec (len (segments a)) 0) as [E0|E0].
  { exists []. split; [reflexivity | intros c []]. }
  destruct (Z.lt_ge_cases (length (data a)) 2) as [H2|H2].
  { rewrite (Hshort H2), len_nil in E0. contradiction. }
  destruct (Hlong H2) as (Hs & Hvs & Hve & Hcl). unfold length in *.
  destruct (@at_index_inside _ (items (data a)) 0) as [d0 ->]; [lia|].
  destruct (Z.ltb_spec renderDomain_max (x d0)).
  { exists []. split; [reflexivity | intros c []]. }
  destruct (@at_index_inside _ (items (data a)) (len (items (data a)) - 1))
    as [dl ->]; [lia|].
  destruct (Z.ltb_spec (x dl) renderDomain_min).
  { exists []. split; [reflexivity | intros c []]. }
  cbv zeta.
  set (firstDP := domainSearch (items (data a)) 1 (len (items (data a)))
                               renderDomain_min x - 1).
  set (lastDP := domainSearch (items (data a)) firstDP
                              (len (items (data a)) - 1) renderDomain_max x).
  assert (Hf : 0 <= firstDP <= len (items (data a)) - 1).
  { subst firstDP.
    pose proof (domainSearch_range (items (data a)) renderDomain_min x
                  (s := 1) (e := len (items (data a)))). lia. }
  assert (Hl : firstDP <= lastDP <= len (items (data a)) - 1).
  { subst lastDP. apply domainSearch_range. lia. }
  clearbody firstDP lastDP.
  pose proof (nonempty_len Hs) as Hk.
  destruct (@draw_loop_spec (segments a) type (firstDP + validStart a)
              (lastDP + validStart a)
              (Z.to_nat (ceil_div (lastDP + validStart a) BUFFER_INTERVAL_CAPACITY
                         - floor_div (firstDP + validStart a)
                                     BUFFER_INTERVAL_CAPACITY))
              (floor_div (firstDP + validStart a) BUFFER_INTERVAL_CAPACITY) [])
    as (calls & Ec & Hcalls).
  { cells. }
  { cells. }
  exists calls. split; [exact Ec|].
  intros c Hc. destruct (Hcalls c Hc) as (j & t & Hj & Ht & ->).
  destruct (@segment_draw_fetches (gl a) (segments a) (items (data a))
              (validStart a) (len (items (data a))) j t
              (firstDP + validStart a) (lastDP + validStart a) type)
    as (Hb & H1 & H3 & H4); try assumption; try lia.
  rewrite Hb. split; [eapply nth_error_In; exact Ht|].
  split; [exact H1|]. split; [exact H3|].
  intros v p Hv Hp. destruct (H4 v p Hv Hp) as (i & dp & _ & Hi & Hd).
  exists i, dp. now split.
Qed.

End DrawProperties.

End SegmentProperties.

Section SegmentExamples.

Import Buffer.
Import LineChart.

(** The examples are on integers. *)
#[local] Existing Instance integers.

Lemma syncPoints_uploaded_rows_witness :
  exists buffer,
    syncPoints 0%nat ten 0 10 1 [] = Returns [texSubImage2D 0%nat 0 1 buffer] /\
    len buffer = BUFFER_TEXTURE_WIDTH.
Proof.
  destruct (@syncPoints_uploaded_rows _ 0%nat ten 0 10 1 [])
    as (_ & _ & buffer & E & L); [discriminate | lia |].
  exists buffer. split; [exact E | exact L].
Defined.

Lemma syncPoints_reads_clamped_witness :
  exists buffer,
    syncPoints 0%nat wide 0 3 1 [] = Returns [texSubImage2D 0%nat 0 1 buffer] /\
    nth_error buffer 0 = Some (mkDataPoint 16777216 0) /\
    nth_error buffer 1 = Some (mkDataPoint 16777216 0) /\
    nth_error buffer 2 = Some (mkDataPoint 16777218 33554432) /\
    nth_error buffer 3 = Some (mkDataPoint 16777220 1) /\
    nth_error buffer 255 = Some (mkDataPoint 16777220 1).
Proof.
  destruct (@syncPoints_reads_clamped _ 0%nat wide 0 3 1 [] 0 1)
    as (buffer & E & H); [discriminate | lia | reflexivity |].
  exists buffer. split; [exact E|].
  assert (Hc : forall c, 0 <= c < 256 ->
            nth_error buffer (Z.to_nat c)
            = option_map float32 (at_index wide (sourceIndex 0 1 3 c))).
  { intros c Hc.
    destruct (H 0 c) as (_ & (dp & D & B) & _); [lia | rewrite WIDTH_eq; lia |].
    rewrite WIDTH_eq in *.
    replace (Z.to_nat ((0 - 0) * 256 + c)) with (Z.to_nat c) in B by lia.
    replace (0 * 256 + c) with c in D by lia.
    change (len wide) with 3 in D. rewrite D. exact B. }
  repeat split.
  - exact (Hc 0 ltac:(lia)).
  - exact (Hc 1 ltac:(lia)).
  - exact (Hc 2 ltac:(lia)).
  - exact (Hc 3 ltac:(lia)).
  - exact (Hc 255 ltac:(lia)).
Defined.

(** C8 as stated fails: a sync of one point at the start of the sequence
    into cell 512, the first cell of row 2, uploads rows 1 and 2.  The
    touched region is row 2 only, which is neither the segment's first row
    nor next to it, and the end of the data is not touched; the rule of the
    specification gives row 2 alone. *)
Lemma claimed_rows_counterexample :
  syncPoints_rows 0 1 512 10 = (1, 3) /\
  claimed_rows 0 1 512 10 = (2, 3) /\
  ~ (forall start n bufferPos length,
       syncPoints_rows start n bufferPos length
       = claimed_rows start n bufferPos length).
Proof.
  split; [reflexivity|]. split; [reflexivity|].
  intros H. specialize (H 0 1 512 10). vm_compute in H. discriminate H.
Qed.

(** C10 as stated fails in its second half: syncing the single point of
    index 5 into cell 5 re-uploads row 0, and cell 3, whose source index 3
    lies outside [5, 6), holds the data point of index 3, which is neither
    the first nor the last point of the sequence. *)
Lemma padding_cell_counterexample :
  ~ (forall dataPoints start n bufferPos g t yoffset height buffer k first last dp,
       syncPoints t dataPoints start n bufferPos g
         = Returns (g ++ [texSubImage2D t yoffset height buffer]) ->
       at_index dataPoints 0 = Some first ->
       at_index dataPoints (len dataPoints - 1) = Some last ->
       nth_error buffer (Z.to_nat k) = Some dp ->
       0 <= k < height * BUFFER_TEXTURE_WIDTH ->
       let s := start + (yoffset * BUFFER_TEXTURE_WIDTH + k) - bufferPos in
       ~ (start <= s < start + n) ->
       dp = first \/ dp = last).
Proof.
  intros H.
  assert (E : exists buffer,
            syncPoints 0%nat ten 5 1 5 [] = Returns ([] ++ [texSubImage2D 0%nat 0 1 buffer]) /\
            nth_error buffer (Z.to_nat 3) = Some (mkDataPoint 3 9)).
  { eexists. split; vm_compute; reflexivity. }
  destruct E as (buffer & E & B).
  specialize (H ten 5 1 5 [] 0%nat 0 1 buffer 3 (mkDataPoint 0 0) (mkDataPoint 9 81)
                (mkDataPoint 3 9) E eq_refl eq_refl B).
  destruct H as [H|H]; try discriminate H.
  - rewrite WIDTH_eq. lia.
  - lia.
Qed.

Lemma full_segment_len : len full_segment = BUFFER_INTERVAL_CAPACITY.
Proof.
  unfold len, full_segment. rewrite repeat_length.
  apply Z2Nat.id. rewrite INTERVAL_CAPACITY_eq. lia.
Defined.

Lemma segment_creation_boundary_witness :
  len (concat [full_segment]) = BUFFER_INTERVAL_CAPACITY /\
  exists a1 a2 s1 s2,
    syncBuffer (mutate (each push [full_segment]) (LineChart.new [] (Buffer.new [])))
      = Returns a1 /\
    segments a1 = [0%nat] /\
    syncBuffer (mutate (push [mkDataPoint 1 1]) (mutate _synced a1)) = Returns a2 /\
    segments a2 = [s1; s2] /\
    texel (gl a2) s2 1 = Some (mkDataPoint 1 1).
Proof.
  assert (Hlen : len (concat [full_segment]) = BUFFER_INTERVAL_CAPACITY).
  { cbn [concat]. rewrite app_nil_r. exact full_segment_len. }
  split; [exact Hlen|].
  destruct (@segment_creation_boundary _ [full_segment] (mkDataPoint 1 1) true Hlen)
    as (a1 & E1 & S1 & _ & _ & _ & _ & _ & a2 & s1 & s2 & calls & lastp
        & E2 & S2 & _ & _ & _ & _ & _ & _ & _ & _ & T).
  exists a1, a2, s1, s2.
  split; [exact E1|]. split; [exact S1|]. split; [exact E2|].
  split; [exact S2 | exact T].
Defined.

Lemma drained_state :
  segments drained = [0%nat] /\
  items (data drained) = [mkDataPoint 2 5] /\
  counters drained = (0, 0, 2, 0).
Proof. vm_compute. auto. Qed.

Lemma drained_synced_length :
  length (data drained) - pushed_back (data drained) - pushed_front (data drained) < 2.
Proof. vm_compute. reflexivity. Defined.

Lemma refilled_synced_length :
  let a := mutate (push [mkDataPoint 16777219 1]) drained in
  length (data a) - pushed_back (data a) - pushed_front (data a) < 2.
Proof. vm_compute. reflexivity. Defined.

Lemma refilled_owned :
  let a := mutate (push [mkDataPoint 16777219 1]) drained in
  owned (gl a) (segments a).
Proof.
  split; [|split].
  - vm_compute. intuition (try discriminate; auto).
  - vm_compute. repeat constructor. intros [].
  - intros t [<-|[]]. vm_compute. reflexivity.
Defined.

Lemma syncBuffer_teardown_witness :
  (exists a',
     syncBuffer drained = Returns a' /\
     segments a' = [] /\
     counters a' = (0, 0, 0, 0) /\
     gl a' = gl drained ++ [deleteTexture 0%nat]) /\
  (exists a',
     syncBuffer (mutate (push [mkDataPoint 16777219 1]) drained) = Returns a' /\
     segments a' <> [] /\
     chain_len a' = 2 /\
     (exists t c, holds a' (validStart a' + 1) t c) /\
     forall t c, holds a' (validStart a' + 1) t c ->
                 texel (gl a') t c = Some (mkDataPoint 16777220 1)).
Proof.
  split.
  - destruct (@syncBuffer_teardown _ drained drained_synced_length)
      as (_ & H & _).
    eexists. split; [apply H; vm_compute; reflexivity|].
    split; [reflexivity|]. split; vm_compute; reflexivity.
  - destruct (@syncBuffer_teardown _ (mutate (push [mkDataPoint 16777219 1]) drained)
                refilled_synced_length) as (_ & _ & _ & H).
    destruct H as (a' & E & Hs & Hcl & Hall);
      [vm_compute; discriminate | exact refilled_owned |].
    exists a'. split; [exact E|]. split; [exact Hs|].
    split; [rewrite Hcl; reflexivity|].
    destruct (Hall 1) as (Hex & dp & Hdp & Ht);
      [split; [discriminate | reflexivity]|].
    split; [exact Hex|].
    intros t c Hh. rewrite (Ht t c Hh).
    vm_compute in Hdp. injection Hdp as <-. reflexivity.
Defined.

Lemma drained_sync :
  exists a', syncBuffer drained = Returns a' /\ counters a' = (0, 0, 0, 0).
Proof. eexists. split; vm_compute; reflexivity. Qed.

(** C4 as stated fails: on [drained] the synced length is 1, [syncBuffer]
    empties the chain and [poped_front] goes from 2 to 0. *)
Lemma teardown_counters_counterexample :
  ~ (forall a a',
       length (data a) - pushed_back (data a) - pushed_front (data a) < 2 ->
       syncBuffer a = Returns a' ->
       segments a' = [] /\ counters a' = counters a).
Proof.
  intros H.
  destruct drained_sync as (a' & E & C).
  destruct (H drained a' drained_synced_length E) as [_ C'].
  rewrite C in C'. vm_compute in C'. discriminate C'.
Qed.

Lemma syncBuffer_keeps_chain_witness :
  exists a',
    syncBuffer (LineChart.new [] (Buffer.new ten)) = Returns a' /\
    chain_len a' = 10.
Proof.
  destruct (@syncBuffer_keeps_chain _ (LineChart.new [] (Buffer.new ten)))
    as (a' & E & _ & _ & H & _).
  - apply fresh_chain_ok; [exact I | apply new_buffer_wf].
  - exists a'. split; [exact E|].
    destruct H as [_ H]; [vm_compute; discriminate | exact H].
Defined.

Lemma syncBuffer_textures_witness :
  exists a',
    syncBuffer (LineChart.new [] (Buffer.new ten)) = Returns a' /\
    accepted (gl a') /\ NoDup (segments a').
Proof.
  assert (Hok : chain_ok (LineChart.new [] (Buffer.new ten)))
    by (apply fresh_chain_ok; [exact I | apply new_buffer_wf]).
  destruct (syncBuffer_spec Hok) as (a' & E & _).
  exists a'. split; [exact E|].
  destruct (@syncBuffer_textures _ (LineChart.new [] (Buffer.new ten)) a' Hok E)
    as (Hacc & Hnd & _).
  split; assumption.
Defined.

Lemma frames_keep_chain_witness :
  match frames [[Push ten]; [Shift; Pop; Unshift [mkDataPoint 7 7]]]
               (LineChart.new [] (Buffer.new [])) with
  | Returns a' => in_sync a'
  | Throws e => thrown_by_splice e = true
  end.
Proof.
  apply (@frames_keep_chain _ [Push ten] [[Shift; Pop; Unshift [mkDataPoint 7 7]]]).
  apply fresh_chain_ok; [exact I | apply new_buffer_wf].
Defined.

Lemma frames_mirror_array_witness :
  exists a',
    frames [[Push wide]; [Shift; Unshift [mkDataPoint 7 7]]]
           (LineChart.new [] (Buffer.new [])) = Returns a' /\
    length (data a') = 3 /\
    (exists t c, holds a' (validStart a' + 1) t c) /\
    forall t c, holds a' (validStart a' + 1) t c ->
                texel (gl a') t c = Some (mkDataPoint 16777218 33554432).
Proof.
  destruct (frames [[Push wide]; [Shift; Unshift [mkDataPoint 7 7]]]
                   (LineChart.new [] (Buffer.new []))) as [a'|e] eqn:E.
  - pose proof E as E'. vm_compute in E'. apply Returns_inj in E'.
    assert (HL : length (data a') = 3) by (rewrite <- E'; reflexivity).
    assert (H1 : at_index (items (data a')) 1
                 = Some (mkDataPoint 16777218 33554433))
      by (rewrite <- E'; reflexivity).
    exists a'. split; [reflexivity|]. split; [exact HL|].
    destruct (@frames_mirror_array _
                [Push wide] [[Shift; Unshift [mkDataPoint 7 7]]]
                (LineChart.new [] (Buffer.new [])) a' 1)
      as [Hex (dp & Hdp & Hall)].
    + apply fresh_chain_ok; [exact I | apply new_buffer_wf].
    + apply fresh_mirrors.
    + exact E.
    + rewrite HL. lia.
    + split; [apply Hex; rewrite HL; lia|].
      intros t c Hh. rewrite (Hall t c Hh).
      rewrite H1 in Hdp. injection Hdp as Hdp. rewrite <- Hdp. reflexivity.
  - vm_compute in E. discriminate.
Defined.

(** On [ten] the point of index [k] has [x = k], so that the index of the
    first point at or after a value is the value itself, kept between
    [start] and [end].  The domain [2, 5] draws the intervals 2 to 5 of the
    segment, 16 vertices from vertex 8 on, whose cells 2 to 6 hold the
    points of index 1 to 5. *)
Lemma draw_fetches_data_witness :
  exists a c,
    syncBuffer (LineChart.new [] (Buffer.new ten)) = Returns a /\
    draw (fun _ s e v _ => Z.max s (Z.min e v)) a Line 2 5 = (Returns tt, [c]) /\
    firstVertex c = 8 /\ vertexCount c = 16 /\
    dataPoint (gl a) (bound c) 2 = Some (mkDataPoint 1 1) /\
    dataPoint (gl a) (bound c) 6 = Some (mkDataPoint 5 25) /\
    forall v p,
      8 <= v < 8 + 16 -> In p (fetched Line v) ->
      exists i dp,
        at_index (items (data a)) i = Some dp /\
        dataPoint (gl a) (bound c) p = Some (float32 dp).
Proof.
  assert (Hok : chain_ok (LineChart.new [] (Buffer.new ten)))
    by (apply fresh_chain_ok; [exact I | apply new_buffer_wf]).
  destruct (syncBuffer (LineChart.new [] (Buffer.new ten))) as [a|e] eqn:E;
    [|vm_compute in E; discriminate].
  destruct (@draw_fetches_data _ (fun _ s e v _ => Z.max s (Z.min e v)))
    with (a0 := LineChart.new [] (Buffer.new ten)) (a := a) (type := Line)
         (renderDomain_min := 2) (renderDomain_max := 5)
    as (calls & Ed & Hc).
  - intros d s e v key H. lia.
  - exact Hok.
  - apply fresh_mirrors.
  - exact E.
  - discriminate.
  - pose proof E as E'. vm_compute in E'. apply Returns_inj in E'.
    assert (Hcalls : calls = [mkDrawArrays 0%nat TRIANGLE_STRIP 8 16]).
    { rewrite <- E' in Ed. vm_compute in Ed. injection Ed as <-. reflexivity. }
    exists a, (mkDrawArrays 0%nat TRIANGLE_STRIP 8 16).
    split; [reflexivity|]. split; [rewrite Ed, Hcalls; reflexivity|].
    split; [reflexivity|]. split; [reflexivity|].
    split; [rewrite <- E'; vm_compute; reflexivity|].
    split; [rewrite <- E'; vm_compute; reflexivity|].
    intros v p Hv Hp.
    destruct (Hc (mkDrawArrays 0%nat TRIANGLE_STRIP 8 16)) as (_ & _ & _ & H);
      [rewrite Hcalls; left; reflexivity|].
    exact (H v p Hv Hp).
Defined.

End SegmentExamples.

(** * The ring of volume bars *)

Section VolumeBarProperties.

Import VolumeBar.

Variable number : Type.
Variable of_int : Z -> number.
Variable strict_equal greater : number -> number -> bool.
Variable minus plus : number -> number -> number.
Variable fround : number -> number.

(** [0 === 0] holds. *)
Hypothesis strict_equal_zero : strict_equal (of_int 0) (of_int 0) = true.

Ltac ring_size :=
  change (BUFFER_TEXTURE_WIDTH * BUFFER_TEXTURE_HEIGHT) with 524288 in *;
  change BUFFER_TEXTURE_WIDTH with 256 in *;
  change BUFFER_TEXTURE_HEIGHT with 2048 in *.

Lemma new_ring_ok : ring_ok of_int (new of_int).
Proof.
  unfold ring_ok, new.
  cbn [currentBarIndex numberOfBars dataBuffer volumeData lastUpdateTime].
  ring_size. repeat split; lia.
Qed.

(** The index that [updateCurrentBar] computes is the one before
    [currentBarIndex] on the ring. *)
Lemma previous_index i :
  0 <= i < BUFFER_TEXTURE_WIDTH * BUFFER_TEXTURE_HEIGHT ->
  Z.rem (Z.rem (i + 1) (BUFFER_TEXTURE_WIDTH * BUFFER_TEXTURE_HEIGHT) - 1
         + BUFFER_TEXTURE_WIDTH * BUFFER_TEXTURE_HEIGHT)
        (BUFFER_TEXTURE_WIDTH * BUFFER_TEXTURE_HEIGHT) = i.
Proof.
  ring_size. intros H.
  rewrite (Z.rem_mod_nonneg (i + 1)) by lia.
  rewrite Z.rem_mod_nonneg; Z.div_mod_to_equations; lia.
Qed.

Lemma addVolumeData_ring_ok timestamp volume r :
  ring_ok of_int r ->
  ring_ok of_int
    (addVolumeData of_int strict_equal greater minus plus fround
                   timestamp volume r) /\
  1 <= numberOfBars
         (addVolumeData of_int strict_equal greater minus plus fround
                        timestamp volume r).
Proof.
  intros (Hc & Hn & Hcn & Hd & H0). unfold addVolumeData.
  destruct (strict_equal (lastUpdateTime r) (of_int 0)
            || greater (minus timestamp (lastUpdateTime r))
                       (aggregationPeriod r)) eqn:Hnew.
  - unfold ring_ok, addNewBar.
    cbn [currentBarIndex numberOfBars dataBuffer volumeData lastUpdateTime].
    ring_size. rewrite Z.rem_mod_nonneg by lia.
    repeat split; try (Z.div_mod_to_equations; lia).
  - assert (Hpos : numberOfBars r <> 0).
    { intros Hz. rewrite (H0 Hz), strict_equal_zero in Hnew. discriminate. }
    unfold ring_ok, updateCurrentBar.
    cbn [currentBarIndex numberOfBars dataBuffer volumeData lastUpdateTime].
    repeat split; try lia; try assumption.
Qed.

Lemma feed_ring_ok calls : forall r,
  ring_ok of_int r ->
  ring_ok of_int
    (feed of_int strict_equal greater minus plus fround calls r) /\
  (calls <> [] ->
   1 <= numberOfBars
          (feed of_int strict_equal greater minus plus fround calls r)).
Proof.
  induction calls as [|call rest IH] using rev_ind; intros r Hr.
  - split; [exact Hr | intros H; contradiction].
  - unfold feed. rewrite fold_left_app. cbn [fold_left].
    destruct (IH r Hr) as [Hok _].
    destruct (@addVolumeData_ring_ok (fst call) (snd call) _ Hok) as [H1 H2].
    split; [exact H1 | intros _; exact H2].
Qed.

(** X22.  The ring of bars.  After any sequence of [addVolumeData] calls
    on a new renderer, [currentBarIndex] is an index of the ring (so the two
    slots of the next bar are elements of [volumeData]), [numberOfBars] is
    at most the capacity of the ring and equals [currentBarIndex] as long as
    the ring is not full, and one call is enough for a bar to exist, so that
    [updateCurrentBar] never runs without a bar.  Every vertex that [draw]
    then runs fetches the texel of a bar below [numberOfBars], and the texel
    holds the two elements of that bar in [volumeData]: the texture is never
    behind the array. *)
Theorem volume_bars_ring calls :
  let r := feed of_int strict_equal greater minus plus fround calls
                (new of_int) in
  0 <= currentBarIndex r < BUFFER_TEXTURE_WIDTH * BUFFER_TEXTURE_HEIGHT /\
  0 <= numberOfBars r <= BUFFER_TEXTURE_WIDTH * BUFFER_TEXTURE_HEIGHT /\
  (numberOfBars r < BUFFER_TEXTURE_WIDTH * BUFFER_TEXTURE_HEIGHT ->
   currentBarIndex r = numberOfBars r) /\
  (calls <> [] -> 1 <= numberOfBars r) /\
  forall gl_VertexID,
    fst (draw r) <= gl_VertexID < fst (draw r) + snd (draw r) ->
    0 <= barIndex gl_VertexID < numberOfBars r /\
    dataPoint r (barIndex gl_VertexID)
    = Some (volumeData r (barIndex gl_VertexID * 2),
            volumeData r (barIndex gl_VertexID * 2 + 1)).
Proof.
  intros r. destruct (@feed_ring_ok calls (new of_int) new_ring_ok)
    as ((Hc & Hn & Hcn & Hd & _) & H1). fold r in Hc, Hn, Hcn, Hd, H1.
  split; [exact Hc|]. split; [exact Hn|]. split; [exact Hcn|].
  split; [exact H1|].
  intros v Hv. unfold draw in Hv. cbn [fst snd] in Hv.
  assert (Hb : 0 <= barIndex v < numberOfBars r).
  { unfold barIndex. rewrite Z.quot_div_nonneg by lia.
    Z.div_mod_to_equations. lia. }
  split; [exact Hb|].
  unfold dataPoint. rewrite Hd. ring_size.
  rewrite Z.rem_mod_nonneg, Z.quot_div_nonneg by lia.
  destruct (Z.leb_spec 0 (barIndex v mod 256));
    [|Z.div_mod_to_equations; lia].
  destruct (Z.leb_spec 0 (barIndex v / 256));
    [|Z.div_mod_to_equations; lia].
  destruct (Z.ltb_spec (barIndex v / 256) 2048);
    [|Z.div_mod_to_equations; lia].
  cbn [andb].
  replace (barIndex v / 256 * 256 + barIndex v mod 256) with (barIndex v)
    by (Z.div_mod_to_equations; lia).
  reflexivity.
Qed.

(** X23.  A bar and its updates.  From a state whose [currentBarIndex] is
    an index of the ring, [addNewBar(timestamp, volume)] followed by
    [updateCurrentBar(more)] leaves the rounded timestamp in the first slot
    of the bar at the old [currentBarIndex] and the rounded sum of the
    rounded volume and [more] in its second slot, changes no other element,
    and uploads the array: the update finds the bar that was just added,
    also when [currentBarIndex] has wrapped around to 0 in between. *)
Theorem update_finds_new_bar timestamp volume more r :
  0 <= currentBarIndex r < BUFFER_TEXTURE_WIDTH * BUFFER_TEXTURE_HEIGHT ->
  let r' := updateCurrentBar plus fround more
              (addNewBar fround timestamp volume r) in
  volumeData r' (currentBarIndex r * 2) = fround timestamp /\
  volumeData r' (currentBarIndex r * 2 + 1)
  = fround (plus (fround volume) more) /\
  (forall k, k <> currentBarIndex r * 2 -> k <> currentBarIndex r * 2 + 1 ->
             volumeData r' k = volumeData r k) /\
  dataBuffer r' = volumeData r'.
Proof.
  intros Hc r'. subst r'. unfold updateCurrentBar, addNewBar.
  cbn [currentBarIndex numberOfBars dataBuffer volumeData lastUpdateTime].
  rewrite (previous_index Hc).
  unfold element, store, elements. ring_size.
  set (i := currentBarIndex r) in *.
  destruct (Z.leb_spec 0 (i * 2 + 1)); [|lia].
  destruct (Z.ltb_spec (i * 2 + 1) (524288 * 2)); [|lia].
  cbn [andb]. rewrite Z.eqb_refl. cbn [andb].
  split; [|split; [|split; [|reflexivity]]].
  - destruct (Z.eqb_spec (i * 2) (i * 2 + 1)); [lia|]. cbn [andb].
    rewrite Z.eqb_refl.
    destruct (Z.leb_spec 0 (i * 2)); [|lia].
    destruct (Z.ltb_spec (i * 2) (524288 * 2)); [|lia]. reflexivity.
  - reflexivity.
  - intros k H1 H2.
    destruct (Z.eqb_spec k (i * 2 + 1)); [contradiction|].
    destruct (Z.eqb_spec k (i * 2)); [contradiction|]. reflexivity.
Qed.

End VolumeBarProperties.

Section VolumeBarExamples.

Import VolumeBar.

Lemma volume_bars_ring_witness :
  1 <= numberOfBars
         (feed (fun k => k) Z.eqb Z.gtb Z.sub Z.add (fun v => v)
               [(5, 10); (300, 1); (2000, 4)] (new (fun k => k))).
Proof.
  destruct (@volume_bars_ring Z (fun k => k) Z.eqb Z.gtb Z.sub Z.add
              (fun v => v) eq_refl [(5, 10); (300, 1); (2000, 4)])
    as (_ & _ & _ & H & _).
  apply H. discriminate.
Defined.

Lemma update_finds_new_bar_witness :
  volumeData
    (updateCurrentBar Z.add (fun v => v) 1
       (addNewBar (fun v => v) 5 10 (new (fun k => k)))) 1 = 11.
Proof.
  destruct (@update_finds_new_bar Z Z.add (fun v => v) 5 10 1
              (new (fun k => k))) as (_ & H & _).
  - vm_compute. split; [discriminate | reflexivity].
  - exact H.
Defined.

End VolumeBarExamples.

(** * Scheduling of updates *)

Section RedrawProperties.

Import Redraw.

(** Between two events: a callback is pending exactly when
    [redrawRequested] is set, and [disposing] was dispatched exactly when
    the signal is aborted. *)
Lemma step_pending m ev :
  animationFrameCallbacks m = (if redrawRequested m then 1 else 0)%nat ->
  disposals m = (if aborted m then 1 else 0)%nat ->
  animationFrameCallbacks (step m ev)
    = (if redrawRequested (step m ev) then 1 else 0)%nat /\
  disposals (step m ev) = (if aborted (step m ev) then 1 else 0)%nat /\
  (updates m <= updates (step m ev)
   <= updates m + match ev with AnimationFrame _ => 1 | _ => 0 end)%nat /\
  (aborted m = true ->
   aborted (step m ev) = true /\ updates (step m ev) = updates m).
Proof.
  destruct m as [rr ab n u d]. cbn [animationFrameCallbacks redrawRequested
                                    disposals aborted updates].
  intros Hn Hd. subst n d.
  destruct ev as [| | |b]; destruct rr, ab; try destruct b; cbn;
    repeat split; auto; try lia; discriminate.
Qed.

Lemma run_pending evs : forall m,
  animationFrameCallbacks m = (if redrawRequested m then 1 else 0)%nat ->
  disposals m = (if aborted m then 1 else 0)%nat ->
  animationFrameCallbacks (run evs m)
    = (if redrawRequested (run evs m) then 1 else 0)%nat /\
  disposals (run evs m) = (if aborted (run evs m) then 1 else 0)%nat /\
  (updates (run evs m) <= updates m + frames_in evs)%nat /\
  (aborted m = true ->
   aborted (run evs m) = true /\ updates (run evs m) = updates m).
Proof.
  induction evs as [|ev rest IH]; intros m Hn Hd.
  - cbn. repeat split; auto; lia.
  - destruct (@step_pending m ev Hn Hd) as (Hn1 & Hd1 & Hu1 & Ha1).
    destruct (IH (step m ev) Hn1 Hd1) as (Hn2 & Hd2 & Hu2 & Ha2).
    change (run (ev :: rest) m) with (run rest (step m ev)).
    split; [exact Hn2|]. split; [exact Hd2|]. split.
    + unfold frames_in in *. cbn [filter].
      destruct ev; cbn [List.length] in *; lia.
    + intros Hab. destruct (Ha1 Hab) as [Hab1 Hu].
      destruct (Ha2 Hab1) as [Hab2 Hu']. split; [exact Hab2 | congruence].
Qed.

(** X24.  Redraw requests are debounced.  After any sequence of
    [requestRedraw], [resize] and [dispose] calls and animation frames on a
    new model, at most one callback is waiting for the next frame, and one
    is waiting exactly when [redrawRequested] is set; [update] has run at
    most once for each animation frame, however many redraws were requested
    in between; [disposing] was dispatched at most once; and once the model
    is disposed, [update] never runs again. *)
Theorem redraw_debounced evs later :
  let m := run evs new in
  (animationFrameCallbacks m <= 1)%nat /\
  (animationFrameCallbacks m = 1%nat <-> redrawRequested m = true) /\
  (updates m <= frames_in evs)%nat /\
  (disposals m <= 1)%nat /\
  (In Dispose evs -> updates (run later m) = updates m).
Proof.
  intros m.
  destruct (@run_pending evs new eq_refl eq_refl) as (Hn & Hd & Hu & _).
  fold m in Hn, Hd, Hu.
  split; [destruct (redrawRequested m); lia|].
  split; [destruct (redrawRequested m); split; intros; try lia; auto;
          discriminate|].
  split; [exact Hu|]. split; [destruct (aborted m); lia|].
  intros Hin.
  assert (Hab : aborted m = true).
  { destruct (in_split _ _ Hin) as (l1 & l2 & Hsplit).
    subst m. rewrite Hsplit. unfold run. rewrite fold_left_app.
    cbn [fold_left]. fold (run l1 new). fold (run l2 (step (run l1 new) Dispose)).
    destruct (@run_pending l1 new eq_refl eq_refl) as (Hn1 & Hd1 & _).
    destruct (@step_pending (run l1 new) Dispose Hn1 Hd1) as (Hn2 & Hd2 & _).
    apply (@run_pending l2 (step (run l1 new) Dispose) Hn2 Hd2).
    cbn [step]. unfold dispose. destruct (aborted (run l1 new)) eqn:Ha;
      cbn [negb aborted]; [exact Ha | reflexivity]. }
  destruct (@run_pending later m Hn Hd) as (_ & _ & _ & H). now apply H.
Qed.

Lemma redraw_debounced_witness :
  updates (run [AnimationFrame true; AnimationFrame false]
               (run [RequestRedraw; Resize; RequestRedraw; Dispose] new)) = 0%nat.
Proof.
  apply (@redraw_debounced [RequestRedraw; Resize; RequestRedraw; Dispose]
           [AnimationFrame true; AnimationFrame false]).
  right. right. right. now left.
Defined.

End RedrawProperties.
